(** * scatterer_control.py: exact controllability of a scattered wave

    A shallow embedding of [src/scatterer_control.py] and the proofs of the
    properties stated about it.

    Numbers.  The program computes in IEEE double precision; the embedding
    computes in the real numbers [R], the usual idealisation of a numerical
    program.  The one operation of the program that has no value in exact
    arithmetic is a division by zero, where numpy answers [inf] or [nan] and
    goes on: the embedding makes it explicit as the outcome [NonFinite].

    Arrays.  A numpy array is a [list R]; reading or writing one element
    outside the array raises [IndexError] in Python and is the outcome
    [IndexError] here.

    The file has two layers.  The value layer passes the arrays of a state
    as values from statement to statement.  The store layer ([Module Store])
    keeps the arrays in a store of mutable cells and the states as pairs of
    references, for the properties that are about aliasing and in-place
    mutation.  The store layer is proved to compute what the value layer
    computes ([store_forward_step], [store_backward_step],
    [store_compute_cost_gradient], [store_compute_control_energy]). *)

From Stdlib Require Import Reals Lra Lia ZArith List Bool.
From stdpp Require Import base list.
Import ListNotations.
Open Scope R_scope.

(** ** Outcomes of a computation *)

Inductive result (A : Type) : Type :=
| Ok (a : A)
| IndexError
| NonFinite.

Arguments Ok {A} a.
Arguments IndexError {A}.
Arguments NonFinite {A}.

Definition bind {A B : Type} (m : result A) (k : A -> result B) : result B :=
  match m with
  | Ok a => k a
  | IndexError => IndexError
  | NonFinite => NonFinite
  end.

Notation "'do' x <- m ; k" := (bind m (fun x => k))
  (at level 10, x name, m at level 100, k at level 200,
   format "'[v' 'do'  x  <-  m ; '/' k ']'").

Definition result_map {A B : Type} (f : A -> B) (m : result A) : result B :=
  match m with
  | Ok a => Ok (f a)
  | IndexError => IndexError
  | NonFinite => NonFinite
  end.

(** [for x in xs: s = body x s] *)
Fixpoint for_each {A St : Type} (xs : list A) (body : A -> St -> result St) (s : St)
  : result St :=
  match xs with
  | [] => Ok s
  | x :: rest => do s' <- body x s; for_each rest body s'
  end.

(** [for _ in range(n): s = body s] *)
Fixpoint repeat_n {St : Type} (n : nat) (body : St -> result St) (s : St) : result St :=
  match n with
  | O => Ok s
  | S n' => do s' <- body s; repeat_n n' body s'
  end.

(** Float division [x / y] of numpy scalars. *)
Definition fdiv (x y : R) : result R :=
  if Req_dec_T y 0 then NonFinite else Ok (x / y).

(** ** numpy arrays and sparse matrices *)

Abbreviation vec := (list R).
Abbreviation matrix := (list (list R)).

(** [a[i]] and [a[i] = x] *)
Definition getitem {A : Type} (a : list A) (i : nat) : result A :=
  match a !! i with
  | Some x => Ok x
  | None => IndexError
  end.

Definition setitem {A : Type} (a : list A) (i : nat) (x : A) : result (list A) :=
  if (i <? length a)%nat then Ok (<[i := x]> a) else IndexError.

Definition zeros (n : nat) : vec := repeat 0 n.

(** Arithmetic on whole arrays.  The arrays of the program have the
    shapes of the mesh ([wf_env], [wf_state] below); on arrays of different
    lengths, where numpy raises, these functions stop at the shorter one. *)
Definition vadd (a b : vec) : vec := zip_with Rplus a b.
Definition vsub (a b : vec) : vec := zip_with Rminus a b.
Definition vneg (a : vec) : vec := map Ropp a.
Definition vscale (s : R) (a : vec) : vec := map (Rmult s) a.

(** [np.dot(a, b)] *)
Fixpoint vdot (a b : vec) : R :=
  match a, b with
  | x :: a', y :: b' => x * y + vdot a' b'
  | _, _ => 0
  end.

(** [A * x] for a sparse matrix [A] given by its rows. *)
Definition matvec (A : matrix) (x : vec) : vec := map (fun row => vdot row x) A.

(** [A.T] for a matrix of [n] columns. *)
Fixpoint transpose {E : Type} (n : nat) (A : list (list E)) : list (list E) :=
  match A with
  | [] => repeat [] n
  | row :: A' => zip_with cons row (transpose n A')
  end.

(** [s * D * A] for a scalar [s], the diagonal matrix of [diag] and an
    integer matrix [A]. *)
Definition scale_rows (s : R) (diag : vec) (A : list (list Z)) : matrix :=
  zip_with (fun di row => map (fun e => s * di * IZR e) row) diag A.

(** ** The mesh and the parameters of the simulation *)

Module BoundaryEdgeInfo.
Record t : Type := {
  dual_vert_idx : nat;
  length : R;
  orientation : Z
}.
End BoundaryEdgeInfo.

(** What the steps and the optimisation read: the data of the mesh
    generator and of pydec, the command line, and the parameters that the
    script fixes before the first function.  In the script
    [inc_wavenumber = 1], [inc_angular_vel = 2], [dt = pi / 120] and
    [steps_per_period = ceil(wave_period / dt)], a ceiling of a floating
    point quotient; [outer_bound_infos] is built once, one record per
    element of [outer_bound_edges], by the loop over the incidence matrix.
    They are fields here, so that the properties hold for all their
    values. *)
Record Env : Type := {
  (* cmp_complex[2].num_simplices, cmp_complex[1].num_simplices *)
  num_faces : nat;
  num_edges : nat;
  (* cmp_complex[1].d: one row per face, one column per edge *)
  d : list (list Z);
  (* diagonals of cmp_complex[2].star and cmp_complex[1].star_inv *)
  star2 : vec;
  star1_inv : vec;
  (* cmp_complex.vertices, cmp_complex[1].simplices, cmp_complex[2].circumcenter *)
  vertices : list (R * R);
  simplices : list (nat * nat);
  circumcenter : list (R * R);
  inner_bound_edges : list nat;
  outer_bound_edges : list nat;
  outer_bound_infos : list BoundaryEdgeInfo.t;
  (* incoming wave and time parameters *)
  inc_wavenumber : R;
  arg_inc_angle : R;
  inc_angular_vel : R;
  dt : R;
  steps_per_period : nat;
  max_iters : nat
}.

Definition inc_angle (env : Env) : R := arg_inc_angle env * 2 * PI / 360.
Definition inc_wave_dir (env : Env) : R * R := (cos (inc_angle env), sin (inc_angle env)).
Definition inc_wave_vector (env : Env) : R * R :=
  (inc_wavenumber env * fst (inc_wave_dir env), inc_wavenumber env * snd (inc_wave_dir env)).
Definition wave_period (env : Env) : R := (2 * PI) / inc_angular_vel env.

(** [p_step_mat = dt * cmp_complex[2].star * cmp_complex[1].d] *)
Definition p_step_mat (env : Env) : matrix := scale_rows (dt env) (star2 env) (d env).
(** [q_step_mat = dt * cmp_complex[1].star_inv * cmp_complex[1].d.T] *)
Definition q_step_mat (env : Env) : matrix :=
  scale_rows (dt env) (star1_inv env) (transpose (num_edges env) (d env)).
(** [p_step_mat.T] and [q_step_mat.T] *)
Definition p_step_mat_T (env : Env) : matrix := transpose (num_edges env) (p_step_mat env).
Definition q_step_mat_T (env : Env) : matrix := transpose (num_faces env) (q_step_mat env).

Definition dot2 (a b : R * R) : R := fst a * fst b + snd a * snd b.

(** ** The incoming wave *)

Definition eval_inc_wave_pressure (env : Env) (t : R) (position : R * R) : R :=
  inc_angular_vel env * sin (inc_angular_vel env * t - dot2 (inc_wave_vector env) position).

Definition eval_inc_wave_flux (env : Env) (t : R) (edge_vert_indices : nat * nat) : result R :=
  do p0 <- getitem (vertices env) (fst edge_vert_indices);
  do p1 <- getitem (vertices env) (snd edge_vert_indices);
  let kdotp := dot2 (inc_wave_vector env) p0 in
  let l := (fst p1 - fst p0, snd p1 - snd p0) in
  let kdotl := dot2 (inc_wave_vector env) l in
  let kdotn := dot2 (inc_wave_vector env) (snd l, - fst l) in
  let wave_angle := inc_angular_vel env * t in
  if Rlt_dec (Rabs kdotl) 1e-5 then
    Ok (- kdotn * sin (wave_angle - kdotp))
  else
    do r <- fdiv kdotn kdotl;
    Ok (r * (cos (wave_angle - kdotp) - cos (wave_angle - kdotp - kdotl))).

(** ** Wave states (value layer) *)

Record State : Type := {
  pressure : vec;
  flux : vec
}.

Module StateOps.
Definition copy (self : State) : State :=
  {| pressure := pressure self; flux := flux self |}.
Definition scaled (self : State) (s : R) : State :=
  {| pressure := vscale s (pressure self); flux := vscale s (flux self) |}.
Definition dot (self other : State) : R :=
  vdot (pressure self) (pressure other) + vdot (flux self) (flux other).
Definition energy (self : State) : R := 0.5 * dot self self.
Definition add (self other : State) : State :=
  {| pressure := vadd (pressure self) (pressure other);
     flux := vadd (flux self) (flux other) |}.
Definition sub (self other : State) : State :=
  {| pressure := vsub (pressure self) (pressure other);
     flux := vsub (flux self) (flux other) |}.
Definition neg (self : State) : State :=
  {| pressure := vneg (pressure self); flux := vneg (flux self) |}.
End StateOps.
Import StateOps.

(** ** The solvers (value layer) *)

Module ForwardSolve.
Record t : Type := {
  state : State;
  time : R
}.

(** The loop over [inner_bound_edges]. *)
Definition inner_body (env : Env) (source_term_scaling : R -> R) (t_at_w : R)
  (edge_idx : nat) (flux : vec) : result vec :=
  do verts <- getitem (simplices env) edge_idx;
  do w <- eval_inc_wave_flux env t_at_w verts;
  setitem flux edge_idx (source_term_scaling t_at_w * w).

(** The loop over [zip(outer_bound_edges, outer_bound_infos)]. *)
Definition outer_body (pressure : vec) (item : nat * BoundaryEdgeInfo.t) (flux : vec)
  : result vec :=
  let (edge_idx, edge_info) := item in
  do p <- getitem pressure (BoundaryEdgeInfo.dual_vert_idx edge_info);
  setitem flux edge_idx
    (- p * BoundaryEdgeInfo.length edge_info * IZR (BoundaryEdgeInfo.orientation edge_info)).

Definition step (env : Env) (source_term_scaling : R -> R) (self : t) : result t :=
  let t1 := time self + dt env in
  let pressure1 := vadd (pressure (state self)) (matvec (p_step_mat env) (flux (state self))) in
  let t_at_w := t1 + 0.5 * dt env in
  let flux1 := vadd (flux (state self)) (matvec (q_step_mat env) pressure1) in
  do flux2 <- for_each (inner_bound_edges env)
                (inner_body env source_term_scaling t_at_w) flux1;
  do flux3 <- for_each (zip (outer_bound_edges env) (outer_bound_infos env))
                (outer_body pressure1) flux2;
  Ok {| state := {| pressure := pressure1; flux := flux3 |}; time := t1 |}.
End ForwardSolve.

Module BackwardSolve.
Record t : Type := {
  state : State
}.

Definition inner_body (edge_idx : nat) (flux : vec) : result vec :=
  setitem flux edge_idx 0.

Definition outer_body (pressure : vec) (item : nat * BoundaryEdgeInfo.t) (flux : vec)
  : result vec :=
  let (edge_idx, edge_info) := item in
  do p <- getitem pressure (BoundaryEdgeInfo.dual_vert_idx edge_info);
  setitem flux edge_idx
    (p * BoundaryEdgeInfo.length edge_info * IZR (BoundaryEdgeInfo.orientation edge_info)).

Definition step (env : Env) (self : t) : result t :=
  let flux1 := vadd (flux (state self)) (matvec (p_step_mat_T env) (pressure (state self))) in
  do flux2 <- for_each (inner_bound_edges env) inner_body flux1;
  do flux3 <- for_each (zip (outer_bound_edges env) (outer_bound_infos env))
                (outer_body (pressure (state self))) flux2;
  let pressure1 := vadd (pressure (state self)) (matvec (q_step_mat_T env) flux3) in
  Ok {| state := {| pressure := pressure1; flux := flux3 |} |}.
End BackwardSolve.

(** ** The cost gradient and the control energy (value layer) *)

Record GradientResult : Type := {
  gradient : State;
  forward_diff : State
}.

Definition GradientResult_energy (self : GradientResult) : R :=
  energy (forward_diff self).

Definition compute_cost_gradient (env : Env) (initial_state : State)
  (use_source_terms : bool) : result GradientResult :=
  (* solve the forward equation *)
  let sim_fwd := {| ForwardSolve.state := copy initial_state; ForwardSolve.time := 0 |} in
  let source_scaling := if use_source_terms then (fun _ : R => 1) else (fun _ : R => 0) in
  do sim_fwd <- repeat_n (steps_per_period env) (ForwardSolve.step env source_scaling) sim_fwd;
  let final_state := ForwardSolve.state sim_fwd in
  (* compute starting value for the backward equation *)
  let fwd_diff := sub final_state initial_state in
  let bwd_init_q := vneg (flux fwd_diff) in
  let bwd_init_state :=
    {| flux := bwd_init_q;
       pressure := vsub (matvec (q_step_mat_T env) bwd_init_q) (pressure fwd_diff) |} in
  (* solve the backward equation *)
  let sim_bwd := {| BackwardSolve.state := copy bwd_init_state |} in
  do sim_bwd <- repeat_n (steps_per_period env - 1) (BackwardSolve.step env) sim_bwd;
  let final_bwd_state :=
    {| pressure := vneg (pressure (BackwardSolve.state sim_bwd));
       flux := vsub (vneg (flux (BackwardSolve.state sim_bwd)))
                    (matvec (p_step_mat_T env) (pressure (BackwardSolve.state sim_bwd))) |} in
  Ok {| gradient := sub final_bwd_state fwd_diff; forward_diff := fwd_diff |}.

Definition compute_control_energy (env : Env) (state : State) : result R :=
  let period_sim := {| ForwardSolve.state := copy state; ForwardSolve.time := 0 |} in
  do period_sim <- repeat_n (steps_per_period env) (ForwardSolve.step env (fun _ => 1)) period_sim;
  Ok (energy (sub (ForwardSolve.state period_sim) state)).

(** [zero_state] of the top-level script. *)
Definition zero_state (env : Env) : State :=
  {| pressure := zeros (num_faces env); flux := zeros (num_edges env) |}.

(** ** The conjugate gradient optimisation (value layer)

    The variables of the top-level script from [stop_condition_sq] on.  The
    seed [initial_state] is what the eased-in forward simulation leaves.
    [State] defines [__add__] and [__sub__] but no in-place version, so
    [approx_solution += ...] and [residual -= ...] bind the variable to a
    new state and leave the old arrays alone: the variables are values. *)

Record CG : Type := {
  approx_solution : State;
  residual : State;
  initial_resid_norm_sq : R;
  resid_norm_sq : R;
  search_dir : State;
  control_energies : list R;
  resid_norms : list R;
  a_inner_prods : list R;
  step_count : nat
}.

Definition stop_condition_sq : R := 1e-2 ^ 2.

(** The statements before the loop. *)
Definition cg_init (env : Env) (initial_state : State) : result CG :=
  let approx_solution := copy initial_state in
  do g <- compute_cost_gradient env approx_solution true;
  let residual := neg (gradient g) in
  let initial_resid_norm_sq := dot residual residual in
  let resid_norm_sq := initial_resid_norm_sq in
  let search_dir := copy residual in
  do e <- compute_control_energy env approx_solution;
  Ok {| approx_solution := approx_solution;
        residual := residual;
        initial_resid_norm_sq := initial_resid_norm_sq;
        resid_norm_sq := resid_norm_sq;
        search_dir := search_dir;
        control_energies := [e];
        resid_norms := [sqrt initial_resid_norm_sq];
        a_inner_prods := [0];
        step_count := 0 |}.

(** The body of the loop up to [step_count += 1]. *)
Definition cg_body (env : Env) (st : CG) : result CG :=
  do g <- compute_cost_gradient env (search_dir st) false;
  let resid_update := gradient g in
  do solution_update_param <- fdiv (resid_norm_sq st) (dot resid_update (search_dir st));
  let approx_solution := add (approx_solution st) (scaled (search_dir st) solution_update_param) in
  let residual := sub (residual st) (scaled resid_update solution_update_param) in
  let next_resid_norm_sq := dot residual residual in
  do resid_norm_proportion <- fdiv next_resid_norm_sq (resid_norm_sq st);
  let resid_norm_sq := next_resid_norm_sq in
  let search_dir := add residual (scaled (search_dir st) resid_norm_proportion) in
  do e <- compute_control_energy env approx_solution;
  Ok {| approx_solution := approx_solution;
        residual := residual;
        initial_resid_norm_sq := initial_resid_norm_sq st;
        resid_norm_sq := resid_norm_sq;
        search_dir := search_dir;
        control_energies := control_energies st ++ [e];
        resid_norms := resid_norms st ++ [sqrt resid_norm_sq];
        a_inner_prods := a_inner_prods st ++ [dot resid_update search_dir];
        step_count := S (step_count st) |}.

(** The test [(resid_norm_sq / initial_resid_norm_sq) < stop_condition_sq].
    The loop does not reach it with a zero denominator: the first iteration
    has then divided by zero already ([cg_zero_residual_body]). *)
Definition converged (st : CG) : result bool :=
  do r <- fdiv (resid_norm_sq st) (initial_resid_norm_sq st);
  Ok (if Rlt_dec r stop_condition_sq then true else false).

(** [for i in range(n): body; if converged: break] *)
Fixpoint cg_loop (env : Env) (n : nat) (st : CG) : result CG :=
  match n with
  | O => Ok st
  | S n' =>
      do st' <- cg_body env st;
      do c <- converged st';
      if c then Ok st' else cg_loop env n' st'
  end.

Definition cg_run (env : Env) (initial_state : State) : result CG :=
  do st <- cg_init env initial_state;
  cg_loop env (max_iters env) st.

(** ** The store layer: arrays as mutable cells

    A numpy array is a cell of the store, named by its address; an
    in-place operation ([+=], [a[i] = x]) changes the content of the cell,
    an arithmetic expression ([a - b], [-a], [s * a], [a.copy()]) allocates
    a new one (the temporaries inside an expression, which no variable
    holds, are plain values).  A [State] object is the pair of the addresses its two fields
    hold; no statement of the program rebinds a field of a [State] to
    another array ([+=] on an array rebinds it to the same array), so the
    pair stands for the object.  A reference outside the store does not
    exist in Python; the model gives its use the outcome [IndexError] so
    that every computation has an outcome.

    The dataclass [State] evaluates its field defaults
    [np.zeros(...)] once, when the class is defined: the two arrays are
    the first two cells of the store in which the program starts, and
    [State()] hands out their addresses.  (This is the behaviour of the
    Python versions that accept the class, up to 3.10; later versions
    reject an array as a dataclass default.) *)

Module Store.

Abbreviation store := (list (list R)).
Abbreviation ref := nat.

Definition M (A : Type) : Type := store -> result (A * store).

Definition ret {A : Type} (a : A) : M A := fun h => Ok (a, h).

Definition bind {A B : Type} (m : M A) (k : A -> M B) : M B :=
  fun h =>
    match m h with
    | Ok (a, h') => k a h'
    | IndexError => IndexError
    | NonFinite => NonFinite
    end.

Notation "'run' x <- m ; k" := (bind m (fun x => k))
  (at level 10, x name, m at level 100, k at level 200,
   format "'[v' 'run'  x  <-  m ; '/' k ']'").

(** A computation that does not touch the store. *)
Definition lift {A : Type} (r : result A) : M A :=
  fun h =>
    match r with
    | Ok a => Ok (a, h)
    | IndexError => IndexError
    | NonFinite => NonFinite
    end.

Definition alloc (a : list R) : M ref := fun h => Ok (length h, h ++ [a]).

Definition load (r : ref) : M (list R) :=
  fun h =>
    match h !! r with
    | Some a => Ok (a, h)
    | None => IndexError
    end.

Definition store_at (r : ref) (a : list R) : M unit :=
  fun h => if (r <? length h)%nat then Ok (tt, <[r := a]> h) else IndexError.

Fixpoint for_each {A : Type} (xs : list A) (body : A -> M unit) : M unit :=
  match xs with
  | [] => ret tt
  | x :: rest => run _ <- body x; for_each rest body
  end.

Fixpoint repeat_n {St : Type} (n : nat) (body : St -> M St) (s : St) : M St :=
  match n with
  | O => ret s
  | S n' => run s' <- body s; repeat_n n' body s'
  end.

(** *** Wave states *)

Record State : Type := {
  pressure_ref : ref;
  flux_ref : ref
}.

(** The arrays built by the field defaults of the class. *)
Definition default_pressure : ref := 0%nat.
Definition default_flux : ref := 1%nat.

(** The store when the class [State] has just been defined. *)
Definition initial_store (env : Env) : store :=
  [zeros (num_faces env); zeros (num_edges env)].

(** [State()] *)
Definition State_default : M State :=
  ret {| pressure_ref := default_pressure; flux_ref := default_flux |}.

Definition copy (self : State) : M State :=
  run p <- load (pressure_ref self);
  run p' <- alloc p;
  run q <- load (flux_ref self);
  run q' <- alloc q;
  ret {| pressure_ref := p'; flux_ref := q' |}.

(** [State(pressure=f(self.pressure, other.pressure),
           flux=f(self.flux, other.flux))] *)
Definition combine (f : vec -> vec -> vec) (self other : State) : M State :=
  run a <- load (pressure_ref self);
  run b <- load (pressure_ref other);
  run p' <- alloc (f a b);
  run a <- load (flux_ref self);
  run b <- load (flux_ref other);
  run q' <- alloc (f a b);
  ret {| pressure_ref := p'; flux_ref := q' |}.

Definition add : State -> State -> M State := combine vadd.
Definition sub : State -> State -> M State := combine vsub.

Definition scaled (self : State) (s : R) : M State :=
  run a <- load (pressure_ref self);
  run p' <- alloc (vscale s a);
  run a <- load (flux_ref self);
  run q' <- alloc (vscale s a);
  ret {| pressure_ref := p'; flux_ref := q' |}.

Definition neg (self : State) : M State :=
  run a <- load (pressure_ref self);
  run p' <- alloc (vneg a);
  run a <- load (flux_ref self);
  run q' <- alloc (vneg a);
  ret {| pressure_ref := p'; flux_ref := q' |}.

Definition dot (self other : State) : M R :=
  run a <- load (pressure_ref self);
  run b <- load (pressure_ref other);
  run c <- load (flux_ref self);
  run e <- load (flux_ref other);
  ret (vdot a b + vdot c e).

Definition energy (self : State) : M R :=
  run x <- dot self self;
  ret (0.5 * x).

(** [a[i] = x] on the array at [r]. *)
Definition setitem_at (r : ref) (i : nat) (x : R) : M unit :=
  run a <- load r;
  run a' <- lift (setitem a i x);
  store_at r a'.

(** [a += b] on the array at [r]. *)
Definition iadd_at (r : ref) (b : list R) : M unit :=
  run a <- load r;
  store_at r (vadd a b).

(** [eval_inc_wave_everywhere] *)
Definition eval_inc_wave_everywhere (env : Env) (t : R) : M State :=
  run state <- State_default;
  run p <- load (pressure_ref state);
  run _ <- for_each (seq 0 (length p)) (fun vert_idx =>
             run c <- lift (getitem (circumcenter env) vert_idx);
             setitem_at (pressure_ref state) vert_idx (eval_inc_wave_pressure env t c));
  run q <- load (flux_ref state);
  run _ <- for_each (seq 0 (length q)) (fun edge_idx =>
             if bool_decide (edge_idx ∈ inner_bound_edges env) then ret tt
             else
               run verts <- lift (getitem (simplices env) edge_idx);
               run w <- lift (eval_inc_wave_flux env (t + 0.5 * dt env) verts);
               setitem_at (flux_ref state) edge_idx w);
  ret state.

(** *** The solvers *)

Record ForwardSolve : Type := {
  fwd_state : State;
  fwd_time : R
}.

Definition ForwardSolve_step (env : Env) (source_term_scaling : R -> R) (self : ForwardSolve)
  : M ForwardSolve :=
  let t1 := fwd_time self + dt env in
  run q <- load (flux_ref (fwd_state self));
  run _ <- iadd_at (pressure_ref (fwd_state self)) (matvec (p_step_mat env) q);
  let t_at_w := t1 + 0.5 * dt env in
  run p <- load (pressure_ref (fwd_state self));
  run _ <- iadd_at (flux_ref (fwd_state self)) (matvec (q_step_mat env) p);
  run _ <- for_each (inner_bound_edges env) (fun edge_idx =>
             run verts <- lift (getitem (simplices env) edge_idx);
             run w <- lift (eval_inc_wave_flux env t_at_w verts);
             setitem_at (flux_ref (fwd_state self)) edge_idx (source_term_scaling t_at_w * w));
  run _ <- for_each (zip (outer_bound_edges env) (outer_bound_infos env)) (fun item =>
             run pr <- load (pressure_ref (fwd_state self));
             run p <- lift (getitem pr (BoundaryEdgeInfo.dual_vert_idx (snd item)));
             setitem_at (flux_ref (fwd_state self)) (fst item)
               (- p * BoundaryEdgeInfo.length (snd item)
                * IZR (BoundaryEdgeInfo.orientation (snd item))));
  ret {| fwd_state := fwd_state self; fwd_time := t1 |}.

Record BackwardSolve : Type := {
  bwd_state : State
}.

Definition BackwardSolve_step (env : Env) (self : BackwardSolve) : M BackwardSolve :=
  run p <- load (pressure_ref (bwd_state self));
  run _ <- iadd_at (flux_ref (bwd_state self)) (matvec (p_step_mat_T env) p);
  run _ <- for_each (inner_bound_edges env) (fun edge_idx =>
             setitem_at (flux_ref (bwd_state self)) edge_idx 0);
  run _ <- for_each (zip (outer_bound_edges env) (outer_bound_infos env)) (fun item =>
             run pr <- load (pressure_ref (bwd_state self));
             run p <- lift (getitem pr (BoundaryEdgeInfo.dual_vert_idx (snd item)));
             setitem_at (flux_ref (bwd_state self)) (fst item)
               (p * BoundaryEdgeInfo.length (snd item)
                * IZR (BoundaryEdgeInfo.orientation (snd item))));
  run q <- load (flux_ref (bwd_state self));
  run _ <- iadd_at (pressure_ref (bwd_state self)) (matvec (q_step_mat_T env) q);
  ret {| bwd_state := bwd_state self |}.

(** *** The gradient and the control energy *)

Record GradientResult : Type := {
  gradient : State;
  forward_diff : State
}.

Definition compute_cost_gradient (env : Env) (initial_state : State) (use_source_terms : bool)
  : M GradientResult :=
  run s <- copy initial_state;
  let sim_fwd := {| fwd_state := s; fwd_time := 0 |} in
  let source_scaling := if use_source_terms then (fun _ : R => 1) else (fun _ : R => 0) in
  run sim_fwd <- repeat_n (steps_per_period env) (ForwardSolve_step env source_scaling) sim_fwd;
  let final_state := fwd_state sim_fwd in
  run fwd_diff <- sub final_state initial_state;
  run dq <- load (flux_ref fwd_diff);
  run bwd_init_q <- alloc (vneg dq);
  run bq <- load bwd_init_q;
  run dp <- load (pressure_ref fwd_diff);
  run bwd_init_p <- alloc (vsub (matvec (q_step_mat_T env) bq) dp);
  let bwd_init_state := {| flux_ref := bwd_init_q; pressure_ref := bwd_init_p |} in
  run s <- copy bwd_init_state;
  let sim_bwd := {| bwd_state := s |} in
  run sim_bwd <- repeat_n (steps_per_period env - 1) (BackwardSolve_step env) sim_bwd;
  run bp <- load (pressure_ref (bwd_state sim_bwd));
  run fp <- alloc (vneg bp);
  run bq <- load (flux_ref (bwd_state sim_bwd));
  run bp <- load (pressure_ref (bwd_state sim_bwd));
  run fq <- alloc (vsub (vneg bq) (matvec (p_step_mat_T env) bp));
  let final_bwd_state := {| pressure_ref := fp; flux_ref := fq |} in
  run g <- sub final_bwd_state fwd_diff;
  ret {| gradient := g; forward_diff := fwd_diff |}.

Definition compute_control_energy (env : Env) (state : State) : M R :=
  run s <- copy state;
  let period_sim := {| fwd_state := s; fwd_time := 0 |} in
  run period_sim <- repeat_n (steps_per_period env) (ForwardSolve_step env (fun _ => 1))
                      period_sim;
  run diff <- sub (fwd_state period_sim) state;
  energy diff.

End Store.

(** The arrays a state of the store layer refers to, as a state of the
    value layer. *)
Definition value_of (h : list (list R)) (s : Store.State) : option State :=
  match h !! Store.pressure_ref s, h !! Store.flux_ref s with
  | Some p, Some q => Some {| pressure := p; flux := q |}
  | _, _ => None
  end.

(** ** Well-formed meshes and states

    What pydec and the mesh generator guarantee about their data: the
    shapes of the operators, and edge, face and vertex indices that exist. *)

Record wf_env (env : Env) : Prop := {
  wf_d_rows : length (d env) = num_faces env;
  wf_d_cols : Forall (fun row => length row = num_edges env) (d env);
  wf_star2 : length (star2 env) = num_faces env;
  wf_star1_inv : length (star1_inv env) = num_edges env;
  wf_simplices : length (simplices env) = num_edges env;
  wf_vertices :
    Forall (fun e => (fst e < length (vertices env))%nat /\ (snd e < length (vertices env))%nat)
      (simplices env);
  wf_inner : Forall (fun e => (e < num_edges env)%nat) (inner_bound_edges env);
  wf_outer : Forall (fun e => (e < num_edges env)%nat) (outer_bound_edges env);
  wf_infos :
    Forall (fun i => (BoundaryEdgeInfo.dual_vert_idx i < num_faces env)%nat)
      (outer_bound_infos env)
}.

(** A wave state of the mesh: pressure per face, flux per edge. *)
Definition wf_state (env : Env) (s : State) : Prop :=
  length (pressure s) = num_faces env /\ length (flux s) = num_edges env.

(** ** The two steps as the specification words them

    The steps of sections 4.2 and 4.3 of the specification, one whole-array
    statement after the other, to be compared with [ForwardSolve.step] and
    [BackwardSolve.step]. *)

(** Overwrite [a] at the index [key x] with [val x], for every [x] of [xs]
    in turn. *)
Definition overwrite {X : Type} (key : X -> nat) (val : X -> R) (xs : list X) (a : vec)
  : vec :=
  fold_left (fun a x => <[key x := val x]> a) xs a.

(** The last [x] of [xs] whose index is [j]: the one whose value stays. *)
Fixpoint last_with {X : Type} (key : X -> nat) (j : nat) (xs : list X) : option X :=
  match xs with
  | [] => None
  | x :: rest =>
      match last_with key j rest with
      | Some y => Some y
      | None => if (key x =? j)%nat then Some x else None
      end
  end.

(** The closed form of the flux of the incoming wave over the edge from
    [p0] to [p1], with its limit where the wave vector is (nearly)
    perpendicular to the edge. *)
Definition inc_wave_flux_formula (env : Env) (t : R) (p0 p1 : R * R) : R :=
  let kdotp := dot2 (inc_wave_vector env) p0 in
  let l := (fst p1 - fst p0, snd p1 - snd p0) in
  let kdotl := dot2 (inc_wave_vector env) l in
  let kdotn := dot2 (inc_wave_vector env) (snd l, - fst l) in
  let wave_angle := inc_angular_vel env * t in
  if Rlt_dec (Rabs kdotl) 1e-5 then - kdotn * sin (wave_angle - kdotp)
  else (kdotn / kdotl) * (cos (wave_angle - kdotp) - cos (wave_angle - kdotp - kdotl)).

(** [incoming_wave_flux(t, edge)] *)
Definition incoming_wave_flux (env : Env) (t : R) (edge_idx : nat) : R :=
  match simplices env !! edge_idx with
  | Some (v0, v1) =>
      match vertices env !! v0, vertices env !! v1 with
      | Some p0, Some p1 => inc_wave_flux_formula env t p0 p1
      | _, _ => 0
      end
  | None => 0
  end.

(** [sign * pressure[adjacent_face] * length * orientation] *)
Definition absorbing_flux (sign : R) (pressure : vec) (item : nat * BoundaryEdgeInfo.t) : R :=
  sign * nth (BoundaryEdgeInfo.dual_vert_idx (snd item)) pressure 0
    * BoundaryEdgeInfo.length (snd item) * IZR (BoundaryEdgeInfo.orientation (snd item)).

Definition spec_forward_step (env : Env) (source_scaling : R -> R) (self : ForwardSolve.t)
  : ForwardSolve.t :=
  let t1 := ForwardSolve.time self + dt env in
  let pressure1 := vadd (pressure (ForwardSolve.state self))
                        (matvec (p_step_mat env) (flux (ForwardSolve.state self))) in
  let t_half := t1 + 0.5 * dt env in
  let flux1 := vadd (flux (ForwardSolve.state self)) (matvec (q_step_mat env) pressure1) in
  let flux2 := overwrite (fun e => e) (fun e => source_scaling t_half * incoming_wave_flux env t_half e)
                 (inner_bound_edges env) flux1 in
  let flux3 := overwrite fst (absorbing_flux (-1) pressure1)
                 (zip (outer_bound_edges env) (outer_bound_infos env)) flux2 in
  {| ForwardSolve.state := {| pressure := pressure1; flux := flux3 |};
     ForwardSolve.time := t1 |}.

Definition spec_backward_step (env : Env) (self : BackwardSolve.t) : BackwardSolve.t :=
  let pressure0 := pressure (BackwardSolve.state self) in
  let flux1 := vadd (flux (BackwardSolve.state self)) (matvec (p_step_mat_T env) pressure0) in
  let flux2 := overwrite (fun e => e) (fun _ => 0) (inner_bound_edges env) flux1 in
  let flux3 := overwrite fst (absorbing_flux 1 pressure0)
                 (zip (outer_bound_edges env) (outer_bound_infos env)) flux2 in
  let pressure1 := vadd pressure0 (matvec (q_step_mat_T env) flux3) in
  {| BackwardSolve.state := {| pressure := pressure1; flux := flux3 |} |}.

(** ** A small mesh

    The unit square cut into the two triangles (0,1,2) and (0,2,3): four
    vertices, the five edges (0,1) (0,2) (0,3) (1,2) (2,3) and two faces.
    The four sides are the outer boundary; the diagonal is labelled as
    inner boundary.  The parameters are those of the source. *)

Definition square_env : Env := {|
  num_faces := 2;
  num_edges := 5;
  d := [[1; -1; 0; 1; 0]; [0; 1; -1; 0; 1]]%Z;
  star2 := [2; 2];
  star1_inv := [1; 1; 1; 1; 1];
  vertices := [(0, 0); (1, 0); (1, 1); (0, 1)];
  simplices := [(0, 1); (0, 2); (0, 3); (1, 2); (2, 3)]%nat;
  circumcenter := [(0.5, 0.5); (0.5, 0.5)];
  inner_bound_edges := [1%nat];
  outer_bound_edges := [0; 2; 3; 4]%nat;
  outer_bound_infos :=
    [ {| BoundaryEdgeInfo.dual_vert_idx := 0; BoundaryEdgeInfo.length := 1;
         BoundaryEdgeInfo.orientation := 1 |};
      {| BoundaryEdgeInfo.dual_vert_idx := 1; BoundaryEdgeInfo.length := 1;
         BoundaryEdgeInfo.orientation := -1 |};
      {| BoundaryEdgeInfo.dual_vert_idx := 0; BoundaryEdgeInfo.length := 1;
         BoundaryEdgeInfo.orientation := 1 |};
      {| BoundaryEdgeInfo.dual_vert_idx := 1; BoundaryEdgeInfo.length := 1;
         BoundaryEdgeInfo.orientation := 1 |} ];
  inc_wavenumber := 1;
  arg_inc_angle := 90;
  inc_angular_vel := 2;
  dt := PI / 120;
  steps_per_period := 120;
  max_iters := 50
|}.

(** The same mesh with the diagonal as the only boundary: no outer boundary. *)
Definition interior_env : Env := {|
  num_faces := num_faces square_env;
  num_edges := num_edges square_env;
  d := d square_env;
  star2 := star2 square_env;
  star1_inv := star1_inv square_env;
  vertices := vertices square_env;
  simplices := simplices square_env;
  circumcenter := circumcenter square_env;
  inner_bound_edges := inner_bound_edges square_env;
  outer_bound_edges := [];
  outer_bound_infos := [];
  inc_wavenumber := inc_wavenumber square_env;
  arg_inc_angle := arg_inc_angle square_env;
  inc_angular_vel := inc_angular_vel square_env;
  dt := dt square_env;
  steps_per_period := steps_per_period square_env;
  max_iters := max_iters square_env
|}.

(** The square mesh without a scatterer: no inner boundary edge. *)
Definition no_scatterer_env : Env := {|
  num_faces := num_faces square_env;
  num_edges := num_edges square_env;
  d := d square_env;
  star2 := star2 square_env;
  star1_inv := star1_inv square_env;
  vertices := vertices square_env;
  simplices := simplices square_env;
  circumcenter := circumcenter square_env;
  inner_bound_edges := [];
  outer_bound_edges := outer_bound_edges square_env;
  outer_bound_infos := outer_bound_infos square_env;
  inc_wavenumber := inc_wavenumber square_env;
  arg_inc_angle := arg_inc_angle square_env;
  inc_angular_vel := inc_angular_vel square_env;
  dt := dt square_env;
  steps_per_period := steps_per_period square_env;
  max_iters := max_iters square_env
|}.

(** The state with pressure 1 on the first face and nothing else. *)
Definition unit_pressure_state : State :=
  {| pressure := [1; 0]; flux := [0; 0; 0; 0; 0] |}.

(** The square mesh with its lower side as the only outer boundary edge, and
    a state that is zero on that side and on its face. *)
Definition one_outer_env : Env := {|
  num_faces := num_faces square_env;
  num_edges := num_edges square_env;
  d := d square_env;
  star2 := star2 square_env;
  star1_inv := star1_inv square_env;
  vertices := vertices square_env;
  simplices := simplices square_env;
  circumcenter := circumcenter square_env;
  inner_bound_edges := inner_bound_edges square_env;
  outer_bound_edges := [0%nat];
  outer_bound_infos :=
    [ {| BoundaryEdgeInfo.dual_vert_idx := 0; BoundaryEdgeInfo.length := 1;
         BoundaryEdgeInfo.orientation := 1 |} ];
  inc_wavenumber := inc_wavenumber square_env;
  arg_inc_angle := arg_inc_angle square_env;
  inc_angular_vel := inc_angular_vel square_env;
  dt := dt square_env;
  steps_per_period := steps_per_period square_env;
  max_iters := max_iters square_env
|}.

Definition far_state : State :=
  {| pressure := [0; 1]; flux := [0; 1; 1; 1; 1] |}.

(** ** The staggered state

    The forward step leaves the pressure at the time [t] and the flux half a
    step later; [staggered] brings the pressure half a step further with
    the pressure update [pressure += P * flux] of the forward step. *)

Definition staggered (env : Env) (s : State) : State :=
  {| pressure := vadd (pressure s) (matvec (p_step_mat env) (flux s));
     flux := flux s |}.

(** ** The gradient evaluation as the specification words it *)

(** [runs step n s s']: [n] steps, no more and no less, lead from [s] to [s']. *)
Inductive runs {St : Type} (step : St -> result St) : nat -> St -> St -> Prop :=
| runs_O (s : St) : runs step 0 s s
| runs_S (n : nat) (s s' s'' : St) :
    step s = Ok s' -> runs step n s' s'' -> runs step (S n) s s''.

(** Section 4.4, steps 1 to 6. *)
Definition spec_cost_gradient (env : Env) (initial_state : State) (use_source_terms : bool)
  (r : GradientResult) : Prop :=
  exists (fwd : ForwardSolve.t) (bwd : BackwardSolve.t),
    runs (ForwardSolve.step env (fun _ => if use_source_terms then 1 else 0))
      (steps_per_period env)
      {| ForwardSolve.state := initial_state; ForwardSolve.time := 0 |} fwd /\
    let forward_diff := sub (ForwardSolve.state fwd) initial_state in
    let flux0 := vneg (flux forward_diff) in
    let pressure0 := vsub (matvec (q_step_mat_T env) flux0) (pressure forward_diff) in
    runs (BackwardSolve.step env) (steps_per_period env - 1)
      {| BackwardSolve.state := {| pressure := pressure0; flux := flux0 |} |} bwd /\
    let final_bwd :=
      {| pressure := vneg (pressure (BackwardSolve.state bwd));
         flux := vsub (vneg (flux (BackwardSolve.state bwd)))
                      (matvec (p_step_mat_T env) (pressure (BackwardSolve.state bwd))) |} in
    r = {| gradient := sub final_bwd forward_diff; forward_diff := forward_diff |}.

(** ** The conjugate gradient iteration as the specification words it *)

(** Section 4.5, steps 3 and 4: the classical formulas, with the squared
    norm of the residual computed from the residual itself. *)
Definition spec_cg_iteration (env : Env) (st st' : CG) : Prop :=
  exists (g : GradientResult) (e : R),
    compute_cost_gradient env (search_dir st) false = Ok g /\
    let Aw := gradient g in
    let rr := dot (residual st) (residual st) in
    dot Aw (search_dir st) <> 0 /\ rr <> 0 /\
    let alpha := rr / dot Aw (search_dir st) in
    let guess' := add (approx_solution st) (scaled (search_dir st) alpha) in
    let residual' := sub (residual st) (scaled Aw alpha) in
    let rr' := dot residual' residual' in
    let beta := rr' / rr in
    let search_dir' := add residual' (scaled (search_dir st) beta) in
    compute_control_energy env guess' = Ok e /\
    st' = {| approx_solution := guess';
             residual := residual';
             initial_resid_norm_sq := initial_resid_norm_sq st;
             resid_norm_sq := rr';
             search_dir := search_dir';
             control_energies := control_energies st ++ [e];
             resid_norms := resid_norms st ++ [sqrt rr'];
             a_inner_prods := a_inner_prods st ++ [dot Aw search_dir'];
             step_count := S (step_count st) |}.

(** Section 4.5, step 5: the loop of at most [n] iterations from [st0]
    stops after [k] iterations in the state [st]. *)
Definition stops_after (env : Env) (st0 : CG) (n k : nat) (st : CG) : Prop :=
  (k <= n)%nat /\
  repeat_n k (cg_body env) st0 = Ok st /\
  (forall j sj, (0 < j < k)%nat -> repeat_n j (cg_body env) st0 = Ok sj ->
                converged sj = Ok false) /\
  (k = 0%nat /\ n = 0%nat \/
   (0 < k)%nat /\ (converged st = Ok true \/ k = n /\ converged st = Ok false)).

(** ** A mesh of one triangle

    The triangle (0,1,2) alone, with no edge labelled as boundary, a time
    step of 1 and a period of one step: small enough to run the
    optimisation by hand. *)
Definition triangle_env : Env := {|
  num_faces := 1;
  num_edges := 3;
  d := [[1; -1; 1]]%Z;
  star2 := [2];
  star1_inv := [1; 1; 1];
  vertices := [(0, 0); (1, 0); (0, 1)];
  simplices := [(0, 1); (0, 2); (1, 2)]%nat;
  circumcenter := [(0.5, 0.5)];
  inner_bound_edges := [];
  outer_bound_edges := [];
  outer_bound_infos := [];
  inc_wavenumber := 1;
  arg_inc_angle := 90;
  inc_angular_vel := 2;
  dt := 1;
  steps_per_period := 1;
  max_iters := 1
|}.

Definition triangle_state : State := {| pressure := [1]; flux := [0; 0; 0] |}.

(** The optimisation variables on the triangle mesh before the loop and
    after its first iteration, worked out by hand. *)
Definition triangle_cg0 : CG := {|
  approx_solution := triangle_state;
  residual := {| pressure := [-3]; flux := [-6; 6; -6] |};
  initial_resid_norm_sq := 117;
  resid_norm_sq := 117;
  search_dir := {| pressure := [-3]; flux := [-6; 6; -6] |};
  control_energies := [3 / 2];
  resid_norms := [sqrt 117];
  a_inner_prods := [0];
  step_count := 0
|}.

Definition triangle_cg1 : CG := {|
  approx_solution :=
    {| pressure := [204 / 217]; flux := [-26 / 217; 26 / 217; -26 / 217] |};
  residual := {| pressure := [-144 / 217]; flux := [24 / 217; -24 / 217; 24 / 217] |};
  initial_resid_norm_sq := 117;
  resid_norm_sq := 22464 / 47089;
  search_dir :=
    {| pressure := [-31824 / 47089];
       flux := [4056 / 47089; -4056 / 47089; 4056 / 47089] |};
  control_energies := [3 / 2; 72 / 217];
  resid_norms := [sqrt 117; sqrt (22464 / 47089)];
  a_inner_prods := [0; 0];
  step_count := 1
|}.

(** A store of the square mesh: the two default arrays of the class and
    the arrays of the state of pressure 1 on the first face. *)
Definition square_store : list (list R) :=
  Store.initial_store square_env ++ [pressure unit_pressure_state; flux unit_pressure_state].

Definition square_state_ref : Store.State :=
  {| Store.pressure_ref := 2; Store.flux_ref := 3 |}.

(** The store of the square mesh after the first call
    [eval_inc_wave_everywhere(dt)] of the animation: the two default arrays
    of the class hold the incoming wave. *)
Definition store_after_wave : list (list R) :=
  let t := dt square_env in
  let t_half := t + 0.5 * dt square_env in
  [ [eval_inc_wave_pressure square_env t (0.5, 0.5);
     eval_inc_wave_pressure square_env t (0.5, 0.5)];
    [inc_wave_flux_formula square_env t_half (0, 0) (1, 0);
     0;
     inc_wave_flux_formula square_env t_half (0, 0) (0, 1);
     inc_wave_flux_formula square_env t_half (1, 0) (1, 1);
     inc_wave_flux_formula square_env t_half (1, 1) (0, 1)] ].

(** Evaluation of a concrete computation on the store, leaving the incoming
    wave and the real arithmetic in place. *)
Ltac eval_store :=
  cbn -[eval_inc_wave_flux eval_inc_wave_pressure inc_wave_flux_formula
        Rplus Rmult Rminus Ropp Rdiv Rinv IZR PI sin cos sqrt Rlt_dec Rabs Req_dec_T].

(** [A[i, j] = x] *)
Definition is_entry (A : matrix) (i j : nat) (x : R) : Prop :=
  exists row, A !! i = Some row /\ row !! j = Some x.

(** Evaluation of the list structure of a concrete computation, leaving the
    real arithmetic in place. *)
Ltac eval_reals :=
  cbv -[Rplus Rmult Rminus Ropp Rdiv Rinv IZR PI sin cos sqrt Rlt_dec Rabs Req_dec_T].

(** Equality of two outcomes, component by component. *)
Ltac struct_eq :=
  repeat match goal with
  | |- Ok _ = Ok _ => apply f_equal
  | |- @eq (list R) (_ :: _) (_ :: _) => apply f_equal2
  | |- @eq (list R) [] [] => reflexivity
  | |- @eq State _ _ => apply f_equal2
  | |- @eq GradientResult _ _ => apply f_equal2
  | |- @eq CG _ _ => f_equal
  | |- @eq nat _ _ => reflexivity
  | |- sqrt _ = sqrt _ => apply f_equal
  end.

(** ** The rest of the script: Python exceptions

    The statements of the script outside the solvers can raise: an [assert],
    a division of Python floats by zero, an index outside a list. *)

Inductive exn : Type :=
| ExnIndexError
| ExnAssertionError
| ExnZeroDivisionError.

Inductive py (A : Type) : Type :=
| Returns (a : A)
| Raises (e : exn).

Arguments Returns {A} a.
Arguments Raises {A} e.

Definition py_bind {A B : Type} (m : py A) (k : A -> py B) : py B :=
  match m with
  | Returns a => k a
  | Raises e => Raises e
  end.

Notation "'exec' x <- m ; k" := (py_bind m (fun x => k))
  (at level 10, x name, m at level 100, k at level 200,
   format "'[v' 'exec'  x  <-  m ; '/' k ']'").

(** [l[i]] on a list or an array. *)
Definition py_getitem {A : Type} (l : list A) (i : nat) : py A :=
  match l !! i with
  | Some x => Returns x
  | None => Raises ExnIndexError
  end.

(** [x / y] on Python floats. *)
Definition py_div (x y : R) : py R :=
  if Req_dec_T y 0 then Raises ExnZeroDivisionError else Returns (x / y).

(** [[f(x) for x in xs]], also the loop that appends [f(x)] to a list. *)
Fixpoint py_map {A B : Type} (f : A -> py B) (xs : list A) : py (list B) :=
  match xs with
  | [] => Returns []
  | x :: rest =>
      exec y <- f x;
      exec ys <- py_map f rest;
      Returns (y :: ys)
  end.

(** ** The boundary edge records

    The loop of the script that finds, for each outer boundary edge, the
    triangle it is part of. *)

(** [cmp_complex[1].d[:, edge_idx]]: the column of the incidence matrix. *)
Definition d_column (env : Env) (edge_idx : nat) : py (list Z) :=
  if (edge_idx <? num_edges env)%nat
  then Returns (map (fun row => nth edge_idx row 0%Z) (d env))
  else Raises ExnIndexError.

(** [col.nonzero()[0]]: the row indices of the nonzero entries, from [i] on. *)
Fixpoint nonzero_from (i : nat) (col : list Z) : list nat :=
  match col with
  | [] => []
  | x :: rest =>
      if (x =? 0)%Z then nonzero_from (S i) rest else i :: nonzero_from (S i) rest
  end.

Definition nonzero (col : list Z) : list nat := nonzero_from 0 col.

(** The body of the loop for one edge. *)
Definition boundary_edge_info (env : Env) (edge_idx : nat) : py BoundaryEdgeInfo.t :=
  exec col <- d_column env edge_idx;
  let tri_indices := nonzero col in
  if (length tri_indices =? 1)%nat then
    exec verts <- py_getitem (simplices env) edge_idx;
    exec p0 <- py_getitem (vertices env) (fst verts);
    exec p1 <- py_getitem (vertices env) (snd verts);
    exec tri <- py_getitem tri_indices 0;
    exec orient <- py_getitem col tri;
    Returns {| BoundaryEdgeInfo.dual_vert_idx := tri;
               BoundaryEdgeInfo.orientation := orient;
               BoundaryEdgeInfo.length :=
                 sqrt ((fst p1 - fst p0) ^ 2 + (snd p1 - snd p0) ^ 2) |}
  else Raises ExnAssertionError.

Definition compute_outer_bound_infos (env : Env) : py (list BoundaryEdgeInfo.t) :=
  py_map (boundary_edge_info env) (outer_bound_edges env).

(** The data of the complex alone, without the boundary edge records. *)
Record wf_complex (env : Env) : Prop := {
  wfc_d_rows : length (d env) = num_faces env;
  wfc_d_cols : Forall (fun row => length row = num_edges env) (d env);
  wfc_star2 : length (star2 env) = num_faces env;
  wfc_star1_inv : length (star1_inv env) = num_edges env;
  wfc_simplices : length (simplices env) = num_edges env;
  wfc_vertices :
    Forall (fun e => (fst e < length (vertices env))%nat /\ (snd e < length (vertices env))%nat)
      (simplices env);
  wfc_inner : Forall (fun e => (e < num_edges env)%nat) (inner_bound_edges env);
  wfc_outer : Forall (fun e => (e < num_edges env)%nat) (outer_bound_edges env)
}.

(** The incidence of face [i] and edge [e]. *)
Definition incidence (env : Env) (i e : nat) : Z := nth e (nth i (d env) []) 0%Z.

(** The edge [e] is part of the face [i] and of no other face. *)
Definition only_face (env : Env) (e i : nat) : Prop :=
  (i < num_faces env)%nat /\ incidence env i e <> 0%Z /\
  forall j, (j < num_faces env)%nat -> incidence env j e <> 0%Z -> j = i.

(** The state [v] is zero on every edge of the outer boundary, on the face
    that the record of the edge names and on every face the edge is part of
    (on the meshes of the program these are one face,
    [outer_bound_infos_extracted]). *)
Definition vanishes_on_outer (env : Env) (v : State) : Prop :=
  forall k e info,
    outer_bound_edges env !! k = Some e -> outer_bound_infos env !! k = Some info ->
    nth e (flux v) 0 = 0 /\
    nth (BoundaryEdgeInfo.dual_vert_idx info) (pressure v) 0 = 0 /\
    forall i, incidence env i e <> 0%Z -> nth i (pressure v) 0 = 0.

(** Two states of the same shapes, on which the whole-array operations of
    numpy are defined. *)
Definition same_shape (a b : State) : Prop :=
  length (pressure a) = length (pressure b) /\ length (flux a) = length (flux b).

(** ** Easing in the source terms

    [transition_time = 5 * wave_period]; [t / transition_time] is a division
    of Python floats. *)
Definition transition_time (env : Env) : R := 5 * wave_period env.

Definition easing (env : Env) (t : R) : py R :=
  exec x <- py_div t (transition_time env);
  let sin_val := sin (x * (PI / 2)) in
  Returns ((2 - sin_val) * sin_val).

(** ** The gradient evaluation in closed form

    The two states that [compute_cost_gradient] builds between its loops, as
    functions of what they are built from, and the whole evaluation on arrays
    of the sizes of the mesh, where no index is out of range
    ([compute_cost_gradient_closed] below). *)
Definition bwd_init_state (env : Env) (fwd_diff : State) : State :=
  let bwd_init_q := vneg (flux fwd_diff) in
  {| flux := bwd_init_q;
     pressure := vsub (matvec (q_step_mat_T env) bwd_init_q) (pressure fwd_diff) |}.

Definition final_bwd_state (env : Env) (s : State) : State :=
  {| pressure := vneg (pressure s);
     flux := vsub (vneg (flux s)) (matvec (p_step_mat_T env) (pressure s)) |}.

Definition source_scaling (use_source_terms : bool) : R -> R :=
  if use_source_terms then (fun _ : R => 1) else (fun _ : R => 0).

Definition forward_period (env : Env) (src : R -> R) (s : State) : State :=
  ForwardSolve.state
    (Nat.iter (steps_per_period env) (spec_forward_step env src)
       {| ForwardSolve.state := s; ForwardSolve.time := 0 |}).

Definition gradient_closed (env : Env) (initial_state : State) (use_source_terms : bool)
  : GradientResult :=
  let fwd_diff :=
    sub (forward_period env (source_scaling use_source_terms) initial_state) initial_state in
  let sim_bwd :=
    Nat.iter (steps_per_period env - 1) (spec_backward_step env)
      {| BackwardSolve.state := bwd_init_state env fwd_diff |} in
  {| gradient := sub (final_bwd_state env (BackwardSolve.state sim_bwd)) fwd_diff;
     forward_diff := fwd_diff |}.

(** What the optimisation keeps: the shapes of its three states, and the
    residual as the negated gradient at the approximate solution. *)
Definition cg_invariant (env : Env) (st : CG) : Prop :=
  wf_state env (approx_solution st) /\ wf_state env (residual st) /\
  wf_state env (search_dir st) /\
  residual st = neg (gradient (gradient_closed env (approx_solution st) true)).

(** What the measurements of the optimisation keep: one entry per
    iteration and one for the start, none negative where it is an energy or a
    norm, the last ones those of the current variables. *)
Definition cg_measured (env : Env) (st : CG) : Prop :=
  length (control_energies st) = S (step_count st) /\
  length (resid_norms st) = S (step_count st) /\
  length (a_inner_prods st) = S (step_count st) /\
  Forall (Rle 0) (control_energies st) /\
  Forall (Rle 0) (resid_norms st) /\
  (exists e, compute_control_energy env (approx_solution st) = Ok e /\
             last (control_energies st) = Some e) /\
  last (resid_norms st) = Some (sqrt (resid_norm_sq st)).

(** ** The reference forward solution

    The loop after the optimisation: [forward_energies] and
    [forward_state] are the two variables that it updates. *)
Definition reference_body (env : Env) (acc : list R * State) : result (list R * State) :=
  let forward_energies := fst acc in
  let forward_state := snd acc in
  let period_sim := {| ForwardSolve.state := copy forward_state; ForwardSolve.time := 0 |} in
  do period_sim <- repeat_n (steps_per_period env) (ForwardSolve.step env (fun _ => 1)) period_sim;
  Ok (forward_energies ++ [energy (sub (ForwardSolve.state period_sim) forward_state)],
      ForwardSolve.state period_sim).

Definition forward_reference (env : Env) (initial_state : State) (step_count : nat)
  : result (list R) :=
  do acc <- repeat_n (step_count + 1) (reference_body env) ([], copy initial_state);
  Ok (fst acc).

(** [m] returns, in the store [h], a state object of two new arrays that
    hold [v], and leaves every array of [h] as it was. *)
Definition allocates (h : list (list R)) (m : Store.M Store.State) (v : State) : Prop :=
  exists c h',
    m h = Ok (c, h') /\
    value_of h' c = Some v /\
    (length h <= Store.pressure_ref c)%nat /\ (length h <= Store.flux_ref c)%nat /\
    Store.pressure_ref c <> Store.flux_ref c /\
    forall l x, h !! l = Some x -> h' !! l = Some x.

(** * Properties *)

(** ** Outcomes *)

Lemma bind_Ok {A B : Type} (m : result A) (k : A -> result B) (b : B) :
  bind m k = Ok b <-> exists a, m = Ok a /\ k a = Ok b.
Proof.
  split.
  - destruct m as [a| |]; simpl; intros H; try discriminate. eauto.
  - intros (a & -> & H). exact H.
Qed.

Lemma getitem_Ok {A : Type} (a : list A) (i : nat) (x : A) :
  getitem a i = Ok x <-> a !! i = Some x.
Proof.
  unfold getitem. destruct (a !! i); split; intros H; congruence.
Qed.

Lemma setitem_lt {A : Type} (a : list A) (i : nat) (x : A) :
  (i < length a)%nat -> setitem a i x = Ok (<[i := x]> a).
Proof.
  intros H. unfold setitem. destruct (Nat.ltb_spec i (length a)); [done | lia].
Qed.

Lemma fdiv_Ok (x y r : R) : fdiv x y = Ok r <-> y <> 0 /\ r = x / y.
Proof.
  unfold fdiv. destruct (Req_dec_T y 0); split.
  - discriminate.
  - intros [? _]. contradiction.
  - intros [= <-]. done.
  - intros [_ ->]. done.
Qed.

Lemma fdiv_zero (x : R) : fdiv x 0 = NonFinite.
Proof. unfold fdiv. destruct (Req_dec_T 0 0); [done | contradiction]. Qed.

(** ** Arrays *)

Lemma length_vadd (a b : vec) : length (vadd a b) = Nat.min (length a) (length b).
Proof. apply length_zip_with. Qed.

Lemma length_vsub (a b : vec) : length (vsub a b) = Nat.min (length a) (length b).
Proof. apply length_zip_with. Qed.

Lemma length_vneg (a : vec) : length (vneg a) = length a.
Proof. apply length_map. Qed.

Lemma length_vscale (s : R) (a : vec) : length (vscale s a) = length a.
Proof. apply length_map. Qed.

Lemma length_matvec (A : matrix) (x : vec) : length (matvec A x) = length A.
Proof. apply length_map. Qed.

Lemma length_zeros (n : nat) : length (zeros n) = n.
Proof. apply repeat_length. Qed.

Lemma vdot_comm (a b : vec) : vdot a b = vdot b a.
Proof.
  revert b. induction a as [|x a IH]; intros [|y b]; simpl; try reflexivity.
  rewrite IH. ring.
Qed.

Lemma vdot_nil_r (a : vec) : vdot a [] = 0.
Proof. destruct a; reflexivity. Qed.

Lemma vdot_zeros_r (a : vec) (n : nat) : vdot a (zeros n) = 0.
Proof.
  revert n. induction a as [|x a IH]; intros [|n]; simpl; try reflexivity.
  unfold zeros in IH. rewrite IH. ring.
Qed.

Lemma vdot_vadd_r (a b c : vec) :
  length b = length c -> vdot a (vadd b c) = vdot a b + vdot a c.
Proof.
  revert b c. induction a as [|x a IH]; intros [|y b] [|z c]; simpl;
    intros H; try discriminate; try ring.
  unfold vadd in IH. rewrite IH by lia. ring.
Qed.

Lemma vdot_vadd_l (a b c : vec) :
  length a = length b -> vdot (vadd a b) c = vdot a c + vdot b c.
Proof.
  intros H. rewrite !(vdot_comm _ c). by apply vdot_vadd_r.
Qed.

Lemma vdot_vscale_r (s : R) (a b : vec) : vdot a (vscale s b) = s * vdot a b.
Proof.
  unfold vscale.
  revert b. induction a as [|x a IH]; intros [|y b]; simpl; try ring.
  rewrite IH. ring.
Qed.

Lemma matvec_zip_cons (x : R) (row a : vec) (cols : matrix) :
  length row = length cols ->
  matvec (zip_with cons row cols) (x :: a) = vadd (vscale x row) (matvec cols a).
Proof.
  unfold matvec, vadd, vscale.
  revert cols. induction row as [|r row IH]; intros [|c cols]; simpl;
    intros H; try discriminate; try reflexivity.
  rewrite IH by lia. f_equal. ring.
Qed.

(** Arrays are equal when their entries are. *)
Lemma vec_ext (a b : vec) :
  length a = length b ->
  (forall i, (i < length a)%nat -> nth i a 0 = nth i b 0) -> a = b.
Proof.
  revert b. induction a as [|x a IH]; intros [|y b] Hlen H; try discriminate; [done|].
  f_equal.
  - apply (H 0%nat). simpl. lia.
  - apply IH; [simpl in Hlen; lia|]. intros i Hi. apply (H (S i)). simpl. lia.
Qed.

Lemma nth_vadd (a b : vec) (i : nat) :
  length a = length b -> nth i (vadd a b) 0 = nth i a 0 + nth i b 0.
Proof.
  revert b i. induction a as [|x a IH]; intros [|y b] i H; try discriminate.
  - destruct i; simpl; ring.
  - destruct i; [done|]. simpl. apply IH. simpl in H. lia.
Qed.

Lemma nth_vsub (a b : vec) (i : nat) :
  length a = length b -> nth i (vsub a b) 0 = nth i a 0 - nth i b 0.
Proof.
  revert b i. induction a as [|x a IH]; intros [|y b] i H; try discriminate.
  - destruct i; simpl; ring.
  - destruct i; [done|]. simpl. apply IH. simpl in H. lia.
Qed.

Lemma nth_vneg (a : vec) (i : nat) : nth i (vneg a) 0 = - nth i a 0.
Proof.
  revert i. induction a as [|x a IH]; intros [|i]; simpl; try ring; try done; try apply IH.
Qed.

Lemma nth_vscale (s : R) (a : vec) (i : nat) : nth i (vscale s a) 0 = s * nth i a 0.
Proof.
  revert i. induction a as [|x a IH]; intros [|i]; simpl; try ring; try done; try apply IH.
Qed.

Lemma nth_matvec (A : matrix) (x : vec) (i : nat) :
  nth i (matvec A x) 0 = vdot (nth i A []) x.
Proof.
  revert i. induction A as [|row A IH]; intros [|i]; simpl; try done; try apply IH.
Qed.

(** ** Matrices *)

Lemma length_transpose {E : Type} (n : nat) (A : list (list E)) :
  Forall (fun row => length row = n) A -> length (transpose n A) = n.
Proof.
  induction 1 as [|row A Hrow _ IH]; simpl.
  - apply repeat_length.
  - rewrite length_zip_with, IH, Hrow. lia.
Qed.

Lemma transpose_rows {E : Type} (n : nat) (A : list (list E)) :
  Forall (fun col => length col = length A) (transpose n A).
Proof.
  induction A as [|row A IH]; simpl.
  - induction n; simpl; by constructor.
  - generalize dependent (transpose n A). intros cols IH. revert cols IH.
    induction row as [|r row IHrow]; intros [|c cols] H; simpl; try constructor.
    + simpl. f_equal. by inversion H.
    + apply IHrow. by inversion H.
Qed.

Lemma matvec_repeat_nil (n : nat) (y : vec) : matvec (repeat [] n) y = zeros n.
Proof. unfold matvec, zeros. induction n; simpl; [done | by f_equal]. Qed.

(** The transpose is the adjoint for [np.dot]. *)
Lemma matvec_adjoint (n : nat) (A : matrix) (x y : vec) :
  Forall (fun row => length row = n) A ->
  length y = length A ->
  vdot (matvec A x) y = vdot x (matvec (transpose n A) y).
Proof.
  intros HA. revert y. induction HA as [|row A Hrow HA IH]; intros y Hy.
  - destruct y; [|discriminate]. simpl.
    rewrite matvec_repeat_nil, vdot_zeros_r. reflexivity.
  - destruct y as [|yi y]; [discriminate|]. simpl in Hy.
    change (matvec (row :: A) x) with (vdot row x :: matvec A x).
    simpl. rewrite matvec_zip_cons; [|rewrite length_transpose; auto].
    rewrite vdot_vadd_r.
    + rewrite vdot_vscale_r, IH by lia. rewrite (vdot_comm x row). ring.
    + rewrite length_vscale, length_matvec, length_transpose; auto.
Qed.

Lemma length_scale_rows (s : R) (diag : vec) (A : list (list Z)) :
  length (scale_rows s diag A) = Nat.min (length diag) (length A).
Proof. apply length_zip_with. Qed.

Lemma scale_rows_cols (s : R) (diag : vec) (A : list (list Z)) (n : nat) :
  Forall (fun row => length row = n) A ->
  Forall (fun row => length row = n) (scale_rows s diag A).
Proof.
  intros HA. revert diag. induction HA as [|row A Hrow HA IH]; intros [|di diag];
    simpl; constructor.
  - by rewrite length_map.
  - apply IH.
Qed.

Lemma lookup_scale_rows (s : R) (diag : vec) (A : list (list Z)) (i : nat) :
  scale_rows s diag A !! i =
  match diag !! i, A !! i with
  | Some di, Some row => Some (map (fun e => s * di * IZR e) row)
  | _, _ => None
  end.
Proof.
  unfold scale_rows. rewrite lookup_zip_with.
  destruct (diag !! i); simpl; [|done]. destruct (A !! i); done.
Qed.

Lemma lookup_transpose {E : Type} (n : nat) (A : list (list E)) (i j : nat) (row : list E) (e : E) :
  Forall (fun row => length row = n) A ->
  A !! i = Some row -> row !! j = Some e ->
  exists col, transpose n A !! j = Some col /\ col !! i = Some e.
Proof.
  intros HA Hi Hj.
  assert (Hjn : (j < n)%nat).
  { apply lookup_lt_Some in Hj. by rewrite <- (Forall_lookup_1 _ _ _ _ HA Hi). }
  revert i Hi. induction HA as [|r A Hr HA IH]; intros i Hi; [done|].
  simpl. rewrite lookup_zip_with.
  destruct (lookup_lt_is_Some_2 r j ltac:(lia)) as [rj Hrj].
  destruct (lookup_lt_is_Some_2 (transpose n A) j) as [col Hcol].
  { rewrite length_transpose; auto. }
  rewrite Hrj, Hcol. simpl. eexists; split; [reflexivity|].
  destruct i as [|i]; simpl in *.
  - congruence.
  - destruct (IH i Hi) as (col' & Hcol' & He). congruence.
Qed.

(** The shapes of the step matrices. *)
Lemma wf_p_step_mat (env : Env) :
  wf_env env ->
  length (p_step_mat env) = num_faces env /\
  Forall (fun row => length row = num_edges env) (p_step_mat env).
Proof.
  intros H. unfold p_step_mat. split.
  - rewrite length_scale_rows, (wf_star2 _ H), (wf_d_rows _ H). lia.
  - apply scale_rows_cols, (wf_d_cols _ H).
Qed.

Lemma wf_q_step_mat (env : Env) :
  wf_env env ->
  length (q_step_mat env) = num_edges env /\
  Forall (fun row => length row = num_faces env) (q_step_mat env).
Proof.
  intros H. unfold q_step_mat. split.
  - rewrite length_scale_rows, (wf_star1_inv _ H), length_transpose by apply (wf_d_cols _ H).
    lia.
  - apply scale_rows_cols. rewrite <- (wf_d_rows _ H). apply transpose_rows.
Qed.

Lemma length_p_step_mat_T (env : Env) :
  wf_env env -> length (p_step_mat_T env) = num_edges env.
Proof. intros H. apply length_transpose, (wf_p_step_mat _ H). Qed.

Lemma length_q_step_mat_T (env : Env) :
  wf_env env -> length (q_step_mat_T env) = num_faces env.
Proof. intros H. apply length_transpose, (wf_q_step_mat _ H). Qed.

(** ** Loops of element assignments *)

Lemma length_overwrite {X : Type} (key : X -> nat) (val : X -> R) (xs : list X) (a : vec) :
  length (overwrite key val xs a) = length a.
Proof.
  unfold overwrite. revert a. induction xs as [|x xs IH]; intros a; simpl; [done|].
  by rewrite IH, length_insert.
Qed.

Lemma for_each_overwrite {X : Type} (key : X -> nat) (val : X -> R)
    (body : X -> vec -> result vec) (n : nat) (xs : list X) (a : vec) :
  Forall (fun x => forall a, length a = n -> body x a = Ok (<[key x := val x]> a)) xs ->
  length a = n ->
  for_each xs body a = Ok (overwrite key val xs a).
Proof.
  intros Hxs. revert a. induction Hxs as [|x xs Hx _ IH]; intros a Ha; simpl; [done|].
  rewrite (Hx a Ha). simpl. apply IH. by rewrite length_insert.
Qed.

Lemma lookup_overwrite {X : Type} (key : X -> nat) (val : X -> R) (xs : list X) (a : vec)
    (j : nat) :
  (j < length a)%nat ->
  overwrite key val xs a !! j =
  match last_with key j xs with
  | Some x => Some (val x)
  | None => a !! j
  end.
Proof.
  unfold overwrite. revert a. induction xs as [|x xs IH]; intros a Hj; simpl; [done|].
  rewrite IH by (by rewrite length_insert).
  destruct (last_with key j xs); [done|].
  destruct (Nat.eqb_spec (key x) j) as [->|Hne].
  - by apply list_lookup_insert_eq.
  - by apply list_lookup_insert_ne.
Qed.

Lemma last_with_key {X : Type} (key : X -> nat) (j : nat) (xs : list X) (x : X) :
  last_with key j xs = Some x -> x ∈ xs /\ key x = j.
Proof.
  induction xs as [|y xs IH]; simpl; [done|].
  destruct (last_with key j xs) as [z|].
  - intros [= ->]. destruct (IH eq_refl). split; [by right | done].
  - destruct (Nat.eqb_spec (key y) j); [|done].
    intros [= ->]. split; [by left | done].
Qed.

Lemma last_with_None {X : Type} (key : X -> nat) (j : nat) (xs : list X) :
  last_with key j xs = None <-> forall x, x ∈ xs -> key x <> j.
Proof.
  induction xs as [|y xs IH]; simpl.
  - split; [|done]. intros _ x Hx. by apply elem_of_nil in Hx.
  - destruct (last_with key j xs) as [z|] eqn:Hz.
    + split; [done|]. intros H. apply last_with_key in Hz as [Hz1 Hz2].
      exfalso. apply (H z); [by right | done].
    + destruct (Nat.eqb_spec (key y) j) as [Heq|Hne].
      * split; [done|]. intros H. exfalso. apply (H y); [by left | done].
      * split; [|done]. intros _ x Hx. apply elem_of_cons in Hx as [->|Hx]; [done|].
        by apply (proj1 IH).
Qed.

(** ** The incoming wave *)

(** The edge-flux evaluation never divides by zero: it divides only by a
    [kdotl] of magnitude at least [1e-5]. *)
Lemma eval_inc_wave_flux_value (env : Env) (t : R) (v0 v1 : nat) (p0 p1 : R * R) :
  vertices env !! v0 = Some p0 -> vertices env !! v1 = Some p1 ->
  eval_inc_wave_flux env t (v0, v1) = Ok (inc_wave_flux_formula env t p0 p1).
Proof.
  intros H0 H1. unfold eval_inc_wave_flux, inc_wave_flux_formula. simpl fst. simpl snd.
  apply getitem_Ok in H0, H1. rewrite H0, H1. simpl.
  destruct (Rlt_dec _ _) as [Hlt|Hge]; [reflexivity|].
  unfold fdiv. destruct (Req_dec_T _ _) as [Hz|Hnz]; [|reflexivity].
  exfalso. apply Hge. rewrite Hz, Rabs_R0. lra.
Qed.

Lemma eval_inc_wave_flux_edge (env : Env) (t : R) (e : nat) :
  wf_env env -> (e < num_edges env)%nat ->
  exists verts, simplices env !! e = Some verts /\
    eval_inc_wave_flux env t verts = Ok (incoming_wave_flux env t e).
Proof.
  intros Hwf He.
  destruct (lookup_lt_is_Some_2 (simplices env) e) as [[v0 v1] Hv].
  { by rewrite (wf_simplices _ Hwf). }
  exists (v0, v1). split; [done|].
  destruct (Forall_lookup_1 _ _ _ _ (wf_vertices _ Hwf) Hv) as [Hv0 Hv1]. simpl in *.
  destruct (lookup_lt_is_Some_2 _ _ Hv0) as [p0 Hp0].
  destruct (lookup_lt_is_Some_2 _ _ Hv1) as [p1 Hp1].
  unfold incoming_wave_flux. rewrite Hv, Hp0, Hp1.
  by apply eval_inc_wave_flux_value.
Qed.

(** ** The bodies of the boundary loops *)

Lemma forward_inner_body_value (env : Env) (src : R -> R) (t : R) (e : nat) (fl : vec) :
  wf_env env -> (e < num_edges env)%nat -> length fl = num_edges env ->
  ForwardSolve.inner_body env src t e fl = Ok (<[e := src t * incoming_wave_flux env t e]> fl).
Proof.
  intros Hwf He Hfl. unfold ForwardSolve.inner_body.
  destruct (eval_inc_wave_flux_edge env t e Hwf He) as (verts & Hv & Hw).
  apply getitem_Ok in Hv. rewrite Hv. simpl. rewrite Hw. simpl.
  apply setitem_lt. lia.
Qed.

Lemma getitem_nth (a : vec) (i : nat) :
  (i < length a)%nat -> getitem a i = Ok (nth i a 0).
Proof.
  intros H. apply getitem_Ok. rewrite nth_lookup.
  destruct (lookup_lt_is_Some_2 a i H) as [x ->]. done.
Qed.

Lemma forward_outer_body_value (p : vec) (item : nat * BoundaryEdgeInfo.t) (fl : vec) :
  (BoundaryEdgeInfo.dual_vert_idx (snd item) < length p)%nat ->
  (fst item < length fl)%nat ->
  ForwardSolve.outer_body p item fl = Ok (<[fst item := absorbing_flux (-1) p item]> fl).
Proof.
  destruct item as [e info]. simpl. intros Hp He.
  rewrite getitem_nth by done. simpl. rewrite setitem_lt by done.
  unfold absorbing_flux. simpl. do 2 f_equal. ring.
Qed.

Lemma backward_outer_body_value (p : vec) (item : nat * BoundaryEdgeInfo.t) (fl : vec) :
  (BoundaryEdgeInfo.dual_vert_idx (snd item) < length p)%nat ->
  (fst item < length fl)%nat ->
  BackwardSolve.outer_body p item fl = Ok (<[fst item := absorbing_flux 1 p item]> fl).
Proof.
  destruct item as [e info]. simpl. intros Hp He.
  rewrite getitem_nth by done. simpl. rewrite setitem_lt by done.
  unfold absorbing_flux. simpl. do 2 f_equal. ring.
Qed.

Lemma Forall_zip {X Y : Type} (P : X -> Prop) (Q : Y -> Prop) (xs : list X) (ys : list Y) :
  Forall P xs -> Forall Q ys -> Forall (fun xy => P (fst xy) /\ Q (snd xy)) (zip xs ys).
Proof.
  intros Hxs. revert ys. induction Hxs as [|x xs Hx _ IH]; intros ys Hys; simpl.
  - constructor.
  - destruct Hys as [|y ys Hy Hys]; constructor; [done|]. by apply IH.
Qed.

(** ** The steps compute what the specification words *)

Lemma forward_step_Ok (env : Env) (src : R -> R) (self : ForwardSolve.t) :
  wf_env env -> wf_state env (ForwardSolve.state self) ->
  ForwardSolve.step env src self = Ok (spec_forward_step env src self).
Proof.
  intros Hwf [Hp Hq]. unfold ForwardSolve.step, spec_forward_step.
  destruct (wf_p_step_mat env Hwf) as [HP _].
  destruct (wf_q_step_mat env Hwf) as [HQ _].
  set (pressure1 := vadd _ (matvec (p_step_mat env) _)).
  set (flux1 := vadd _ (matvec (q_step_mat env) _)).
  assert (Hp1 : length pressure1 = num_faces env).
  { unfold pressure1. rewrite length_vadd, length_matvec. lia. }
  assert (Hq1 : length flux1 = num_edges env).
  { unfold flux1. rewrite length_vadd, length_matvec. lia. }
  set (t_half := ForwardSolve.time self + dt env + 0.5 * dt env).
  rewrite (for_each_overwrite (fun e => e)
             (fun e => src t_half * incoming_wave_flux env t_half e) _ (num_edges env)); [|
    eapply Forall_impl; [apply (wf_inner _ Hwf)|]; simpl; intros e He a Ha;
    by apply forward_inner_body_value | done].
  simpl.
  rewrite (for_each_overwrite fst (absorbing_flux (-1) pressure1) _ (num_edges env)); [done | |].
  - eapply Forall_impl; [apply (Forall_zip _ _ _ _ (wf_outer _ Hwf) (wf_infos _ Hwf))|].
    simpl. intros item [He Hi] a Ha. apply forward_outer_body_value; lia.
  - by rewrite length_overwrite.
Qed.

Lemma backward_step_Ok (env : Env) (self : BackwardSolve.t) :
  wf_env env -> wf_state env (BackwardSolve.state self) ->
  BackwardSolve.step env self = Ok (spec_backward_step env self).
Proof.
  intros Hwf [Hp Hq]. unfold BackwardSolve.step, spec_backward_step.
  set (flux1 := vadd _ (matvec (p_step_mat_T env) _)).
  assert (Hq1 : length flux1 = num_edges env).
  { unfold flux1. rewrite length_vadd, length_matvec, length_p_step_mat_T by done. lia. }
  rewrite (for_each_overwrite (fun e => e) (fun _ => 0) _ (num_edges env)); [|
    eapply Forall_impl; [apply (wf_inner _ Hwf)|]; simpl; intros e He a Ha;
    unfold BackwardSolve.inner_body; apply setitem_lt; lia | done].
  simpl.
  rewrite (for_each_overwrite fst (absorbing_flux 1 (pressure (BackwardSolve.state self)))
             _ (num_edges env)); [done | |].
  - eapply Forall_impl; [apply (Forall_zip _ _ _ _ (wf_outer _ Hwf) (wf_infos _ Hwf))|].
    simpl. intros item [He Hi] a Ha. apply backward_outer_body_value; lia.
  - by rewrite length_overwrite.
Qed.

Lemma spec_forward_step_wf (env : Env) (src : R -> R) (self : ForwardSolve.t) :
  wf_env env -> wf_state env (ForwardSolve.state self) ->
  wf_state env (ForwardSolve.state (spec_forward_step env src self)).
Proof.
  intros Hwf [Hp Hq].
  destruct (wf_p_step_mat env Hwf) as [HP _].
  destruct (wf_q_step_mat env Hwf) as [HQ _].
  unfold spec_forward_step, wf_state. simpl.
  rewrite !length_overwrite, !length_vadd, !length_matvec. lia.
Qed.

Lemma spec_backward_step_wf (env : Env) (self : BackwardSolve.t) :
  wf_env env -> wf_state env (BackwardSolve.state self) ->
  wf_state env (BackwardSolve.state (spec_backward_step env self)).
Proof.
  intros Hwf [Hp Hq].
  unfold spec_backward_step, wf_state. simpl.
  rewrite !length_vadd, !length_overwrite, !length_vadd, !length_matvec.
  rewrite length_p_step_mat_T, length_q_step_mat_T by done. lia.
Qed.

(** ** Zeroing entries is self-adjoint *)

Lemma vdot_insert_zero (a b : vec) (k : nat) :
  vdot (<[k := 0]> a) b = vdot a (<[k := 0]> b).
Proof.
  revert b k. induction a as [|x a IH]; intros [|y b] [|k]; simpl; try reflexivity.
  - ring.
  - by rewrite IH.
Qed.

Lemma overwrite_ext {X : Type} (key : X -> nat) (val val' : X -> R) (xs : list X) (a : vec) :
  (forall x, val x = val' x) -> overwrite key val xs a = overwrite key val' xs a.
Proof.
  intros H. unfold overwrite. revert a.
  induction xs as [|x xs IH]; intros a; simpl; [done|]. by rewrite H, IH.
Qed.

Lemma insert_overwrite_zero {X : Type} (key : X -> nat) (xs : list X) (a : vec) (k : nat) :
  <[k := 0]> (overwrite key (fun _ => 0) xs a) = overwrite key (fun _ => 0) xs (<[k := 0]> a).
Proof.
  unfold overwrite. revert a. induction xs as [|x xs IH]; intros a; simpl; [done|].
  rewrite IH. f_equal.
  destruct (decide (k = key x)) as [->|Hne].
  - by rewrite !list_insert_insert_eq.
  - by apply list_insert_insert_ne.
Qed.

Lemma vdot_overwrite_zero {X : Type} (key : X -> nat) (xs : list X) (a b : vec) :
  vdot (overwrite key (fun _ => 0) xs a) b = vdot a (overwrite key (fun _ => 0) xs b).
Proof.
  revert a. induction xs as [|x xs IH]; intros a; [done|].
  change (overwrite key (fun _ => 0) (x :: xs) a)
    with (overwrite key (fun _ => 0) xs (<[key x := 0]> a)).
  change (overwrite key (fun _ => 0) (x :: xs) b)
    with (overwrite key (fun _ => 0) xs (<[key x := 0]> b)).
  rewrite IH, vdot_insert_zero. by rewrite insert_overwrite_zero.
Qed.

(** ** Entries that a product does not see *)

Lemma overwrite_ext_in {X : Type} (key : X -> nat) (val val' : X -> R) (xs : list X) (a : vec) :
  (forall x, x ∈ xs -> val x = val' x) -> overwrite key val xs a = overwrite key val' xs a.
Proof.
  unfold overwrite. revert a.
  induction xs as [|x xs IH]; intros a H; simpl; [done|].
  rewrite (H x) by left. apply IH. intros y Hy. apply H. by right.
Qed.

Lemma vdot_insert_unseen (a b : vec) (k : nat) (x : R) :
  nth k b 0 = 0 -> vdot (<[k := x]> a) b = vdot a b.
Proof.
  revert b k. induction a as [|y a IH]; intros [|z b] [|k]; simpl; try reflexivity.
  - intros ->. ring.
  - intros H. by rewrite IH.
Qed.

Lemma vdot_overwrite_unseen {X : Type} (key : X -> nat) (val : X -> R) (xs : list X)
    (a b : vec) :
  (forall x, x ∈ xs -> nth (key x) b 0 = 0) ->
  vdot (overwrite key val xs a) b = vdot a b.
Proof.
  unfold overwrite. revert a. induction xs as [|x xs IH]; intros a H; simpl; [done|].
  rewrite IH by (intros y Hy; apply H; by right).
  apply vdot_insert_unseen, H. by left.
Qed.

Lemma nth_insert_zero (a : vec) (j k : nat) :
  nth j a 0 = 0 -> nth j (<[k := 0]> a) 0 = 0.
Proof.
  revert j k. induction a as [|y a IH]; intros [|j] [|k]; simpl; try done. apply IH.
Qed.

Lemma insert_zero_id (a : vec) (k : nat) : nth k a 0 = 0 -> <[k := 0]> a = a.
Proof.
  revert k. induction a as [|y a IH]; intros [|k]; simpl; try done.
  - by intros ->.
  - intros H. f_equal. by apply IH.
Qed.

Lemma nth_overwrite_zero {X : Type} (key : X -> nat) (xs : list X) (a : vec) (j : nat) :
  nth j a 0 = 0 -> nth j (overwrite key (fun _ => 0) xs a) 0 = 0.
Proof.
  unfold overwrite. revert a. induction xs as [|x xs IH]; intros a H; simpl; [done|].
  apply IH. by apply nth_insert_zero.
Qed.

Lemma overwrite_zero_id {X : Type} (key : X -> nat) (xs : list X) (a : vec) :
  (forall x, x ∈ xs -> nth (key x) a 0 = 0) -> overwrite key (fun _ => 0) xs a = a.
Proof.
  unfold overwrite. induction xs as [|x xs IH]; intros H; simpl; [done|].
  rewrite insert_zero_id by (apply H; by left).
  apply IH. intros y Hy. apply H. by right.
Qed.

Lemma vdot_pointwise_zero (a b : vec) :
  (forall i, nth i a 0 * nth i b 0 = 0) -> vdot a b = 0.
Proof.
  revert b. induction a as [|x a IH]; intros [|y b] H; simpl; try reflexivity.
  rewrite IH by (intros i; apply (H (S i))).
  pose proof (H 0%nat) as H0. simpl in H0. lra.
Qed.

(** Row [e] of the transpose is column [e]. *)
Lemma nth_matvec_transpose (n : nat) (A : matrix) (y : vec) (e : nat) :
  Forall (fun row => length row = n) A -> (e < n)%nat ->
  nth e (matvec (transpose n A) y) 0 = vdot (map (fun row => nth e row 0) A) y.
Proof.
  intros HA He. revert y. induction HA as [|row A Hrow HA IH]; intros y.
  - simpl. rewrite nth_matvec, nth_repeat. reflexivity.
  - destruct y as [|yi y].
    + rewrite nth_matvec, !vdot_nil_r. reflexivity.
    + simpl. rewrite matvec_zip_cons by (rewrite length_transpose; auto).
      rewrite nth_vadd by (rewrite length_vscale, length_matvec, length_transpose; auto).
      rewrite nth_vscale, IH. ring.
Qed.

Lemma nth_scaled_row (c : R) (row : list Z) (e : nat) :
  nth e (map (fun z => c * IZR z) row) 0 = c * IZR (nth e row 0%Z).
Proof.
  revert e. induction row as [|z row IH]; intros [|e]; simpl; try ring; try done.
Qed.

Lemma nth_scale_rows (s : R) (diag : vec) (A : list (list Z)) (i e : nat) :
  nth e (nth i (scale_rows s diag A) []) 0
  = s * nth i diag 0 * IZR (nth e (nth i A []) 0%Z).
Proof.
  unfold scale_rows. revert diag i. induction A as [|row A IH]; intros [|di diag] [|i];
    cbn [zip_with nth]; try (destruct e; simpl; ring).
  - apply nth_scaled_row.
  - apply IH.
Qed.

(** The backward flux update does not reach an edge whose faces carry no
    pressure. *)
Lemma p_step_mat_T_unseen (env : Env) (pv : vec) (e : nat) :
  wf_env env -> (e < num_edges env)%nat ->
  (forall i, incidence env i e <> 0%Z -> nth i pv 0 = 0) ->
  nth e (matvec (p_step_mat_T env) pv) 0 = 0.
Proof.
  intros Hwf He Hzero. destruct (wf_p_step_mat env Hwf) as [_ HProws].
  unfold p_step_mat_T. rewrite (nth_matvec_transpose (num_edges env)) by done.
  apply vdot_pointwise_zero. intros i.
  destruct (decide (i < length (p_step_mat env))%nat) as [Hi|Hi].
  - destruct (lookup_lt_is_Some_2 _ _ Hi) as [row Hrow].
    assert (Hcol : nth i (map (fun row => nth e row 0) (p_step_mat env)) 0
                   = nth e (nth i (p_step_mat env) []) 0).
    { rewrite (nth_indep _ 0 ((fun row : vec => nth e row 0) [])) by (by rewrite length_map).
      by rewrite (map_nth (fun row : vec => nth e row 0)). }
    rewrite Hcol. unfold p_step_mat. rewrite nth_scale_rows.
    destruct (Z.eq_dec (incidence env i e) 0%Z) as [Hz|Hnz].
    + unfold incidence in Hz. rewrite Hz. ring.
    + rewrite (Hzero i Hnz). ring.
  - rewrite (nth_overflow (map _ _)) by (rewrite length_map; lia). ring.
Qed.

(** ** C1: the adjoint of one step *)

Lemma wf_square_env : wf_env square_env.
Proof. constructor; simpl; repeat constructor; simpl; lia. Qed.

Lemma wf_interior_env : wf_env interior_env.
Proof. constructor; simpl; repeat constructor; simpl; lia. Qed.

Lemma wf_unit_pressure_state : wf_state square_env unit_pressure_state.
Proof. split; reflexivity. Qed.

(** C1, amended.  In the staggered variables the backward step is the exact
    transpose of the homogeneous forward step against every state that
    vanishes on the absorbing boundary: on every well-formed mesh, for every
    state [u] and every state [v] that is zero on the outer boundary edges
    and on the faces they are part of, both steps return, and the inner
    product of the staggered forward image of [u] with [v] is the inner
    product of the staggered [u] with the backward image of [v].  A mesh
    without outer boundary edges is the case where this holds for all [v]. *)
Theorem staggered_adjoint (env : Env) (t : R) (u v : State) :
  wf_env env -> wf_state env u -> wf_state env v ->
  vanishes_on_outer env v ->
  exists Fu Bv,
    ForwardSolve.step env (fun _ => 0) {| ForwardSolve.state := u; ForwardSolve.time := t |}
      = Ok Fu /\
    BackwardSolve.step env {| BackwardSolve.state := v |} = Ok Bv /\
    dot (staggered env (ForwardSolve.state Fu)) v
      = dot (staggered env u) (BackwardSolve.state Bv).
Proof.
  intros Hwf [Hpu Hqu] [Hpv Hqv] Hv.
  rewrite forward_step_Ok, backward_step_Ok by done.
  eexists _, _. split; [reflexivity|]. split; [reflexivity|].
  destruct (wf_p_step_mat env Hwf) as [HP HProws].
  destruct (wf_q_step_mat env Hwf) as [HQ HQrows].
  pose proof (length_p_step_mat_T env Hwf) as HPT.
  pose proof (length_q_step_mat_T env Hwf) as HQT.
  unfold spec_forward_step, spec_backward_step, staggered, dot.
  cbn [ForwardSolve.state ForwardSolve.time BackwardSolve.state pressure flux].
  rewrite (overwrite_ext _ (fun e => 0 * incoming_wave_flux env _ e) (fun _ => 0))
    by (intros; ring).
  set (outer := zip (outer_bound_edges env) (outer_bound_infos env)).
  set (p1 := vadd (pressure u) (matvec (p_step_mat env) (flux u))).
  set (f1 := vadd (flux u) (matvec (q_step_mat env) p1)).
  set (f2 := overwrite (fun e => e) (fun _ => 0) (inner_bound_edges env) f1).
  set (f3 := overwrite fst (absorbing_flux (-1) p1) outer f2).
  set (g1 := vadd (flux v) (matvec (p_step_mat_T env) (pressure v))).
  set (g2 := overwrite (fun e => e) (fun _ => 0) (inner_bound_edges env) g1).
  set (g3 := overwrite fst (absorbing_flux 1 (pressure v)) outer g2).
  assert (Hp1 : length p1 = num_faces env).
  { unfold p1. rewrite length_vadd, length_matvec. lia. }
  assert (Hf1 : length f1 = num_edges env).
  { unfold f1. rewrite length_vadd, length_matvec. lia. }
  assert (Hf3 : length f3 = num_edges env).
  { unfold f3, f2. by rewrite !length_overwrite. }
  assert (Hg3l : length g3 = num_edges env).
  { unfold g3, g2, g1. rewrite !length_overwrite, length_vadd, length_matvec. lia. }
  (* what [v] vanishing on the outer boundary gives for every pair of the loop *)
  assert (Hitem : forall item, item ∈ outer ->
            absorbing_flux 1 (pressure v) item = 0 /\ nth (fst item) g1 0 = 0).
  { intros item Hin. apply list_elem_of_lookup in Hin as [k Hk].
    unfold outer in Hk. apply lookup_zip_with_Some in Hk as (e & info & -> & He & Hinfo).
    destruct (Hv k e info He Hinfo) as (Hq0 & Hp0 & Hfaces).
    pose proof (Forall_lookup_1 _ _ _ _ (wf_outer _ Hwf) He) as Hlt.
    cbn [fst snd]. split.
    - unfold absorbing_flux. cbn [snd]. rewrite Hp0. ring.
    - unfold g1. rewrite nth_vadd by (rewrite length_matvec; lia).
      rewrite Hq0, (p_step_mat_T_unseen env (pressure v) e Hwf Hlt Hfaces). ring. }
  assert (Hg3 : g3 = g2).
  { unfold g3.
    rewrite (overwrite_ext_in fst _ (fun _ => 0)) by (intros x Hx; apply (Hitem x Hx)).
    apply overwrite_zero_id. intros x Hx. unfold g2.
    apply nth_overwrite_zero, (Hitem x Hx). }
  assert (Hkey : vdot f3 g1 = vdot f1 g3).
  { rewrite Hg3. unfold f3.
    rewrite vdot_overwrite_unseen by (intros x Hx; apply (Hitem x Hx)).
    unfold f2, g2. apply vdot_overwrite_zero. }
  rewrite vdot_vadd_l by (rewrite length_matvec; lia).
  rewrite (matvec_adjoint (num_edges env)) by (done || lia).
  fold (p_step_mat_T env).
  rewrite vdot_vadd_r by (rewrite length_matvec; lia).
  replace (vdot p1 (matvec (q_step_mat_T env) g3)) with (vdot (matvec (q_step_mat env) p1) g3).
  2:{ unfold q_step_mat_T. apply matvec_adjoint; [done | lia]. }
  assert (HL : vdot f3 g1 = vdot f3 (flux v) + vdot f3 (matvec (p_step_mat_T env) (pressure v))).
  { unfold g1. apply vdot_vadd_r. rewrite length_matvec. lia. }
  assert (HR : vdot f1 g3 = vdot (flux u) g3 + vdot (matvec (q_step_mat env) p1) g3).
  { unfold f1. apply vdot_vadd_l. rewrite length_matvec. lia. }
  lra.
Qed.

Lemma wf_one_outer_env : wf_env one_outer_env.
Proof. constructor; simpl; repeat constructor; simpl; lia. Qed.

Lemma far_state_vanishes : vanishes_on_outer one_outer_env far_state.
Proof.
  intros k e info He Hinfo. destruct k as [|k]; [|done].
  injection He as <-. injection Hinfo as <-. cbn.
  split; [reflexivity|]. split; [reflexivity|].
  intros [|[|i]] Hi; cbn in *; try reflexivity; try done.
  destruct i; done.
Qed.

(** C1, witness of the amended statement: the square mesh with its lower
    side as absorbing outer boundary, [u] the state of pressure 1 on the face
    of that side, [v] a state on the rest of the mesh. *)
Lemma staggered_adjoint_witness :
  wf_env one_outer_env /\ vanishes_on_outer one_outer_env far_state /\
  exists Fu Bv,
    ForwardSolve.step one_outer_env (fun _ => 0)
      {| ForwardSolve.state := unit_pressure_state; ForwardSolve.time := 0 |} = Ok Fu /\
    BackwardSolve.step one_outer_env {| BackwardSolve.state := far_state |} = Ok Bv /\
    dot (staggered one_outer_env (ForwardSolve.state Fu)) far_state
      = dot (staggered one_outer_env unit_pressure_state) (BackwardSolve.state Bv).
Proof.
  split; [exact wf_one_outer_env|]. split; [exact far_state_vanishes|].
  apply (staggered_adjoint one_outer_env 0 unit_pressure_state far_state).
  - exact wf_one_outer_env.
  - split; reflexivity.
  - split; reflexivity.
  - exact far_state_vanishes.
Defined.

(** On this mesh both steps act on the boundary (the forward step sets the
    flux of the lower side to -1), and the two inner products are
    [PI / 120]. *)
Lemma one_outer_adjoint_value :
  exists Fu Bv,
    ForwardSolve.step one_outer_env (fun _ => 0)
      {| ForwardSolve.state := unit_pressure_state; ForwardSolve.time := 0 |} = Ok Fu /\
    BackwardSolve.step one_outer_env {| BackwardSolve.state := far_state |} = Ok Bv /\
    nth 0 (flux (ForwardSolve.state Fu)) 0 = -1 /\
    dot (staggered one_outer_env (ForwardSolve.state Fu)) far_state = PI / 120 /\
    dot (staggered one_outer_env unit_pressure_state) (BackwardSolve.state Bv) = PI / 120.
Proof.
  rewrite forward_step_Ok, backward_step_Ok
    by (apply wf_one_outer_env || split; reflexivity).
  eexists _, _. split; [reflexivity|]. split; [reflexivity|].
  split; [|split]; eval_reals; lra.
Qed.

(** C1, as stated, fails: on the square mesh, with [u = v] the state of
    pressure 1 on the first face, one homogeneous forward step gives the
    inner product 1 and one backward step gives [1 + PI / 60]. *)
Lemma one_step_adjoint_fails :
  exists Fu Bv,
    ForwardSolve.step square_env (fun _ => 0)
      {| ForwardSolve.state := unit_pressure_state; ForwardSolve.time := 0 |} = Ok Fu /\
    BackwardSolve.step square_env {| BackwardSolve.state := unit_pressure_state |} = Ok Bv /\
    dot (ForwardSolve.state Fu) unit_pressure_state = 1 /\
    dot unit_pressure_state (BackwardSolve.state Bv) = 1 + PI / 60 /\
    dot (ForwardSolve.state Fu) unit_pressure_state
      <> dot unit_pressure_state (BackwardSolve.state Bv).
Proof.
  rewrite forward_step_Ok, backward_step_Ok
    by (apply wf_square_env || apply wf_unit_pressure_state).
  eexists _, _. split; [reflexivity|]. split; [reflexivity|].
  assert (H1 : dot (ForwardSolve.state (spec_forward_step square_env (fun _ => 0)
                 {| ForwardSolve.state := unit_pressure_state; ForwardSolve.time := 0 |}))
                 unit_pressure_state = 1).
  { eval_reals. lra. }
  assert (H2 : dot unit_pressure_state (BackwardSolve.state (spec_backward_step square_env
                 {| BackwardSolve.state := unit_pressure_state |})) = 1 + PI / 60).
  { eval_reals. lra. }
  split; [exact H1|]. split; [exact H2|].
  rewrite H1, H2. pose proof PI_RGT_0. lra.
Qed.

(** The failure is not due to the boundary conditions alone: without outer
    boundary the two inner products are 1 and [1 + 4 * dt ^ 2]. *)
Lemma one_step_adjoint_fails_interior :
  exists Fu Bv,
    ForwardSolve.step interior_env (fun _ => 0)
      {| ForwardSolve.state := unit_pressure_state; ForwardSolve.time := 0 |} = Ok Fu /\
    BackwardSolve.step interior_env {| BackwardSolve.state := unit_pressure_state |} = Ok Bv /\
    dot (ForwardSolve.state Fu) unit_pressure_state = 1 /\
    dot unit_pressure_state (BackwardSolve.state Bv) = 1 + 4 * (PI / 120) ^ 2.
Proof.
  rewrite forward_step_Ok, backward_step_Ok
    by (apply wf_interior_env || apply wf_unit_pressure_state).
  eexists _, _. split; [reflexivity|]. split; [reflexivity|].
  split; eval_reals; lra.
Qed.

(** For a state [v] that does not vanish on the outer boundary the staggered
    identity fails too: the absorbing overwrites of the two steps are not
    transposes of each other. *)
Lemma staggered_adjoint_fails_outer :
  exists Fu Bv,
    ForwardSolve.step square_env (fun _ => 0)
      {| ForwardSolve.state := unit_pressure_state; ForwardSolve.time := 0 |} = Ok Fu /\
    BackwardSolve.step square_env {| BackwardSolve.state := unit_pressure_state |} = Ok Bv /\
    dot (staggered square_env (ForwardSolve.state Fu)) unit_pressure_state
      <> dot (staggered square_env unit_pressure_state) (BackwardSolve.state Bv).
Proof.
  rewrite forward_step_Ok, backward_step_Ok
    by (apply wf_square_env || apply wf_unit_pressure_state).
  eexists _, _. split; [reflexivity|]. split; [reflexivity|].
  eval_reals. pose proof PI_RGT_0. lra.
Qed.

(** ** C2 and C3: the sequence of one step *)

Lemma last_with_id (j : nat) (xs : list nat) :
  last_with (fun e => e) j xs = if decide (j ∈ xs) then Some j else None.
Proof.
  destruct (last_with (fun e => e) j xs) as [x|] eqn:Hx.
  - apply last_with_key in Hx as [Hin ->]. by rewrite decide_True.
  - rewrite decide_False; [done|]. intros Hin.
    by apply (proj1 (last_with_None _ _ _) Hx j Hin).
Qed.

(** The entries of the step matrices: [P = dt * star_2 * d_1] and
    [Q = dt * star_1_inv * d_1^T], and their transposes. *)
Lemma step_matrix_entries (env : Env) (i j : nat) (row : list Z) (e : Z) (s2 s1 : R) :
  wf_env env ->
  d env !! i = Some row -> row !! j = Some e ->
  star2 env !! i = Some s2 -> star1_inv env !! j = Some s1 ->
  is_entry (p_step_mat env) i j (dt env * s2 * IZR e) /\
  is_entry (q_step_mat env) j i (dt env * s1 * IZR e) /\
  is_entry (p_step_mat_T env) j i (dt env * s2 * IZR e) /\
  is_entry (q_step_mat_T env) i j (dt env * s1 * IZR e).
Proof.
  intros Hwf Hrow He Hs2 Hs1.
  assert (HP : is_entry (p_step_mat env) i j (dt env * s2 * IZR e)).
  { eexists. unfold p_step_mat. rewrite lookup_scale_rows, Hs2, Hrow.
    split; [reflexivity|]. by rewrite list_lookup_fmap, He. }
  assert (HQ : is_entry (q_step_mat env) j i (dt env * s1 * IZR e)).
  { destruct (lookup_transpose (num_edges env) (d env) i j row e (wf_d_cols _ Hwf) Hrow He)
      as (col & Hcol & Hcoli).
    eexists. unfold q_step_mat. rewrite lookup_scale_rows, Hs1, Hcol.
    split; [reflexivity|]. by rewrite list_lookup_fmap, Hcoli. }
  split; [exact HP|]. split; [exact HQ|]. split.
  - destruct HP as (r & Hr & Hrj).
    apply (lookup_transpose (num_edges env) _ i j r); [apply (wf_p_step_mat _ Hwf) | done..].
  - destruct HQ as (r & Hr & Hri).
    apply (lookup_transpose (num_faces env) _ j i r); [apply (wf_q_step_mat _ Hwf) | done..].
Qed.

(** C2.  One forward step, whatever the starting state and the source
    scaling: the time grows by [dt]; the pressure becomes
    [pressure + P * flux]; the half time is taken from the new time; the
    flux becomes [flux + Q * pressure] with the new pressure, then is
    overwritten at the inner boundary edges with
    [source_scaling(t_half) * eval_inc_wave_flux(t_half, edge)], then at the
    outer boundary edges with [- pressure[face] * length * orientation];
    an edge in neither group keeps the computed update.  The state has no
    other component. *)
Theorem forward_step_sequence (env : Env) (source_scaling : R -> R) (self : ForwardSolve.t) :
  wf_env env -> wf_state env (ForwardSolve.state self) ->
  exists self',
    ForwardSolve.step env source_scaling self = Ok self' /\
    self' = spec_forward_step env source_scaling self /\
    let t1 := ForwardSolve.time self + dt env in
    let t_half := t1 + 0.5 * dt env in
    let p1 := pressure (ForwardSolve.state self') in
    let q3 := flux (ForwardSolve.state self') in
    ForwardSolve.time self' = t1 /\
    p1 = vadd (pressure (ForwardSolve.state self))
              (matvec (p_step_mat env) (flux (ForwardSolve.state self))) /\
    length q3 = num_edges env /\
    (forall j, (j < num_edges env)%nat ->
       match last_with fst j (zip (outer_bound_edges env) (outer_bound_infos env)) with
       | Some (_, info) =>
           q3 !! j = Some (- nth (BoundaryEdgeInfo.dual_vert_idx info) p1 0
                           * BoundaryEdgeInfo.length info
                           * IZR (BoundaryEdgeInfo.orientation info))
       | None =>
           if decide (j ∈ inner_bound_edges env) then
             exists verts w,
               simplices env !! j = Some verts /\
               eval_inc_wave_flux env t_half verts = Ok w /\
               q3 !! j = Some (source_scaling t_half * w)
           else
             q3 !! j = vadd (flux (ForwardSolve.state self)) (matvec (q_step_mat env) p1) !! j
       end) /\
    (forall i j row e s2 s1,
       d env !! i = Some row -> row !! j = Some e ->
       star2 env !! i = Some s2 -> star1_inv env !! j = Some s1 ->
       is_entry (p_step_mat env) i j (dt env * s2 * IZR e) /\
       is_entry (q_step_mat env) j i (dt env * s1 * IZR e)).
Proof.
  intros Hwf Hst. exists (spec_forward_step env source_scaling self).
  split; [by apply forward_step_Ok|]. split; [reflexivity|].
  pose proof (spec_forward_step_wf env source_scaling self Hwf Hst) as [Hp1 Hq3].
  destruct Hst as [Hp Hq].
  destruct (wf_q_step_mat env Hwf) as [HQ _].
  destruct (wf_p_step_mat env Hwf) as [HP _].
  cbv zeta. split; [reflexivity|]. split; [reflexivity|]. split; [exact Hq3|]. split.
  - intros j Hj. unfold spec_forward_step. cbn [ForwardSolve.state pressure flux].
    rewrite lookup_overwrite
      by (rewrite length_overwrite, length_vadd, length_matvec; lia).
    destruct (last_with fst j _) as [[e info]|].
    + unfold absorbing_flux. cbn [snd]. f_equal. ring.
    + rewrite lookup_overwrite
        by (rewrite length_vadd, length_matvec; lia).
      rewrite last_with_id. destruct (decide (j ∈ inner_bound_edges env)); [|done].
      destruct (eval_inc_wave_flux_edge env
                  (ForwardSolve.time self + dt env + 0.5 * dt env) j Hwf Hj)
        as (verts & Hv & Hw).
      exists verts, (incoming_wave_flux env
                       (ForwardSolve.time self + dt env + 0.5 * dt env) j). done.
  - intros i j row e s2 s1 Hrow He Hs2 Hs1.
    destruct (step_matrix_entries env i j row e s2 s1 Hwf Hrow He Hs2 Hs1) as (? & ? & _).
    done.
Qed.

(** C2, witness: the square mesh, the state of pressure 1 on the first
    face, the constant source scaling 1. *)
Lemma forward_step_sequence_witness :
  wf_env square_env /\ wf_state square_env unit_pressure_state /\
  exists self',
    ForwardSolve.step square_env (fun _ => 1)
      {| ForwardSolve.state := unit_pressure_state; ForwardSolve.time := 0 |} = Ok self' /\
    ForwardSolve.time self' = 0 + dt square_env.
Proof.
  assert (Hwf : wf_env square_env).
  { constructor; simpl; repeat constructor; simpl; lia. }
  assert (Hst : wf_state square_env unit_pressure_state).
  { split; reflexivity. }
  split; [exact Hwf|]. split; [exact Hst|].
  destruct (forward_step_sequence square_env (fun _ => 1)
              {| ForwardSolve.state := unit_pressure_state; ForwardSolve.time := 0 |} Hwf Hst)
    as (self' & Hstep & _ & Htime & _).
  exists self'. split; [exact Hstep | exact Htime].
Defined.

(** C3.  One backward step, whatever the starting state: the flux becomes
    [flux + P^T * pressure], is set to 0 at the inner boundary edges, then
    is overwritten at the outer boundary edges with
    [+ pressure[face] * length * orientation], the pressure being still the
    one before the step; only then the pressure becomes
    [pressure + Q^T * flux] with the flux just computed. *)
Theorem backward_step_sequence (env : Env) (self : BackwardSolve.t) :
  wf_env env -> wf_state env (BackwardSolve.state self) ->
  exists self',
    BackwardSolve.step env self = Ok self' /\
    self' = spec_backward_step env self /\
    let p0 := pressure (BackwardSolve.state self) in
    let p1 := pressure (BackwardSolve.state self') in
    let q3 := flux (BackwardSolve.state self') in
    length q3 = num_edges env /\
    (forall j, (j < num_edges env)%nat ->
       match last_with fst j (zip (outer_bound_edges env) (outer_bound_infos env)) with
       | Some (_, info) =>
           q3 !! j = Some (nth (BoundaryEdgeInfo.dual_vert_idx info) p0 0
                           * BoundaryEdgeInfo.length info
                           * IZR (BoundaryEdgeInfo.orientation info))
       | None =>
           if decide (j ∈ inner_bound_edges env) then q3 !! j = Some 0
           else q3 !! j = vadd (flux (BackwardSolve.state self))
                               (matvec (p_step_mat_T env) p0) !! j
       end) /\
    p1 = vadd p0 (matvec (q_step_mat_T env) q3) /\
    (forall i j row e s2 s1,
       d env !! i = Some row -> row !! j = Some e ->
       star2 env !! i = Some s2 -> star1_inv env !! j = Some s1 ->
       is_entry (p_step_mat_T env) j i (dt env * s2 * IZR e) /\
       is_entry (q_step_mat_T env) i j (dt env * s1 * IZR e)).
Proof.
  intros Hwf Hst. exists (spec_backward_step env self).
  split; [by apply backward_step_Ok|]. split; [reflexivity|].
  pose proof (spec_backward_step_wf env self Hwf Hst) as [Hp1 Hq3].
  destruct Hst as [Hp Hq].
  pose proof (length_p_step_mat_T env Hwf) as HPT.
  cbv zeta. split; [exact Hq3|]. split; [|split; [reflexivity|]].
  - intros j Hj. unfold spec_backward_step. cbn [BackwardSolve.state pressure flux].
    rewrite lookup_overwrite
      by (rewrite length_overwrite, length_vadd, length_matvec; lia).
    destruct (last_with fst j _) as [[e info]|].
    + unfold absorbing_flux. cbn [snd]. f_equal. ring.
    + rewrite lookup_overwrite by (rewrite length_vadd, length_matvec; lia).
      rewrite last_with_id. by destruct (decide (j ∈ inner_bound_edges env)).
  - intros i j row e s2 s1 Hrow He Hs2 Hs1.
    destruct (step_matrix_entries env i j row e s2 s1 Hwf Hrow He Hs2 Hs1) as (_ & _ & ? & ?).
    done.
Qed.

(** C3, witness: the square mesh and the state of pressure 1 on the first
    face. *)
Lemma backward_step_sequence_witness :
  wf_env square_env /\ wf_state square_env unit_pressure_state /\
  exists self',
    BackwardSolve.step square_env {| BackwardSolve.state := unit_pressure_state |} = Ok self' /\
    length (flux (BackwardSolve.state self')) = num_edges square_env.
Proof.
  assert (Hwf : wf_env square_env).
  { constructor; simpl; repeat constructor; simpl; lia. }
  assert (Hst : wf_state square_env unit_pressure_state).
  { split; reflexivity. }
  split; [exact Hwf|]. split; [exact Hst|].
  destruct (backward_step_sequence square_env
              {| BackwardSolve.state := unit_pressure_state |} Hwf Hst)
    as (self' & Hstep & _ & Hlen & _).
  exists self'. split; [exact Hstep | exact Hlen].
Defined.

(** ** C4: the gradient evaluation *)

Lemma copy_eq (s : State) : copy s = s.
Proof. by destruct s. Qed.

Lemma repeat_n_runs {St : Type} (step : St -> result St) (n : nat) (s s' : St) :
  repeat_n n step s = Ok s' <-> runs step n s s'.
Proof.
  revert s. induction n as [|n IH]; intros s; simpl.
  - split.
    + intros [= <-]. constructor.
    + inversion 1. done.
  - rewrite bind_Ok. split.
    + intros (s1 & H1 & H2). econstructor; [exact H1|]. by apply IH.
    + inversion 1 as [|? ? s1 ? H1 H2]; subst. exists s1. split; [done|]. by apply IH.
Qed.

Lemma repeat_n_ext {St : Type} (f g : St -> result St) (n : nat) (s : St) :
  (forall x, f x = g x) -> repeat_n n f s = repeat_n n g s.
Proof.
  intros H. revert s. induction n as [|n IH]; intros s; simpl; [done|].
  rewrite H. destruct (g s); simpl; auto.
Qed.

(** A loop of total steps that keep an invariant returns, and keeps it. *)
Lemma repeat_n_total {St : Type} (step : St -> result St) (I : St -> Prop) (n : nat) (s : St) :
  (forall x, I x -> exists y, step x = Ok y /\ I y) ->
  I s -> exists s', repeat_n n step s = Ok s' /\ I s'.
Proof.
  intros Hstep. revert s. induction n as [|n IH]; intros s Hs; simpl.
  - by exists s.
  - destruct (Hstep s Hs) as (y & Hy & HIy). rewrite Hy. simpl. by apply IH.
Qed.

Lemma forward_run_total (env : Env) (src : R -> R) (n : nat) (self : ForwardSolve.t) :
  wf_env env -> wf_state env (ForwardSolve.state self) ->
  exists fwd, repeat_n n (ForwardSolve.step env src) self = Ok fwd /\
              wf_state env (ForwardSolve.state fwd).
Proof.
  intros Hwf. apply (repeat_n_total _ (fun x => wf_state env (ForwardSolve.state x))).
  intros x Hx. exists (spec_forward_step env src x).
  split; [by apply forward_step_Ok | by apply spec_forward_step_wf].
Qed.

Lemma backward_run_total (env : Env) (n : nat) (self : BackwardSolve.t) :
  wf_env env -> wf_state env (BackwardSolve.state self) ->
  exists bwd, repeat_n n (BackwardSolve.step env) self = Ok bwd /\
              wf_state env (BackwardSolve.state bwd).
Proof.
  intros Hwf. apply (repeat_n_total _ (fun x => wf_state env (BackwardSolve.state x))).
  intros x Hx. exists (spec_backward_step env x).
  split; [by apply backward_step_Ok | by apply spec_backward_step_wf].
Qed.

Lemma wf_state_sub (env : Env) (a b : State) :
  wf_state env a -> wf_state env b -> wf_state env (sub a b).
Proof.
  intros [Hpa Hqa] [Hpb Hqb]. unfold wf_state, sub. simpl.
  rewrite !length_vsub. lia.
Qed.

Lemma compute_cost_gradient_total (env : Env) (s : State) (b : bool) :
  wf_env env -> wf_state env s ->
  exists r, compute_cost_gradient env s b = Ok r /\
            wf_state env (gradient r) /\ wf_state env (forward_diff r).
Proof.
  intros Hwf Hs. unfold compute_cost_gradient. rewrite copy_eq.
  destruct (forward_run_total env (if b then fun _ : R => 1 else fun _ : R => 0)
              (steps_per_period env)
              {| ForwardSolve.state := s; ForwardSolve.time := 0 |} Hwf Hs)
    as (fwd & Hfwd & Hwfwd).
  rewrite Hfwd. cbn [bind]. rewrite copy_eq.
  pose proof (wf_state_sub env _ _ Hwfwd Hs) as Hdiff.
  set (diff := sub (ForwardSolve.state fwd) s) in *.
  pose proof (length_q_step_mat_T env Hwf) as HQT.
  pose proof (length_p_step_mat_T env Hwf) as HPT.
  match goal with |- context [repeat_n _ _ ?b0] =>
    destruct (backward_run_total env (steps_per_period env - 1) b0 Hwf)
      as (bwd & Hbwd & Hwbwd) end.
  { destruct Hdiff as [Hdp Hdq]. split; cbn [BackwardSolve.state pressure flux].
    - rewrite length_vsub, length_matvec. lia.
    - by rewrite length_vneg. }
  rewrite Hbwd. cbn [bind]. eexists. split; [reflexivity|].
  cbn [gradient forward_diff]. split; [|done].
  apply wf_state_sub; [|done].
  destruct Hwbwd as [Hbp Hbq]. split; cbn [pressure flux].
  - by rewrite length_vneg.
  - rewrite length_vsub, length_vneg, length_matvec. lia.
Qed.

(** C4.  The gradient evaluation is the sequence of section 4.4: the
    forward solver runs exactly [steps_per_period] steps from the initial
    state with the source on or off, the backward solver starts from
    [flux0 = - forward_diff.flux] and
    [pressure0 = Q^T * flux0 - forward_diff.pressure] and runs exactly
    [steps_per_period - 1] steps, and the result is
    [final_bwd - forward_diff] together with [forward_diff]; on a
    well-formed mesh and state the evaluation returns. *)
Theorem cost_gradient_sequence (env : Env) (initial_state : State) (use_source_terms : bool) :
  (forall r,
     compute_cost_gradient env initial_state use_source_terms = Ok r <->
     spec_cost_gradient env initial_state use_source_terms r) /\
  (wf_env env -> wf_state env initial_state ->
   exists r, compute_cost_gradient env initial_state use_source_terms = Ok r).
Proof.
  split.
  - intros r. unfold compute_cost_gradient, spec_cost_gradient.
    rewrite copy_eq, bind_Ok.
    rewrite (repeat_n_ext _ (ForwardSolve.step env (fun _ => if use_source_terms then 1 else 0)))
      by (intros x; by destruct use_source_terms).
    split.
    + intros (fwd & Hfwd & H). cbv zeta in H. rewrite copy_eq in H.
      apply bind_Ok in H as (bwd & Hbwd & [= <-]).
      exists fwd, bwd. split; [by apply repeat_n_runs|].
      cbv zeta. split; [by apply repeat_n_runs | reflexivity].
    + intros (fwd & bwd & Hfwd & Hbwd & ->). cbv zeta in Hbwd.
      exists fwd. split; [by apply repeat_n_runs|].
      cbv zeta. rewrite copy_eq. apply bind_Ok.
      exists bwd. split; [by apply repeat_n_runs | reflexivity].
  - intros Hwf Hs.
    destruct (compute_cost_gradient_total env initial_state use_source_terms Hwf Hs)
      as (r & Hr & _).
    by exists r.
Qed.

(** C4, witness: the evaluation returns on the square mesh. *)
Lemma cost_gradient_sequence_witness :
  wf_env square_env /\ wf_state square_env unit_pressure_state /\
  exists r, compute_cost_gradient square_env unit_pressure_state true = Ok r.
Proof.
  assert (Hwf : wf_env square_env).
  { constructor; simpl; repeat constructor; simpl; lia. }
  assert (Hst : wf_state square_env unit_pressure_state).
  { split; reflexivity. }
  split; [exact Hwf|]. split; [exact Hst|].
  exact (proj2 (cost_gradient_sequence square_env unit_pressure_state true) Hwf Hst).
Defined.

(** ** The two evaluations of the control energy, value layer *)

Lemma gradient_energy_value (env : Env) (s : State) (r : GradientResult) :
  compute_cost_gradient env s true = Ok r ->
  compute_control_energy env s = Ok (GradientResult_energy r).
Proof.
  unfold compute_cost_gradient, compute_control_energy.
  rewrite bind_Ok. intros (fwd & Hfwd & Hr). rewrite Hfwd. cbn [bind].
  cbv zeta in Hr. apply bind_Ok in Hr as (bwd & _ & [= <-]).
  reflexivity.
Qed.

(** ** C5: one iteration of the conjugate gradient loop *)

Lemma repeat_n_snoc {St : Type} (f : St -> result St) (n : nat) (s : St) :
  repeat_n (S n) f s = bind (repeat_n n f s) f.
Proof.
  revert s. induction n as [|n IH]; intros s.
  - simpl. by destruct (f s).
  - change (repeat_n (S (S n)) f s) with (bind (f s) (repeat_n (S n) f)).
    change (repeat_n (S n) f s) with (bind (f s) (repeat_n n f)).
    destruct (f s) as [s'| |]; simpl; [|done..]. apply IH.
Qed.

(** The tracked [resid_norm_sq] is the squared norm of the residual before
    the loop and after every iteration. *)
Lemma cg_init_norm (env : Env) (s : State) (st0 : CG) :
  cg_init env s = Ok st0 -> resid_norm_sq st0 = dot (residual st0) (residual st0).
Proof.
  unfold cg_init. rewrite bind_Ok. intros (g & _ & H). cbv zeta in H.
  apply bind_Ok in H as (e & _ & [= <-]). reflexivity.
Qed.

Lemma cg_body_norm (env : Env) (st st' : CG) :
  cg_body env st = Ok st' -> resid_norm_sq st' = dot (residual st') (residual st').
Proof.
  unfold cg_body. rewrite bind_Ok. intros (g & _ & H). cbv zeta in H.
  apply bind_Ok in H as (a & _ & H). apply bind_Ok in H as (b & _ & H).
  apply bind_Ok in H as (e & _ & [= <-]). reflexivity.
Qed.

Lemma cg_reachable_norm (env : Env) (s : State) (st0 st : CG) (k : nat) :
  cg_init env s = Ok st0 -> repeat_n k (cg_body env) st0 = Ok st ->
  resid_norm_sq st = dot (residual st) (residual st).
Proof.
  intros Hinit. destruct k as [|k].
  - intros [= <-]. by apply (cg_init_norm env s).
  - rewrite repeat_n_snoc, bind_Ok. intros (prev & _ & Hbody).
    by apply (cg_body_norm env prev).
Qed.

(** C5.  Every iteration of the loop, that is the body run in a state
    reached from the statements before the loop by any number of
    iterations, is the classical conjugate gradient iteration: it returns
    [st'] exactly when [st'] is given by the formulas of section 4.5, with
    [Aw . search_dir_new] as the recorded conjugacy diagnostic. *)
Theorem cg_iteration_classical (env : Env) (initial_state : State) (st0 st : CG) (k : nat) :
  cg_init env initial_state = Ok st0 ->
  repeat_n k (cg_body env) st0 = Ok st ->
  forall st', cg_body env st = Ok st' <-> spec_cg_iteration env st st'.
Proof.
  intros Hinit Hreach st'.
  pose proof (cg_reachable_norm env initial_state st0 st k Hinit Hreach) as Hnorm.
  unfold cg_body, spec_cg_iteration. rewrite <- Hnorm. split.
  - rewrite bind_Ok. intros (g & Hg & H). cbv zeta in H.
    apply bind_Ok in H as (alpha & Halpha & H). apply fdiv_Ok in Halpha as [Hd ->].
    apply bind_Ok in H as (beta & Hbeta & H). apply fdiv_Ok in Hbeta as [Hrr ->].
    apply bind_Ok in H as (e & He & [= <-]).
    exists g, e. cbv zeta. done.
  - intros (g & e & Hg & H). cbv zeta in H. destruct H as (Hd & Hrr & He & ->).
    rewrite Hg. cbn [bind].
    unfold fdiv at 1. destruct (Req_dec_T _ 0) as [?|_]; [contradiction|]. cbn [bind].
    unfold fdiv at 1. destruct (Req_dec_T _ 0) as [?|_]; [contradiction|]. cbn [bind].
    rewrite He. reflexivity.
Qed.

(** ** C6: the end of the conjugate gradient loop *)

Lemma cg_body_step_count (env : Env) (st st' : CG) :
  cg_body env st = Ok st' -> step_count st' = S (step_count st).
Proof.
  unfold cg_body. rewrite bind_Ok. intros (g & _ & H). cbv zeta in H.
  apply bind_Ok in H as (a & _ & H). apply bind_Ok in H as (b & _ & H).
  apply bind_Ok in H as (e & _ & [= <-]). reflexivity.
Qed.

Lemma cg_iterates_step_count (env : Env) (k : nat) (st0 st : CG) :
  repeat_n k (cg_body env) st0 = Ok st -> step_count st = (step_count st0 + k)%nat.
Proof.
  revert st0. induction k as [|k IH]; intros st0; simpl.
  - intros [= <-]. lia.
  - rewrite bind_Ok. intros (st1 & H1 & H2).
    apply IH in H2. apply cg_body_step_count in H1. lia.
Qed.

Lemma cg_loop_stops_after (env : Env) (n : nat) (st0 st : CG) :
  cg_loop env n st0 = Ok st <-> exists k, stops_after env st0 n k st.
Proof.
  revert st0. induction n as [|n IH]; intros st0.
  - simpl. split.
    + intros [= <-]. exists 0%nat. unfold stops_after. simpl.
      split; [lia|]. split; [done|]. split; [intros; lia | by left].
    + intros (k & Hk & Hrun & _). assert (k = 0%nat) as -> by lia.
      simpl in Hrun. done.
  - cbn [cg_loop]. rewrite bind_Ok. split.
    + intros (st1 & H1 & H). apply bind_Ok in H as (c & Hc & H). destruct c.
      * injection H as <-. exists 1%nat. unfold stops_after.
        split; [lia|]. split; [simpl; by rewrite H1|].
        split; [intros; lia|]. right. split; [lia | by left].
      * apply IH in H as (k & Hk & Hrun & Hbefore & Hlast).
        exists (S k). unfold stops_after. split; [lia|].
        split; [simpl; by rewrite H1|]. split.
        -- intros j sj Hj. destruct j as [|j]; [lia|]. simpl. rewrite H1. cbn [bind].
           destruct j as [|j].
           ++ simpl. by intros [= <-].
           ++ apply Hbefore. lia.
        -- right. split; [lia|]. destruct Hlast as [[-> ->]|[_ [?|[-> ?]]]].
           ++ simpl in Hrun. injection Hrun as <-. by right.
           ++ by left.
           ++ by right.
    + intros (k & Hk & Hrun & Hbefore & Hlast).
      destruct k as [|k]; [destruct Hlast as [[_ ?]|[? _]]; lia|].
      simpl in Hrun. apply bind_Ok in Hrun as (st1 & H1 & Hrun).
      exists st1. split; [done|]. destruct k as [|k].
      * simpl in Hrun. injection Hrun as <-.
        destruct Hlast as [[? _]|[_ [Hc|[Hn Hc]]]]; [lia | |]; rewrite Hc; cbn [bind].
        -- done.
        -- assert (n = 0%nat) as -> by lia. done.
      * rewrite (Hbefore 1%nat st1) by (lia || (simpl; by rewrite H1)). cbn [bind].
        apply IH. exists (S k). unfold stops_after. split; [lia|]. split; [done|]. split.
        -- intros j sj Hj Hsj. apply (Hbefore (S j)); [lia|]. simpl. by rewrite H1.
        -- right. split; [lia|]. destruct Hlast as [[? _]|[_ [?|[? ?]]]]; [lia | by left |].
           right. split; [lia | done].
Qed.

Lemma cg_loop_total (env : Env) (n : nat) (st0 : CG) :
  (forall j, (0 < j <= n)%nat ->
     exists sj c, repeat_n j (cg_body env) st0 = Ok sj /\ converged sj = Ok c) ->
  exists st, cg_loop env n st0 = Ok st.
Proof.
  revert st0. induction n as [|n IH]; intros st0 H.
  - by exists st0.
  - destruct (H 1%nat ltac:(lia)) as (st1 & c & H1 & Hc).
    simpl in H1. apply bind_Ok in H1 as (st1' & H1 & [= ->]).
    cbn [cg_loop]. rewrite H1. cbn [bind]. rewrite Hc. cbn [bind].
    destruct c; [by exists st1|]. apply IH. intros j Hj.
    destruct (H (S j) ltac:(lia)) as (sj & cj & Hsj & Hcj).
    exists sj, cj. split; [|done]. simpl in Hsj. by rewrite H1 in Hsj.
Qed.

Lemma converged_true (st : CG) :
  converged st = Ok true <->
  initial_resid_norm_sq st <> 0 /\ resid_norm_sq st / initial_resid_norm_sq st < 1e-4.
Proof.
  unfold converged, stop_condition_sq. split.
  - rewrite bind_Ok. intros (r & Hr & H). apply fdiv_Ok in Hr as [Hnz ->].
    split; [done|]. destruct (Rlt_dec _ _) as [Hlt|]; [lra | discriminate].
  - intros [Hnz Hlt]. unfold fdiv. destruct (Req_dec_T _ 0); [contradiction|]. cbn [bind].
    destruct (Rlt_dec _ _) as [|Hge]; [done|]. exfalso. apply Hge. lra.
Qed.

Lemma cg_init_initial (env : Env) (s : State) (st0 : CG) :
  cg_init env s = Ok st0 -> initial_resid_norm_sq st0 = dot (residual st0) (residual st0).
Proof.
  unfold cg_init. rewrite bind_Ok. intros (g & _ & H). cbv zeta in H.
  apply bind_Ok in H as (e & _ & [= <-]). reflexivity.
Qed.

Lemma cg_body_initial (env : Env) (st st' : CG) :
  cg_body env st = Ok st' -> initial_resid_norm_sq st' = initial_resid_norm_sq st.
Proof.
  unfold cg_body. rewrite bind_Ok. intros (g & _ & H). cbv zeta in H.
  apply bind_Ok in H as (a & _ & H). apply bind_Ok in H as (b & _ & H).
  apply bind_Ok in H as (e & _ & [= <-]). reflexivity.
Qed.

Lemma cg_iterates_initial (env : Env) (k : nat) (st0 st : CG) :
  repeat_n k (cg_body env) st0 = Ok st ->
  initial_resid_norm_sq st = initial_resid_norm_sq st0.
Proof.
  revert st0. induction k as [|k IH]; intros st0; simpl.
  - by intros [= <-].
  - rewrite bind_Ok. intros (st1 & H1 & H2).
    apply IH in H2. apply cg_body_initial in H1. congruence.
Qed.

(** A vector of squared norm zero is orthogonal to every vector. *)
Lemma vdot_self_nonneg (a : vec) : 0 <= vdot a a.
Proof. induction a as [|x a IH]; simpl; [lra | nra]. Qed.

Lemma vdot_self_zero (a b : vec) : vdot a a = 0 -> vdot b a = 0.
Proof.
  revert b. induction a as [|x a IH]; intros b H.
  - apply vdot_nil_r.
  - destruct b as [|y b]; [reflexivity|]. simpl in *.
    pose proof (vdot_self_nonneg a).
    assert (x = 0) as -> by nra. rewrite IH by nra. ring.
Qed.

(** The test divides by [initial_resid_norm_sq].  When that is zero the
    first iteration has already divided by [Aw . search_dir = 0]: the loop
    never reaches the test with a zero denominator. *)
Lemma cg_zero_residual_body (env : Env) (s : State) (st0 : CG) :
  cg_init env s = Ok st0 -> initial_resid_norm_sq st0 = 0 ->
  forall st, cg_body env st0 <> Ok st.
Proof.
  intros Hinit Hzero st Hbody.
  assert (Hr : dot (residual st0) (residual st0) = 0).
  { by rewrite <- (cg_init_initial env s st0 Hinit). }
  assert (Hd : search_dir st0 = residual st0).
  { revert Hinit. unfold cg_init. rewrite bind_Ok. intros (g & _ & H). cbv zeta in H.
    apply bind_Ok in H as (e & _ & [= <-]). cbn [search_dir residual]. apply copy_eq. }
  unfold cg_body in Hbody. apply bind_Ok in Hbody as (g & _ & H). cbv zeta in H.
  apply bind_Ok in H as (alpha & Halpha & _). apply fdiv_Ok in Halpha as [Hnz _].
  apply Hnz. rewrite Hd. unfold dot in *.
  pose proof (vdot_self_nonneg (pressure (residual st0))).
  pose proof (vdot_self_nonneg (flux (residual st0))).
  rewrite !vdot_self_zero by lra. lra.
Qed.

(** C6.  The loop of at most [n] iterations returns [st] exactly when [st]
    is the state after [k <= n] iterations, none of the earlier iterations
    met the stopping test, and either the test was met after the [k]-th
    iteration or [k = n]; the test is met when
    [resid_norm_sq / initial_resid_norm_sq < 1e-4], and in a run from the
    statements before the loop these are the squared norms of the residual
    and of the first residual; the iteration count of the result is [k];
    and the loop returns, with no error, whenever each iteration and each
    test it runs returns, converged or not. *)
Theorem cg_loop_termination (env : Env) (n : nat) (st0 : CG) :
  (forall st, cg_loop env n st0 = Ok st <-> exists k, stops_after env st0 n k st) /\
  (forall st, converged st = Ok true <->
     initial_resid_norm_sq st <> 0 /\
     resid_norm_sq st / initial_resid_norm_sq st < 1e-4) /\
  (forall initial_state k st,
     cg_init env initial_state = Ok st0 -> repeat_n k (cg_body env) st0 = Ok st ->
     resid_norm_sq st = dot (residual st) (residual st) /\
     initial_resid_norm_sq st = dot (residual st0) (residual st0)) /\
  (forall st k, stops_after env st0 n k st -> step_count st = (step_count st0 + k)%nat) /\
  ((forall j, (0 < j <= n)%nat ->
      exists sj c, repeat_n j (cg_body env) st0 = Ok sj /\ converged sj = Ok c) ->
   exists st, cg_loop env n st0 = Ok st).
Proof.
  split; [intros st; apply cg_loop_stops_after|]. split; [apply converged_true|].
  split; [|split].
  - intros initial_state k st Hinit Hrun. split.
    + by apply (cg_reachable_norm env initial_state st0 st k).
    + rewrite (cg_iterates_initial env k st0 st Hrun). by apply (cg_init_initial env initial_state).
  - intros st k (_ & Hrun & _). by apply (cg_iterates_step_count env).
  - apply cg_loop_total.
Qed.

(** ** The optimisation on the triangle mesh *)

Lemma triangle_gradient (p a b c : R) (use_source_terms : bool) :
  let p1 := p + 2 * a - 2 * b + 2 * c in
  compute_cost_gradient triangle_env {| pressure := [p]; flux := [a; b; c] |} use_source_terms
  = Ok {| gradient :=
            {| pressure := [3 * p1];
               flux := [8 * p1 - 2 * p; - (8 * p1 - 2 * p); 8 * p1 - 2 * p] |};
          forward_diff :=
            {| pressure := [p1 - p]; flux := [p1; - p1; p1] |} |}.
Proof.
  destruct use_source_terms; eval_reals; struct_eq; lra.
Qed.

Lemma triangle_control_energy (p a b c : R) :
  let p1 := p + 2 * a - 2 * b + 2 * c in
  compute_control_energy triangle_env {| pressure := [p]; flux := [a; b; c] |}
  = Ok (((p1 - p) ^ 2 + 3 * p1 ^ 2) / 2).
Proof.
  eval_reals. f_equal. lra.
Qed.

Lemma triangle_cg_init : cg_init triangle_env triangle_state = Ok triangle_cg0.
Proof.
  unfold cg_init, triangle_state, copy. cbn [pressure flux].
  rewrite triangle_gradient, triangle_control_energy. cbn [bind].
  unfold triangle_cg0, triangle_state. eval_reals. struct_eq; lra.
Qed.

Lemma triangle_cg_body : cg_body triangle_env triangle_cg0 = Ok triangle_cg1.
Proof.
  unfold cg_body, triangle_cg0. cbn [search_dir residual approx_solution resid_norm_sq].
  rewrite triangle_gradient. cbn [bind gradient].
  assert (Hd : dot {| pressure := [3 * (-3 + 2 * -6 - 2 * 6 + 2 * -6)];
                      flux := [8 * (-3 + 2 * -6 - 2 * 6 + 2 * -6) - 2 * -3;
                               - (8 * (-3 + 2 * -6 - 2 * 6 + 2 * -6) - 2 * -3);
                               8 * (-3 + 2 * -6 - 2 * 6 + 2 * -6) - 2 * -3] |}
                   {| pressure := [-3]; flux := [-6; 6; -6] |} = 5859).
  { eval_reals. lra. }
  rewrite Hd. unfold fdiv at 1. destruct (Req_dec_T 5859 0) as [?|_]; [lra|]. cbn [bind].
  unfold fdiv at 1. destruct (Req_dec_T 117 0) as [?|_]; [lra|]. cbn [bind].
  unfold add, sub, scaled, triangle_state. cbn [pressure flux vadd vsub vscale zip_with map].
  rewrite triangle_control_energy. cbn [bind].
  unfold triangle_cg1. eval_reals. struct_eq; lra.
Qed.

(** C5, witness: the first iteration on the triangle mesh is the classical
    one. *)
Lemma cg_iteration_classical_witness :
  cg_init triangle_env triangle_state = Ok triangle_cg0 /\
  repeat_n 0 (cg_body triangle_env) triangle_cg0 = Ok triangle_cg0 /\
  cg_body triangle_env triangle_cg0 = Ok triangle_cg1 /\
  spec_cg_iteration triangle_env triangle_cg0 triangle_cg1.
Proof.
  split; [apply triangle_cg_init|]. split; [reflexivity|]. split; [apply triangle_cg_body|].
  apply (cg_iteration_classical triangle_env triangle_state triangle_cg0 triangle_cg0 0
           triangle_cg_init eq_refl triangle_cg1).
  apply triangle_cg_body.
Defined.

Lemma triangle_not_converged : converged triangle_cg1 = Ok false.
Proof.
  unfold converged, triangle_cg1, stop_condition_sq. cbn [resid_norm_sq initial_resid_norm_sq].
  unfold fdiv. destruct (Req_dec_T 117 0) as [?|_]; [lra|]. cbn [bind].
  destruct (Rlt_dec _ _) as [Hlt|_]; [exfalso; lra | reflexivity].
Qed.

(** C6, witness: on the triangle mesh the loop of one iteration returns,
    not converged, after one iteration. *)
Lemma cg_loop_termination_witness :
  (forall j, (0 < j <= 1)%nat ->
     exists sj c, repeat_n j (cg_body triangle_env) triangle_cg0 = Ok sj /\
                  converged sj = Ok c) /\
  exists st, cg_loop triangle_env 1 triangle_cg0 = Ok st.
Proof.
  assert (H : forall j, (0 < j <= 1)%nat ->
     exists sj c, repeat_n j (cg_body triangle_env) triangle_cg0 = Ok sj /\
                  converged sj = Ok c).
  { intros j Hj. assert (j = 1%nat) as -> by lia.
    exists triangle_cg1, false. simpl. rewrite triangle_cg_body.
    split; [reflexivity | apply triangle_not_converged]. }
  split; [exact H|].
  exact (proj2 (proj2 (proj2 (proj2 (cg_loop_termination triangle_env 1 triangle_cg0)))) H).
Defined.

(** ** The zero state *)

Lemma matvec_zeros (A : matrix) (n : nat) : matvec A (zeros n) = zeros (length A).
Proof.
  unfold matvec, zeros. induction A as [|row A IH]; simpl; [done|].
  rewrite IH. f_equal. apply vdot_zeros_r.
Qed.

Lemma vadd_zeros (n : nat) : vadd (zeros n) (zeros n) = zeros n.
Proof. unfold vadd, zeros. induction n; simpl; [done|]. rewrite IHn. f_equal. ring. Qed.

Lemma vsub_zeros (n : nat) : vsub (zeros n) (zeros n) = zeros n.
Proof. unfold vsub, zeros. induction n; simpl; [done|]. rewrite IHn. f_equal. ring. Qed.

Lemma vneg_zeros (n : nat) : vneg (zeros n) = zeros n.
Proof. unfold vneg, zeros. induction n; simpl; [done|]. rewrite IHn. f_equal. ring. Qed.

Lemma nth_zeros (i n : nat) : nth i (zeros n) 0 = 0.
Proof.
  unfold zeros. revert i. induction n; intros [|i]; simpl; auto.
Qed.

Lemma insert_zeros (k n : nat) : <[k := 0]> (zeros n) = zeros n.
Proof.
  unfold zeros. revert k. induction n; intros [|k]; simpl; auto. by rewrite IHn.
Qed.

Lemma overwrite_zeros {X : Type} (key : X -> nat) (val : X -> R) (xs : list X) (n : nat) :
  (forall x, val x = 0) -> overwrite key val xs (zeros n) = zeros n.
Proof.
  intros H. unfold overwrite. induction xs as [|x xs IH]; simpl; [done|].
  by rewrite H, insert_zeros.
Qed.

Lemma absorbing_flux_zeros (sign : R) (n : nat) (item : nat * BoundaryEdgeInfo.t) :
  absorbing_flux sign (zeros n) item = 0.
Proof. unfold absorbing_flux. rewrite nth_zeros. ring. Qed.

(** Without a source, forward and backward steps keep the zero state. *)
Lemma spec_forward_step_zero (env : Env) (src : R -> R) (t : R) :
  wf_env env -> inner_bound_edges env = [] ->
  spec_forward_step env src {| ForwardSolve.state := zero_state env; ForwardSolve.time := t |}
  = {| ForwardSolve.state := zero_state env; ForwardSolve.time := t + dt env |}.
Proof.
  intros Hwf Hin. unfold spec_forward_step, zero_state. simpl.
  destruct (wf_p_step_mat env Hwf) as [HP _]. destruct (wf_q_step_mat env Hwf) as [HQ _].
  rewrite Hin. unfold overwrite at 2. simpl.
  rewrite !matvec_zeros, HP, !vadd_zeros, !matvec_zeros, HQ, !vadd_zeros.
  rewrite overwrite_zeros by (intros; apply absorbing_flux_zeros). reflexivity.
Qed.

Lemma spec_backward_step_zero (env : Env) :
  wf_env env ->
  spec_backward_step env {| BackwardSolve.state := zero_state env |}
  = {| BackwardSolve.state := zero_state env |}.
Proof.
  intros Hwf. unfold spec_backward_step, zero_state. simpl.
  rewrite !matvec_zeros, (length_p_step_mat_T env Hwf), !vadd_zeros.
  rewrite (overwrite_zeros (fun e => e)) by done.
  rewrite overwrite_zeros by (intros; apply absorbing_flux_zeros).
  rewrite matvec_zeros, (length_q_step_mat_T env Hwf), vadd_zeros. reflexivity.
Qed.

Lemma wf_zero_state (env : Env) : wf_state env (zero_state env).
Proof. split; apply length_zeros. Qed.

Lemma forward_run_zero (env : Env) (src : R -> R) (n : nat) (t : R) :
  wf_env env -> inner_bound_edges env = [] ->
  exists t',
    repeat_n n (ForwardSolve.step env src)
      {| ForwardSolve.state := zero_state env; ForwardSolve.time := t |}
    = Ok {| ForwardSolve.state := zero_state env; ForwardSolve.time := t' |}.
Proof.
  intros Hwf Hin. revert t. induction n as [|n IH]; intros t; simpl.
  - by exists t.
  - rewrite forward_step_Ok by (done || apply wf_zero_state).
    rewrite spec_forward_step_zero by done. cbn [bind]. apply IH.
Qed.

Lemma backward_run_zero (env : Env) (n : nat) :
  wf_env env ->
  repeat_n n (BackwardSolve.step env) {| BackwardSolve.state := zero_state env |}
  = Ok {| BackwardSolve.state := zero_state env |}.
Proof.
  intros Hwf. induction n as [|n IH]; simpl; [done|].
  rewrite backward_step_Ok by (done || apply wf_zero_state).
  rewrite spec_backward_step_zero by done. cbn [bind]. apply IH.
Qed.

Lemma sub_zero_state (env : Env) : sub (zero_state env) (zero_state env) = zero_state env.
Proof. unfold sub, zero_state. simpl. by rewrite !vsub_zeros. Qed.

Lemma neg_zero_state (env : Env) : neg (zero_state env) = zero_state env.
Proof. unfold neg, zero_state. simpl. by rewrite !vneg_zeros. Qed.

Lemma dot_zero_state (env : Env) (s : State) : dot s (zero_state env) = 0.
Proof. unfold dot, zero_state. simpl. rewrite !vdot_zeros_r. ring. Qed.

Lemma compute_cost_gradient_zero (env : Env) (b : bool) :
  wf_env env -> inner_bound_edges env = [] ->
  compute_cost_gradient env (zero_state env) b
  = Ok {| gradient := zero_state env; forward_diff := zero_state env |}.
Proof.
  intros Hwf Hin. unfold compute_cost_gradient. rewrite copy_eq.
  destruct (forward_run_zero env (if b then fun _ : R => 1 else fun _ : R => 0)
              (steps_per_period env) 0 Hwf Hin) as [t' ->].
  cbn [bind ForwardSolve.state]. rewrite copy_eq, sub_zero_state.
  replace {| pressure := _; flux := vneg (flux (zero_state env)) |} with (zero_state env).
  2:{ unfold zero_state. cbn [pressure flux].
      by rewrite vneg_zeros, matvec_zeros, (length_q_step_mat_T env Hwf), vsub_zeros. }
  rewrite backward_run_zero by done. cbn [bind BackwardSolve.state].
  replace {| pressure := vneg _; flux := _ |} with (zero_state env).
  2:{ unfold zero_state. cbn [pressure flux].
      by rewrite vneg_zeros, matvec_zeros, (length_p_step_mat_T env Hwf),
           vneg_zeros, vsub_zeros. }
  by rewrite sub_zero_state.
Qed.

Lemma compute_control_energy_zero (env : Env) :
  wf_env env -> inner_bound_edges env = [] ->
  compute_control_energy env (zero_state env) = Ok 0.
Proof.
  intros Hwf Hin. unfold compute_control_energy. rewrite copy_eq.
  destruct (forward_run_zero env (fun _ => 1) (steps_per_period env) 0 Hwf Hin) as [t' ->].
  cbn [bind ForwardSolve.state]. rewrite sub_zero_state.
  unfold energy. rewrite dot_zero_state. f_equal. lra.
Qed.

(** ** C7: where a division by zero can happen *)

Lemma bind_NonFinite {A B : Type} (m : result A) (k : A -> result B) :
  bind m k = NonFinite <-> m = NonFinite \/ exists a, m = Ok a /\ k a = NonFinite.
Proof.
  destruct m as [a| |]; simpl; split.
  - intros H. right. by exists a.
  - intros [?|(a' & [= <-] & ?)]; [discriminate | done].
  - discriminate.
  - intros [?|(a' & ? & _)]; discriminate.
  - by left.
  - done.
Qed.

Lemma getitem_finite {A : Type} (a : list A) (i : nat) : getitem a i <> NonFinite.
Proof. unfold getitem. by destruct (a !! i). Qed.

Lemma setitem_finite {A : Type} (a : list A) (i : nat) (x : A) : setitem a i x <> NonFinite.
Proof. unfold setitem. by destruct (i <? length a)%nat. Qed.

(** The edge-flux evaluation is never the outcome of a division by zero. *)
Lemma eval_inc_wave_flux_finite (env : Env) (t : R) (verts : nat * nat) :
  eval_inc_wave_flux env t verts <> NonFinite.
Proof.
  destruct verts as [v0 v1]. unfold eval_inc_wave_flux. cbn [fst snd].
  destruct (getitem (vertices env) v0) as [p0| |] eqn:H0; cbn [bind]; [|done|].
  2:{ by apply getitem_finite in H0. }
  destruct (getitem (vertices env) v1) as [p1| |] eqn:H1; cbn [bind]; [|done|].
  2:{ by apply getitem_finite in H1. }
  apply getitem_Ok in H0, H1.
  pose proof (eval_inc_wave_flux_value env t v0 v1 p0 p1 H0 H1) as H.
  unfold eval_inc_wave_flux in H. cbn [fst snd] in H.
  apply getitem_Ok in H0, H1. rewrite H0, H1 in H. cbn [bind] in H. by rewrite H.
Qed.

Lemma for_each_finite {A St : Type} (xs : list A) (body : A -> St -> result St) (s : St) :
  (forall x s, body x s <> NonFinite) -> for_each xs body s <> NonFinite.
Proof.
  intros H. revert s. induction xs as [|x xs IH]; intros s; simpl; [done|].
  intros Hb. apply bind_NonFinite in Hb as [Hb|(s' & _ & Hb)].
  - by apply (H x s).
  - by apply (IH s').
Qed.

Lemma repeat_n_finite {St : Type} (n : nat) (body : St -> result St) (s : St) :
  (forall s, body s <> NonFinite) -> repeat_n n body s <> NonFinite.
Proof.
  intros H. revert s. induction n as [|n IH]; intros s; simpl; [done|].
  intros Hb. apply bind_NonFinite in Hb as [Hb|(s' & _ & Hb)].
  - by apply (H s).
  - by apply (IH s').
Qed.

Lemma forward_step_finite (env : Env) (src : R -> R) (self : ForwardSolve.t) :
  ForwardSolve.step env src self <> NonFinite.
Proof.
  unfold ForwardSolve.step. intros H.
  apply bind_NonFinite in H as [H|(fl & _ & H)].
  - revert H. apply for_each_finite. intros e fl H. unfold ForwardSolve.inner_body in H.
    apply bind_NonFinite in H as [H|(verts & _ & H)]; [by apply getitem_finite in H|].
    apply bind_NonFinite in H as [H|(w & _ & H)];
      [by apply eval_inc_wave_flux_finite in H | by apply setitem_finite in H].
  - apply bind_NonFinite in H as [H|(fl' & _ & H)]; [|done].
    revert H. apply for_each_finite. intros [e info] fl0 H. unfold ForwardSolve.outer_body in H.
    apply bind_NonFinite in H as [H|(p & _ & H)];
      [by apply getitem_finite in H | by apply setitem_finite in H].
Qed.

Lemma backward_step_finite (env : Env) (self : BackwardSolve.t) :
  BackwardSolve.step env self <> NonFinite.
Proof.
  unfold BackwardSolve.step. intros H.
  apply bind_NonFinite in H as [H|(fl & _ & H)].
  - revert H. apply for_each_finite. intros e fl. apply setitem_finite.
  - apply bind_NonFinite in H as [H|(fl' & _ & H)]; [|done].
    revert H. apply for_each_finite. intros [e info] fl0 H. unfold BackwardSolve.outer_body in H.
    apply bind_NonFinite in H as [H|(p & _ & H)];
      [by apply getitem_finite in H | by apply setitem_finite in H].
Qed.

Lemma compute_cost_gradient_finite (env : Env) (s : State) (b : bool) :
  compute_cost_gradient env s b <> NonFinite.
Proof.
  unfold compute_cost_gradient. intros H.
  apply bind_NonFinite in H as [H|(fwd & _ & H)].
  - revert H. apply repeat_n_finite. intros x. apply forward_step_finite.
  - cbv zeta in H. apply bind_NonFinite in H as [H|(bwd & _ & H)]; [|done].
    revert H. apply repeat_n_finite. intros x. apply backward_step_finite.
Qed.

Lemma compute_control_energy_finite (env : Env) (s : State) :
  compute_control_energy env s <> NonFinite.
Proof.
  unfold compute_control_energy. intros H.
  apply bind_NonFinite in H as [H|(fwd & _ & H)]; [|done].
  revert H. apply repeat_n_finite. intros x. apply forward_step_finite.
Qed.

Lemma fdiv_NonFinite (x y : R) : fdiv x y = NonFinite <-> y = 0.
Proof.
  unfold fdiv. destruct (Req_dec_T y 0); split; try done.
Qed.

Lemma cg_body_NonFinite (env : Env) (st : CG) :
  cg_body env st = NonFinite <->
  exists g, compute_cost_gradient env (search_dir st) false = Ok g /\
            (dot (gradient g) (search_dir st) = 0 \/ resid_norm_sq st = 0).
Proof.
  unfold cg_body. rewrite bind_NonFinite. split.
  - intros [H|(g & Hg & H)]; [by apply compute_cost_gradient_finite in H|].
    exists g. split; [done|]. cbv zeta in H.
    apply bind_NonFinite in H as [H|(alpha & _ & H)]; [left; by apply fdiv_NonFinite in H|].
    apply bind_NonFinite in H as [H|(beta & _ & H)]; [right; by apply fdiv_NonFinite in H|].
    apply bind_NonFinite in H as [H|(e & _ & H)]; [|done].
    by apply compute_control_energy_finite in H.
  - intros (g & Hg & H). right. exists g. split; [done|]. cbv zeta.
    destruct (Req_dec_T (dot (gradient g) (search_dir st)) 0) as [Hz|Hnz].
    + rewrite Hz, fdiv_zero. reflexivity.
    + destruct H as [?|Hrr]; [contradiction|].
      apply bind_NonFinite. right. eexists. split; [by apply fdiv_Ok|].
      rewrite Hrr, fdiv_zero. reflexivity.
Qed.

(** C7, amended.  The edge-flux evaluation guards its division: below the
    threshold [1e-5] on [|k.l|] it returns the limit formula without
    dividing, otherwise it divides by a [k.l] that is not zero, so it is
    never the outcome of a division by zero.  The divisions of the
    conjugate gradient iteration are not guarded: the iteration divides by
    [Aw . search_dir] and by the squared norm of the residual whatever
    their values, and is the outcome of a division by zero exactly when one
    of them is zero. *)
Theorem division_guards (env : Env) :
  (forall t verts, eval_inc_wave_flux env t verts <> NonFinite) /\
  (forall t v0 v1 p0 p1,
     vertices env !! v0 = Some p0 -> vertices env !! v1 = Some p1 ->
     let l := (fst p1 - fst p0, snd p1 - snd p0) in
     let kdotl := dot2 (inc_wave_vector env) l in
     let kdotn := dot2 (inc_wave_vector env) (snd l, - fst l) in
     let phase := inc_angular_vel env * t - dot2 (inc_wave_vector env) p0 in
     (Rabs kdotl < 1e-5 ->
      eval_inc_wave_flux env t (v0, v1) = Ok (- kdotn * sin phase)) /\
     (~ Rabs kdotl < 1e-5 ->
      kdotl <> 0 /\
      eval_inc_wave_flux env t (v0, v1) = Ok (kdotn / kdotl * (cos phase - cos (phase - kdotl))))) /\
  (forall st,
     cg_body env st = NonFinite <->
     exists g, compute_cost_gradient env (search_dir st) false = Ok g /\
               (dot (gradient g) (search_dir st) = 0 \/ resid_norm_sq st = 0)).
Proof.
  split; [intros t verts; apply eval_inc_wave_flux_finite|]. split; [|apply cg_body_NonFinite].
  intros t v0 v1 p0 p1 H0 H1. cbv zeta.
  rewrite (eval_inc_wave_flux_value env t v0 v1 p0 p1 H0 H1).
  unfold inc_wave_flux_formula. split.
  - intros Hlt. destruct (Rlt_dec _ _); [reflexivity | contradiction].
  - intros Hge. split.
    + intros Hz. apply Hge. rewrite Hz, Rabs_R0. lra.
    + destruct (Rlt_dec _ _); [contradiction | reflexivity].
Qed.

Lemma wf_no_scatterer_env : wf_env no_scatterer_env.
Proof. constructor; simpl; repeat constructor; simpl; lia. Qed.

(** C7, as stated, fails: on the square mesh without a scatterer, started
    from the zero state, the first iteration of the conjugate gradient loop
    divides 0 by [Aw . search_dir = 0], with no guard, and the run is
    the outcome of a division by zero. *)
Lemma cg_division_unguarded :
  exists st0 g,
    cg_init no_scatterer_env (zero_state no_scatterer_env) = Ok st0 /\
    compute_cost_gradient no_scatterer_env (search_dir st0) false = Ok g /\
    resid_norm_sq st0 = 0 /\
    dot (gradient g) (search_dir st0) = 0 /\
    cg_body no_scatterer_env st0 = NonFinite /\
    cg_run no_scatterer_env (zero_state no_scatterer_env) = NonFinite.
Proof.
  pose proof wf_no_scatterer_env as Hwf.
  assert (Hin : inner_bound_edges no_scatterer_env = []) by reflexivity.
  assert (Hinit : cg_init no_scatterer_env (zero_state no_scatterer_env)
                  = Ok {| approx_solution := zero_state no_scatterer_env;
                          residual := zero_state no_scatterer_env;
                          initial_resid_norm_sq := 0;
                          resid_norm_sq := 0;
                          search_dir := zero_state no_scatterer_env;
                          control_energies := [0];
                          resid_norms := [sqrt 0];
                          a_inner_prods := [0];
                          step_count := 0 |}).
  { unfold cg_init. rewrite !copy_eq, compute_cost_gradient_zero by done.
    cbn [bind gradient]. rewrite neg_zero_state, copy_eq, compute_control_energy_zero by done.
    cbn [bind]. by rewrite dot_zero_state. }
  assert (Hbody : cg_body no_scatterer_env
                    {| approx_solution := zero_state no_scatterer_env;
                       residual := zero_state no_scatterer_env;
                       initial_resid_norm_sq := 0;
                       resid_norm_sq := 0;
                       search_dir := zero_state no_scatterer_env;
                       control_energies := [0];
                       resid_norms := [sqrt 0];
                       a_inner_prods := [0];
                       step_count := 0 |} = NonFinite).
  { unfold cg_body. cbn [search_dir resid_norm_sq].
    rewrite compute_cost_gradient_zero by done. cbn [bind gradient].
    by rewrite dot_zero_state, fdiv_zero. }
  eexists _, _. split; [exact Hinit|]. cbn [search_dir resid_norm_sq].
  split; [by apply compute_cost_gradient_zero|]. split; [reflexivity|].
  split; [apply dot_zero_state|]. split; [exact Hbody|].
  unfold cg_run. rewrite Hinit. cbn [bind]. change (max_iters no_scatterer_env) with 50%nat.
  cbn [cg_loop]. by rewrite Hbody.
Qed.

(** C7, witness of the amended statement: the edge (0,1) of the square mesh
    is perpendicular to the wave vector of the default angle of 90 degrees,
    and the evaluation takes the limit formula. *)
Lemma division_guards_witness :
  vertices square_env !! 0%nat = Some (0, 0) /\
  vertices square_env !! 1%nat = Some (1, 0) /\
  Rabs (dot2 (inc_wave_vector square_env) (1 - 0, 0 - 0)) < 1e-5 /\
  eval_inc_wave_flux square_env 0 (0%nat, 1%nat)
  = Ok (- dot2 (inc_wave_vector square_env) (0 - 0, - (1 - 0))
        * sin (inc_angular_vel square_env * 0 - dot2 (inc_wave_vector square_env) (0, 0))).
Proof.
  assert (H0 : vertices square_env !! 0%nat = Some (0, 0)) by reflexivity.
  assert (H1 : vertices square_env !! 1%nat = Some (1, 0)) by reflexivity.
  assert (Hlt : Rabs (dot2 (inc_wave_vector square_env) (1 - 0, 0 - 0)) < 1e-5).
  { unfold dot2, inc_wave_vector, inc_wave_dir, inc_angle. simpl.
    replace (90 * 2 * PI / 360) with (PI / 2) by lra. rewrite cos_PI2.
    replace (1 * 0 * (1 - 0) + 1 * sin (PI / 2) * (0 - 0)) with 0 by ring.
    rewrite Rabs_R0. lra. }
  split; [exact H0|]. split; [exact H1|]. split; [exact Hlt|].
  exact (proj1 (proj1 (proj2 (division_guards square_env)) 0 0%nat 1%nat (0, 0) (1, 0) H0 H1)
           Hlt).
Defined.

(** ** The store layer computes what the value layer computes *)

Lemma store_load (h : list (list R)) (r : nat) (a : list R) :
  h !! r = Some a -> Store.load r h = Ok (a, h).
Proof. intros H. unfold Store.load. by rewrite H. Qed.

Lemma store_store_at (h : list (list R)) (r : nat) (a : list R) :
  (r < length h)%nat -> Store.store_at r a h = Ok (tt, <[r := a]> h).
Proof.
  intros H. unfold Store.store_at. destruct (Nat.ltb_spec r (length h)); [done | lia].
Qed.

Lemma store_iadd_at (h : list (list R)) (r : nat) (a b : list R) :
  h !! r = Some a -> Store.iadd_at r b h = Ok (tt, <[r := vadd a b]> h).
Proof.
  intros H. unfold Store.iadd_at, Store.bind. rewrite (store_load h r a H).
  apply store_store_at. by apply lookup_lt_Some in H.
Qed.

Lemma store_setitem_at (h : list (list R)) (r i : nat) (x : R) (a : list R) :
  h !! r = Some a ->
  Store.setitem_at r i x h = result_map (fun a' => (tt, <[r := a']> h)) (setitem a i x).
Proof.
  intros H. unfold Store.setitem_at, Store.bind. rewrite (store_load h r a H).
  unfold Store.lift. destruct (setitem a i x) as [a'| |]; simpl; [|done..].
  apply store_store_at. by apply lookup_lt_Some in H.
Qed.

(** A loop whose body changes the one cell [r]. *)
Lemma store_for_each_cell {A : Type} (xs : list A) (sbody : A -> Store.M unit)
    (vbody : A -> list R -> result (list R)) (r : nat) (h : list (list R)) (a : list R) :
  (r < length h)%nat ->
  (forall x a, sbody x (<[r := a]> h)
               = result_map (fun a' => (tt, <[r := a']> h)) (vbody x a)) ->
  Store.for_each xs sbody (<[r := a]> h)
  = result_map (fun a' => (tt, <[r := a']> h)) (for_each xs vbody a).
Proof.
  intros Hr Hbody. revert a. induction xs as [|x xs IH]; intros a; simpl; [done|].
  unfold Store.bind. rewrite Hbody.
  destruct (vbody x a) as [a'| |]; simpl; [|done..]. apply IH.
Qed.

Lemma store_forward_step (env : Env) (src : R -> R) (sr : Store.State) (t : R)
    (h : list (list R)) (pv qv : list R) :
  h !! Store.pressure_ref sr = Some pv -> h !! Store.flux_ref sr = Some qv ->
  Store.pressure_ref sr <> Store.flux_ref sr ->
  Store.ForwardSolve_step env src {| Store.fwd_state := sr; Store.fwd_time := t |} h
  = result_map
      (fun self' =>
         ({| Store.fwd_state := sr; Store.fwd_time := ForwardSolve.time self' |},
          <[Store.flux_ref sr := flux (ForwardSolve.state self')]>
            (<[Store.pressure_ref sr := pressure (ForwardSolve.state self')]> h)))
      (ForwardSolve.step env src
         {| ForwardSolve.state := {| pressure := pv; flux := qv |}; ForwardSolve.time := t |}).
Proof.
  intros Hp Hq Hne.
  pose proof (lookup_lt_Some _ _ _ Hp) as Hpl. pose proof (lookup_lt_Some _ _ _ Hq) as Hql.
  set (rp := Store.pressure_ref sr) in *. set (rq := Store.flux_ref sr) in *.
  unfold Store.ForwardSolve_step, ForwardSolve.step.
  cbn [Store.fwd_state Store.fwd_time ForwardSolve.state ForwardSolve.time pressure flux].
  fold rp rq.
  set (p1 := vadd pv (matvec (p_step_mat env) qv)).
  set (flux1 := vadd qv (matvec (q_step_mat env) p1)).
  set (t_at_w := t + dt env + 0.5 * dt env).
  set (h1 := <[rp := p1]> h).
  assert (Hh1p : h1 !! rp = Some p1) by (by apply list_lookup_insert_eq).
  assert (Hh1q : h1 !! rq = Some qv) by (unfold h1; by rewrite list_lookup_insert_ne).
  assert (Hh1l : (rq < length h1)%nat) by (unfold h1; by rewrite length_insert).
  unfold Store.bind at 1. rewrite (store_load h rq qv Hq).
  unfold Store.bind at 1. rewrite (store_iadd_at h rp pv _ Hp). fold p1 h1.
  unfold Store.bind at 1. rewrite (store_load h1 rp p1 Hh1p).
  unfold Store.bind at 1. rewrite (store_iadd_at h1 rq qv _ Hh1q). fold flux1.
  unfold Store.bind at 1.
  rewrite (store_for_each_cell _ _ (ForwardSolve.inner_body env src t_at_w) rq h1 flux1 Hh1l).
  2:{ intros e a. unfold Store.bind, Store.lift, ForwardSolve.inner_body.
      destruct (getitem (simplices env) e) as [verts| |]; simpl; [|done..].
      destruct (eval_inc_wave_flux env t_at_w verts) as [w| |]; simpl; [|done..].
      rewrite (store_setitem_at _ rq e _ a) by (by apply list_lookup_insert_eq).
      destruct (setitem a e _); simpl; [|done..]. by rewrite list_insert_insert_eq. }
  destruct (for_each (inner_bound_edges env) _ flux1) as [flux2| |]; simpl; [|done..].
  unfold Store.bind at 1.
  rewrite (store_for_each_cell _ _ (ForwardSolve.outer_body p1) rq h1 flux2 Hh1l).
  2:{ intros [e info] a. unfold Store.bind, Store.lift, ForwardSolve.outer_body. cbn [fst snd].
      rewrite (store_load _ rp p1) by (by rewrite list_lookup_insert_ne).
      destruct (getitem p1 _) as [p| |]; simpl; [|done..].
      rewrite (store_setitem_at _ rq e _ a) by (by apply list_lookup_insert_eq).
      destruct (setitem a e _); simpl; [|done..]. by rewrite list_insert_insert_eq. }
  destruct (for_each (zip _ _) _ flux2) as [flux3| |]; simpl; [|done..].
  reflexivity.
Qed.

Lemma store_backward_step (env : Env) (sr : Store.State) (h : list (list R)) (pv qv : list R) :
  h !! Store.pressure_ref sr = Some pv -> h !! Store.flux_ref sr = Some qv ->
  Store.pressure_ref sr <> Store.flux_ref sr ->
  Store.BackwardSolve_step env {| Store.bwd_state := sr |} h
  = result_map
      (fun self' =>
         ({| Store.bwd_state := sr |},
          <[Store.flux_ref sr := flux (BackwardSolve.state self')]>
            (<[Store.pressure_ref sr := pressure (BackwardSolve.state self')]> h)))
      (BackwardSolve.step env
         {| BackwardSolve.state := {| pressure := pv; flux := qv |} |}).
Proof.
  intros Hp Hq Hne.
  pose proof (lookup_lt_Some _ _ _ Hp) as Hpl. pose proof (lookup_lt_Some _ _ _ Hq) as Hql.
  set (rp := Store.pressure_ref sr) in *. set (rq := Store.flux_ref sr) in *.
  unfold Store.BackwardSolve_step, BackwardSolve.step.
  cbn [Store.bwd_state BackwardSolve.state pressure flux].
  fold rp rq.
  set (flux1 := vadd qv (matvec (p_step_mat_T env) pv)).
  unfold Store.bind at 1. rewrite (store_load h rp pv Hp).
  unfold Store.bind at 1. rewrite (store_iadd_at h rq qv _ Hq). fold flux1.
  unfold Store.bind at 1.
  rewrite (store_for_each_cell _ _ BackwardSolve.inner_body rq h flux1 Hql).
  2:{ intros e a. unfold BackwardSolve.inner_body.
      rewrite (store_setitem_at _ rq e _ a) by (by apply list_lookup_insert_eq).
      destruct (setitem a e _); simpl; [|done..]. by rewrite list_insert_insert_eq. }
  destruct (for_each (inner_bound_edges env) _ flux1) as [flux2| |]; simpl; [|done..].
  unfold Store.bind at 1.
  rewrite (store_for_each_cell _ _ (BackwardSolve.outer_body pv) rq h flux2 Hql).
  2:{ intros [e info] a. unfold Store.bind, Store.lift, BackwardSolve.outer_body. cbn [fst snd].
      rewrite (store_load _ rp pv) by (by rewrite list_lookup_insert_ne).
      destruct (getitem pv _) as [p| |]; simpl; [|done..].
      rewrite (store_setitem_at _ rq e _ a) by (by apply list_lookup_insert_eq).
      destruct (setitem a e _); simpl; [|done..]. by rewrite list_insert_insert_eq. }
  destruct (for_each (zip _ _) _ flux2) as [flux3| |]; simpl; [|done..].
  set (h3 := <[rq := flux3]> h).
  unfold Store.bind at 1. rewrite (store_load h3 rq flux3) by (by apply list_lookup_insert_eq).
  unfold Store.bind at 1.
  rewrite (store_iadd_at h3 rp pv) by (unfold h3; by rewrite list_lookup_insert_ne).
  unfold Store.ret, h3. by rewrite list_insert_insert_ne.
Qed.

Lemma store_forward_run (env : Env) (src : R -> R) (sr : Store.State) (n : nat) (t : R)
    (h : list (list R)) (pv qv : list R) :
  h !! Store.pressure_ref sr = Some pv -> h !! Store.flux_ref sr = Some qv ->
  Store.pressure_ref sr <> Store.flux_ref sr ->
  Store.repeat_n n (Store.ForwardSolve_step env src)
    {| Store.fwd_state := sr; Store.fwd_time := t |} h
  = result_map
      (fun self' =>
         ({| Store.fwd_state := sr; Store.fwd_time := ForwardSolve.time self' |},
          <[Store.flux_ref sr := flux (ForwardSolve.state self')]>
            (<[Store.pressure_ref sr := pressure (ForwardSolve.state self')]> h)))
      (repeat_n n (ForwardSolve.step env src)
         {| ForwardSolve.state := {| pressure := pv; flux := qv |}; ForwardSolve.time := t |}).
Proof.
  intros Hp Hq Hne. revert t h pv qv Hp Hq.
  induction n as [|n IH]; intros t h pv qv Hp Hq.
  - simpl. unfold Store.ret. by rewrite (list_insert_id h _ pv), (list_insert_id h _ qv).
  - cbn [Store.repeat_n repeat_n]. unfold Store.bind.
    rewrite (store_forward_step env src sr t h pv qv Hp Hq Hne).
    destruct (ForwardSolve.step env src _) as [[[p1 q1] t1]| |]; simpl; [|done..].
    pose proof (lookup_lt_Some _ _ _ Hp) as Hpl. pose proof (lookup_lt_Some _ _ _ Hq) as Hql.
    rewrite (IH t1 _ p1 q1).
    + destruct (repeat_n n _ _) as [[[p2 q2] t2]| |]; simpl; [|done..].
      do 2 f_equal.
      rewrite (list_insert_insert_ne _ (Store.pressure_ref sr) (Store.flux_ref sr)) by done.
      by rewrite !list_insert_insert_eq.
    + rewrite list_lookup_insert_ne by done. by apply list_lookup_insert_eq.
    + apply list_lookup_insert_eq. by rewrite length_insert.
Qed.

Lemma store_backward_run (env : Env) (sr : Store.State) (n : nat)
    (h : list (list R)) (pv qv : list R) :
  h !! Store.pressure_ref sr = Some pv -> h !! Store.flux_ref sr = Some qv ->
  Store.pressure_ref sr <> Store.flux_ref sr ->
  Store.repeat_n n (Store.BackwardSolve_step env) {| Store.bwd_state := sr |} h
  = result_map
      (fun self' =>
         ({| Store.bwd_state := sr |},
          <[Store.flux_ref sr := flux (BackwardSolve.state self')]>
            (<[Store.pressure_ref sr := pressure (BackwardSolve.state self')]> h)))
      (repeat_n n (BackwardSolve.step env)
         {| BackwardSolve.state := {| pressure := pv; flux := qv |} |}).
Proof.
  intros Hp Hq Hne. revert h pv qv Hp Hq.
  induction n as [|n IH]; intros h pv qv Hp Hq.
  - simpl. unfold Store.ret. by rewrite (list_insert_id h _ pv), (list_insert_id h _ qv).
  - cbn [Store.repeat_n repeat_n]. unfold Store.bind.
    rewrite (store_backward_step env sr h pv qv Hp Hq Hne).
    destruct (BackwardSolve.step env _) as [[[p1 q1]]| |]; simpl; [|done..].
    pose proof (lookup_lt_Some _ _ _ Hp) as Hpl. pose proof (lookup_lt_Some _ _ _ Hq) as Hql.
    rewrite (IH _ p1 q1).
    + destruct (repeat_n n _ _) as [[[p2 q2]]| |]; simpl; [|done..].
      do 2 f_equal.
      rewrite (list_insert_insert_ne _ (Store.pressure_ref sr) (Store.flux_ref sr)) by done.
      by rewrite !list_insert_insert_eq.
    + rewrite list_lookup_insert_ne by done. by apply list_lookup_insert_eq.
    + apply list_lookup_insert_eq. by rewrite length_insert.
Qed.

(** Stores of the form [h ++ ext]: the cells of [h] and the cells allocated
    since. *)
Lemma store_alloc_ext (h ext : list (list R)) (a : list R) :
  Store.alloc a (h ++ ext) = Ok ((length h + length ext)%nat, h ++ (ext ++ [a])).
Proof. unfold Store.alloc. by rewrite length_app, app_assoc. Qed.

Lemma lookup_ext (h ext : list (list R)) (k : nat) :
  (h ++ ext) !! (length h + k)%nat = ext !! k.
Proof. rewrite lookup_app_r by lia. f_equal. lia. Qed.

Lemma store_copy_ext (h ext : list (list R)) (s : Store.State) (pv qv : list R) :
  (h ++ ext) !! Store.pressure_ref s = Some pv ->
  (h ++ ext) !! Store.flux_ref s = Some qv ->
  Store.copy s (h ++ ext)
  = Ok ({| Store.pressure_ref := length h + length ext;
           Store.flux_ref := length h + S (length ext) |},
        h ++ (ext ++ [pv; qv])).
Proof.
  intros Hp Hq. unfold Store.copy.
  unfold Store.bind at 1. rewrite (store_load _ _ pv Hp).
  unfold Store.bind at 1. rewrite store_alloc_ext.
  unfold Store.bind at 1. rewrite (store_load _ _ qv).
  2:{ rewrite app_assoc. by apply lookup_app_l_Some. }
  unfold Store.bind at 1. rewrite store_alloc_ext.
  unfold Store.ret. rewrite length_app, <- app_assoc. cbn [length app].
  by rewrite Nat.add_1_r.
Qed.

Lemma store_combine_ext (f : list R -> list R -> list R) (h ext : list (list R))
    (s1 s2 : Store.State) (p1 q1 p2 q2 : list R) :
  (h ++ ext) !! Store.pressure_ref s1 = Some p1 ->
  (h ++ ext) !! Store.flux_ref s1 = Some q1 ->
  (h ++ ext) !! Store.pressure_ref s2 = Some p2 ->
  (h ++ ext) !! Store.flux_ref s2 = Some q2 ->
  Store.combine f s1 s2 (h ++ ext)
  = Ok ({| Store.pressure_ref := length h + length ext;
           Store.flux_ref := length h + S (length ext) |},
        h ++ (ext ++ [f p1 p2; f q1 q2])).
Proof.
  intros Hp1 Hq1 Hp2 Hq2. unfold Store.combine.
  unfold Store.bind at 1. rewrite (store_load _ _ p1 Hp1).
  unfold Store.bind at 1. rewrite (store_load _ _ p2 Hp2).
  unfold Store.bind at 1. rewrite store_alloc_ext.
  unfold Store.bind at 1. rewrite (store_load _ _ q1).
  2:{ rewrite app_assoc. by apply lookup_app_l_Some. }
  unfold Store.bind at 1. rewrite (store_load _ _ q2).
  2:{ rewrite app_assoc. by apply lookup_app_l_Some. }
  unfold Store.bind at 1. rewrite store_alloc_ext.
  unfold Store.ret. rewrite length_app, <- app_assoc. cbn [length app].
  by rewrite Nat.add_1_r.
Qed.

Lemma store_load_ext (h ext : list (list R)) (k : nat) (a : list R) :
  ext !! k = Some a -> Store.load (length h + k) (h ++ ext) = Ok (a, h ++ ext).
Proof. intros H. apply store_load. by rewrite lookup_ext. Qed.

(** A lookup in a store [h ++ ext], in the new cells or in the old ones. *)
Ltac ext_lookup :=
  cbn [Store.pressure_ref Store.flux_ref];
  first [ rewrite lookup_ext; reflexivity | apply lookup_app_l_Some; assumption ].

Lemma store_compute_cost_gradient (env : Env) (s : Store.State) (b : bool)
    (h : list (list R)) (pv qv : list R) :
  h !! Store.pressure_ref s = Some pv -> h !! Store.flux_ref s = Some qv ->
  match compute_cost_gradient env {| pressure := pv; flux := qv |} b with
  | Ok r =>
      exists r' ext,
        Store.compute_cost_gradient env s b h = Ok (r', h ++ ext) /\
        value_of (h ++ ext) (Store.gradient r') = Some (gradient r) /\
        value_of (h ++ ext) (Store.forward_diff r') = Some (forward_diff r)
  | IndexError => Store.compute_cost_gradient env s b h = IndexError
  | NonFinite => Store.compute_cost_gradient env s b h = NonFinite
  end.
Proof.
  intros Hp Hq.
  remember (Store.compute_cost_gradient env s b h) as out eqn:Hout.
  rewrite <- (app_nil_r h) in Hout.
  unfold compute_cost_gradient. unfold Store.compute_cost_gradient in Hout.
  rewrite !copy_eq. unfold sub. cbn [pressure flux].
  set (src := if b then _ else _) in *.
  (* the copy of the initial state *)
  unfold Store.bind at 1 in Hout.
  rewrite (store_copy_ext h [] s pv qv) in Hout by (rewrite ?app_nil_r; assumption).
  cbn [app length] in Hout.
  (* the forward period *)
  unfold Store.bind at 1 in Hout.
  rewrite (store_forward_run env src _ _ 0 _ pv qv) in Hout;
    cbn [Store.pressure_ref Store.flux_ref];
    [| by rewrite lookup_ext | by rewrite lookup_ext | lia].
  revert Hout.
  destruct (repeat_n (steps_per_period env) _ _) as [[[p1 q1] t1]| |];
    cbn [result_map bind ForwardSolve.state ForwardSolve.time pressure flux
         Store.fwd_state Store.pressure_ref Store.flux_ref];
    [|done..].
  rewrite !insert_app_r. cbn [list_insert insert]. intros Hout.
  (* the difference and the initial state of the backward solver *)
  unfold Store.bind at 1 in Hout. unfold Store.sub at 1 in Hout.
  rewrite (store_combine_ext vsub h _ _ s p1 q1 pv qv) in Hout by ext_lookup.
  cbn [app length Store.pressure_ref Store.flux_ref] in Hout.
  set (dp := vsub p1 pv) in *. set (dq := vsub q1 qv) in *.
  unfold Store.bind at 1 in Hout. rewrite (store_load_ext h _ 3 dq) in Hout by reflexivity.
  unfold Store.bind at 1 in Hout. rewrite store_alloc_ext in Hout.
  cbn [app length] in Hout.
  unfold Store.bind at 1 in Hout.
  rewrite (store_load_ext h _ 4 (vneg dq)) in Hout by reflexivity.
  unfold Store.bind at 1 in Hout. rewrite (store_load_ext h _ 2 dp) in Hout by reflexivity.
  unfold Store.bind at 1 in Hout. rewrite store_alloc_ext in Hout.
  cbn [app length] in Hout.
  set (bp0 := vsub (matvec (q_step_mat_T env) (vneg dq)) dp) in *.
  unfold Store.bind at 1 in Hout.
  rewrite (store_copy_ext h _ _ bp0 (vneg dq)) in Hout by ext_lookup.
  cbn [app length] in Hout.
  (* the backward period *)
  unfold Store.bind at 1 in Hout.
  rewrite (store_backward_run env _ _ _ bp0 (vneg dq)) in Hout;
    cbn [Store.pressure_ref Store.flux_ref];
    [| by rewrite lookup_ext | by rewrite lookup_ext | lia].
  revert Hout.
  destruct (repeat_n (steps_per_period env - 1) _ _) as [[[p2 q2]]| |];
    cbn [result_map bind BackwardSolve.state pressure flux
         Store.bwd_state Store.pressure_ref Store.flux_ref];
    [|done..].
  rewrite !insert_app_r. cbn [list_insert insert]. intros Hout.
  (* the result *)
  unfold Store.bind at 1 in Hout. rewrite (store_load_ext h _ 6 p2) in Hout by reflexivity.
  unfold Store.bind at 1 in Hout. rewrite store_alloc_ext in Hout.
  cbn [app length] in Hout.
  unfold Store.bind at 1 in Hout. rewrite (store_load_ext h _ 7 q2) in Hout by reflexivity.
  unfold Store.bind at 1 in Hout. rewrite (store_load_ext h _ 6 p2) in Hout by reflexivity.
  unfold Store.bind at 1 in Hout. rewrite store_alloc_ext in Hout.
  cbn [app length] in Hout.
  unfold Store.bind at 1 in Hout. unfold Store.sub at 1 in Hout.
  rewrite (store_combine_ext vsub h _ _ _ (vneg p2)
             (vsub (vneg q2) (matvec (p_step_mat_T env) p2)) dp dq) in Hout by ext_lookup.
  cbn [app length] in Hout. unfold Store.ret in Hout.
  eexists _, _. split; [exact Hout|].
  unfold value_of. cbn [Store.gradient Store.forward_diff Store.pressure_ref Store.flux_ref
                        gradient forward_diff].
  rewrite !lookup_ext. split; reflexivity.
Qed.

Lemma store_energy_ext (h ext : list (list R)) (s : Store.State) (p q : list R) :
  (h ++ ext) !! Store.pressure_ref s = Some p ->
  (h ++ ext) !! Store.flux_ref s = Some q ->
  Store.energy s (h ++ ext) = Ok (energy {| pressure := p; flux := q |}, h ++ ext).
Proof.
  intros Hp Hq. unfold Store.energy, Store.dot.
  unfold Store.bind at 1. unfold Store.bind at 1. rewrite (store_load _ _ p Hp).
  unfold Store.bind at 1. rewrite (store_load _ _ p Hp).
  unfold Store.bind at 1. rewrite (store_load _ _ q Hq).
  unfold Store.bind at 1. rewrite (store_load _ _ q Hq).
  reflexivity.
Qed.

Lemma store_compute_control_energy (env : Env) (s : Store.State)
    (h : list (list R)) (pv qv : list R) :
  h !! Store.pressure_ref s = Some pv -> h !! Store.flux_ref s = Some qv ->
  match compute_control_energy env {| pressure := pv; flux := qv |} with
  | Ok e => exists ext, Store.compute_control_energy env s h = Ok (e, h ++ ext)
  | IndexError => Store.compute_control_energy env s h = IndexError
  | NonFinite => Store.compute_control_energy env s h = NonFinite
  end.
Proof.
  intros Hp Hq.
  remember (Store.compute_control_energy env s h) as out eqn:Hout.
  rewrite <- (app_nil_r h) in Hout.
  unfold compute_control_energy. unfold Store.compute_control_energy in Hout.
  rewrite !copy_eq. unfold sub. cbn [pressure flux].
  unfold Store.bind at 1 in Hout.
  rewrite (store_copy_ext h [] s pv qv) in Hout by (rewrite ?app_nil_r; assumption).
  cbn [app length] in Hout.
  unfold Store.bind at 1 in Hout.
  rewrite (store_forward_run env (fun _ => 1) _ _ 0 _ pv qv) in Hout;
    cbn [Store.pressure_ref Store.flux_ref];
    [| by rewrite lookup_ext | by rewrite lookup_ext | lia].
  revert Hout.
  destruct (repeat_n (steps_per_period env) _ _) as [[[p1 q1] t1]| |];
    cbn [result_map bind ForwardSolve.state ForwardSolve.time pressure flux
         Store.fwd_state Store.pressure_ref Store.flux_ref];
    [|done..].
  rewrite !insert_app_r. cbn [list_insert insert]. intros Hout.
  unfold Store.bind at 1 in Hout. unfold Store.sub at 1 in Hout.
  rewrite (store_combine_ext vsub h _ _ s p1 q1 pv qv) in Hout by ext_lookup.
  cbn [app length] in Hout.
  rewrite (store_energy_ext h _ _ (vsub p1 pv) (vsub q1 qv)) in Hout by ext_lookup.
  eexists. exact Hout.
Qed.

(** ** C8: the evaluators leave the state of the caller unchanged *)

Lemma compute_control_energy_total (env : Env) (s : State) :
  wf_env env -> wf_state env s -> exists e, compute_control_energy env s = Ok e.
Proof.
  intros Hwf Hs. unfold compute_control_energy. rewrite copy_eq.
  destruct (forward_run_total env (fun _ => 1) (steps_per_period env)
              {| ForwardSolve.state := s; ForwardSolve.time := 0 |} Hwf Hs)
    as (fwd & Hfwd & _).
  rewrite Hfwd. cbn [bind]. eauto.
Qed.

(** C8.  For a state [s] whose fields refer to arrays of the store,
    [compute_cost_gradient(s, b)] and [compute_control_energy(s)] leave
    every array of the store they are called in, and so the pressure and
    flux of [s], as they were: they work on a copy.  On a well-formed mesh
    and state both calls return. *)
Theorem evaluators_leave_state (env : Env) (s : Store.State) (b : bool)
    (h : list (list R)) (pv qv : list R) :
  h !! Store.pressure_ref s = Some pv -> h !! Store.flux_ref s = Some qv ->
  (forall r h', Store.compute_cost_gradient env s b h = Ok (r, h') ->
     value_of h' s = Some {| pressure := pv; flux := qv |} /\
     forall l a, h !! l = Some a -> h' !! l = Some a) /\
  (forall e h', Store.compute_control_energy env s h = Ok (e, h') ->
     value_of h' s = Some {| pressure := pv; flux := qv |} /\
     forall l a, h !! l = Some a -> h' !! l = Some a) /\
  (wf_env env -> wf_state env {| pressure := pv; flux := qv |} ->
   (exists r h', Store.compute_cost_gradient env s b h = Ok (r, h')) /\
   (exists e h', Store.compute_control_energy env s h = Ok (e, h'))).
Proof.
  intros Hp Hq.
  pose proof (store_compute_cost_gradient env s b h pv qv Hp Hq) as Hg.
  pose proof (store_compute_control_energy env s h pv qv Hp Hq) as He.
  assert (Hold : forall ext, value_of (h ++ ext) s = Some {| pressure := pv; flux := qv |} /\
                             forall l a, h !! l = Some a -> (h ++ ext) !! l = Some a).
  { intros ext. split; [|intros l a; apply lookup_app_l_Some].
    unfold value_of. by rewrite (lookup_app_l_Some _ _ _ _ Hp), (lookup_app_l_Some _ _ _ _ Hq). }
  split; [|split].
  - intros r h' Hrun.
    destruct (compute_cost_gradient env _ b) as [r0| |]; [|congruence..].
    destruct Hg as (r' & ext & Hg & _). rewrite Hg in Hrun. injection Hrun as _ <-.
    apply Hold.
  - intros e h' Hrun.
    destruct (compute_control_energy env _) as [e0| |]; [|congruence..].
    destruct He as (ext & He). rewrite He in Hrun. injection Hrun as _ <-.
    apply Hold.
  - intros Hwf Hs.
    destruct (compute_cost_gradient_total env _ b Hwf Hs) as (r & Hr & _).
    destruct (compute_control_energy_total env _ Hwf Hs) as (e & Hce).
    rewrite Hr in Hg. rewrite Hce in He.
    destruct Hg as (r' & ext & Hg & _). destruct He as (ext' & He).
    split; eauto.
Qed.

(** C8, witness: the state of pressure 1 on the first face in a store of
    the square mesh. *)
Lemma evaluators_leave_state_witness :
  square_store !! Store.pressure_ref square_state_ref = Some (pressure unit_pressure_state) /\
  square_store !! Store.flux_ref square_state_ref = Some (flux unit_pressure_state) /\
  wf_env square_env /\ wf_state square_env unit_pressure_state /\
  (exists r h', Store.compute_cost_gradient square_env square_state_ref true square_store
                = Ok (r, h')) /\
  (forall r h', Store.compute_cost_gradient square_env square_state_ref true square_store
                = Ok (r, h') ->
                value_of h' square_state_ref = Some unit_pressure_state).
Proof.
  assert (Hp : square_store !! Store.pressure_ref square_state_ref
               = Some (pressure unit_pressure_state)) by reflexivity.
  assert (Hq : square_store !! Store.flux_ref square_state_ref
               = Some (flux unit_pressure_state)) by reflexivity.
  assert (Hwf : wf_env square_env).
  { constructor; simpl; repeat constructor; simpl; lia. }
  assert (Hst : wf_state square_env unit_pressure_state).
  { split; reflexivity. }
  destruct (evaluators_leave_state square_env square_state_ref true square_store _ _ Hp Hq)
    as (Hg & _ & Htotal).
  split; [exact Hp|]. split; [exact Hq|]. split; [exact Hwf|]. split; [exact Hst|].
  split; [exact (proj1 (Htotal Hwf Hst))|].
  intros r h' Hrun. exact (proj1 (Hg r h' Hrun)).
Defined.

(** ** C9: the default state *)

Lemma square_wave_pressure :
  eval_inc_wave_pressure square_env (dt square_env) (0.5, 0.5) = 2 * sin (PI / 60 - 0.5).
Proof.
  unfold eval_inc_wave_pressure, dot2, inc_wave_vector, inc_wave_dir, inc_angle. simpl.
  replace (90 * 2 * PI / 360) with (PI / 2) by lra. rewrite cos_PI2, sin_PI2.
  f_equal. f_equal. lra.
Qed.

Lemma square_wave_pressure_nonzero :
  eval_inc_wave_pressure square_env (dt square_env) (0.5, 0.5) <> 0.
Proof.
  rewrite square_wave_pressure.
  pose proof PI2_1. pose proof PI_4.
  assert (sin (PI / 60 - 0.5) < 0) by (apply sin_lt_0_var; lra).
  lra.
Qed.

(** C9, the code at the failing input.  In the store in which the program
    starts, the call [eval_inc_wave_everywhere(dt)] writes the incoming wave
    into the two default arrays of the class; the state that [State()]
    creates afterwards refers to the same two arrays and is not the zero
    state; and two states created by [State()] share their arrays: an
    element assignment through the first is read through the second. *)
Theorem default_state_shared :
  let default := {| Store.pressure_ref := Store.default_pressure;
                    Store.flux_ref := Store.default_flux |} in
  Store.eval_inc_wave_everywhere square_env (dt square_env) (Store.initial_store square_env)
    = Ok (default, store_after_wave) /\
  Store.State_default store_after_wave = Ok (default, store_after_wave) /\
  value_of (Store.initial_store square_env) default = Some (zero_state square_env) /\
  value_of store_after_wave default <> Some (zero_state square_env) /\
  Store.bind Store.State_default (fun s1 =>
    Store.bind Store.State_default (fun s2 =>
      Store.bind (Store.setitem_at (Store.pressure_ref s1) 0 1) (fun _ =>
        Store.load (Store.pressure_ref s2)))) (Store.initial_store square_env)
    = Ok ([1; 0], [[1; 0]; [0; 0; 0; 0; 0]]).
Proof.
  cbv zeta. split; [|split; [|split; [|split]]].
  - unfold Store.eval_inc_wave_everywhere. eval_store.
    repeat match goal with
    | |- context [bool_decide (?x ∈ ?l)] =>
        first [ change (bool_decide (x ∈ l)) with false
              | change (bool_decide (x ∈ l)) with true ]
    end.
    unfold Store.bind, Store.lift, Store.ret.
    repeat (erewrite eval_inc_wave_flux_value by reflexivity; eval_store).
    reflexivity.
  - reflexivity.
  - reflexivity.
  - unfold value_of, store_after_wave, zero_state. cbn [Store.pressure_ref Store.flux_ref].
    change ([?a; ?b] !! Store.default_pressure) with (Some a).
    intros [= H _]. by apply square_wave_pressure_nonzero.
  - reflexivity.
Qed.

(** ** C10: the two evaluations of the control energy *)

(** [compute_cost_gradient(s, True).energy()] in the store layer. *)
Lemma store_gradient_energy (env : Env) (s : Store.State) (h h1 : list (list R))
    (pv qv : list R) (r : Store.GradientResult) :
  h !! Store.pressure_ref s = Some pv -> h !! Store.flux_ref s = Some qv ->
  Store.compute_cost_gradient env s true h = Ok (r, h1) ->
  exists e ext,
    Store.energy (Store.forward_diff r) h1 = Ok (e, h1) /\
    Store.compute_control_energy env s h = Ok (e, h ++ ext).
Proof.
  intros Hp Hq Hrun.
  pose proof (store_compute_cost_gradient env s true h pv qv Hp Hq) as Hg.
  pose proof (store_compute_control_energy env s h pv qv Hp Hq) as He.
  destruct (compute_cost_gradient env _ true) as [r0| |] eqn:Hr0; [|congruence..].
  rewrite (gradient_energy_value env _ r0 Hr0) in He. destruct He as (ext' & He).
  destruct Hg as (r' & ext & Hg & _ & Hdiff). rewrite Hg in Hrun.
  injection Hrun as <- <-.
  exists (GradientResult_energy r0), ext'. split; [|exact He].
  unfold value_of in Hdiff.
  destruct ((h ++ ext) !! Store.pressure_ref (Store.forward_diff r')) as [dp|] eqn:Hdp;
    [|discriminate].
  destruct ((h ++ ext) !! Store.flux_ref (Store.forward_diff r')) as [dq|] eqn:Hdq;
    [|discriminate].
  injection Hdiff as Hdiff. rewrite (store_energy_ext h ext _ dp dq Hdp Hdq).
  unfold GradientResult_energy. by rewrite <- Hdiff.
Qed.

(** C10.  Whenever the gradient evaluation with the source terms returns,
    the control energy evaluation returns the energy of its result, in the
    value layer and in the store layer; on a well-formed mesh and state
    both return. *)
Theorem gradient_energy_is_control_energy (env : Env) (s : State) :
  (forall r, compute_cost_gradient env s true = Ok r ->
             compute_control_energy env s = Ok (GradientResult_energy r)) /\
  (forall sr h h1 r,
     value_of h sr = Some s ->
     Store.compute_cost_gradient env sr true h = Ok (r, h1) ->
     exists e ext,
       Store.energy (Store.forward_diff r) h1 = Ok (e, h1) /\
       Store.compute_control_energy env sr h = Ok (e, h ++ ext)) /\
  (wf_env env -> wf_state env s ->
   exists r, compute_cost_gradient env s true = Ok r /\
             compute_control_energy env s = Ok (GradientResult_energy r)).
Proof.
  split; [intros r; apply gradient_energy_value|]. split.
  - intros sr h h1 r Hs Hrun. unfold value_of in Hs.
    destruct (h !! Store.pressure_ref sr) as [pv|] eqn:Hp; [|discriminate].
    destruct (h !! Store.flux_ref sr) as [qv|] eqn:Hq; [|discriminate].
    by apply (store_gradient_energy env sr h h1 pv qv r).
  - intros Hwf Hs.
    destruct (compute_cost_gradient_total env s true Hwf Hs) as (r & Hr & _).
    exists r. split; [exact Hr | by apply gradient_energy_value].
Qed.

(** C10, witness: both evaluations return on the square mesh. *)
Lemma gradient_energy_is_control_energy_witness :
  wf_env square_env /\ wf_state square_env unit_pressure_state /\
  exists r, compute_cost_gradient square_env unit_pressure_state true = Ok r /\
            compute_control_energy square_env unit_pressure_state
              = Ok (GradientResult_energy r).
Proof.
  assert (Hwf : wf_env square_env).
  { constructor; simpl; repeat constructor; simpl; lia. }
  assert (Hst : wf_state square_env unit_pressure_state).
  { split; reflexivity. }
  split; [exact Hwf|]. split; [exact Hst|].
  exact (proj2 (proj2 (gradient_energy_is_control_energy square_env unit_pressure_state))
           Hwf Hst).
Defined.

(** * Further properties of the script *)

(** ** The boundary edge records *)

Lemma py_bind_Returns {A B : Type} (m : py A) (k : A -> py B) (b : B) :
  py_bind m k = Returns b <-> exists a, m = Returns a /\ k a = Returns b.
Proof.
  split.
  - destruct m as [a|e]; simpl; intros H; [eauto | discriminate].
  - intros (a & -> & H). exact H.
Qed.

Lemma py_getitem_Returns {A : Type} (l : list A) (i : nat) (x : A) :
  py_getitem l i = Returns x <-> l !! i = Some x.
Proof. unfold py_getitem. destruct (l !! i); split; intros H; congruence. Qed.

Lemma py_map_Returns {A B : Type} (f : A -> py B) (xs : list A) (ys : list B) :
  py_map f xs = Returns ys <->
  length ys = length xs /\
  forall k x, xs !! k = Some x -> exists y, ys !! k = Some y /\ f x = Returns y.
Proof.
  revert ys. induction xs as [|x xs IH]; intros ys; simpl.
  - split.
    + intros [= <-]. split; [done|]. intros k x Hk. by rewrite lookup_nil in Hk.
    + intros [Hlen _]. destruct ys; [done | discriminate].
  - rewrite py_bind_Returns. split.
    + intros (y & Hy & H). apply py_bind_Returns in H as (ys' & Hys & [= <-]).
      apply IH in Hys as [Hlen Hall]. split; [simpl; lia|].
      intros [|k] x' Hk; simpl in *.
      * injection Hk as <-. eauto.
      * by apply Hall.
    + intros [Hlen Hall]. destruct ys as [|y ys]; [discriminate|].
      destruct (Hall 0%nat x eq_refl) as (y' & [= <-] & Hy).
      exists y. split; [done|]. apply py_bind_Returns. exists ys. split; [|done].
      apply IH. split; [simpl in Hlen; lia|].
      intros k x' Hk. apply (Hall (S k) x' Hk).
Qed.

(** The first element that raises decides the exception of the loop. *)
Lemma py_map_Raises {A B : Type} (f : A -> py B) (xs : list A) (e : exn) :
  py_map f xs = Raises e <->
  exists k x, xs !! k = Some x /\ f x = Raises e /\
              forall j x', (j < k)%nat -> xs !! j = Some x' -> exists y, f x' = Returns y.
Proof.
  induction xs as [|x xs IH]; simpl.
  - split; [discriminate|]. intros (k & x & Hk & _). by rewrite lookup_nil in Hk.
  - destruct (f x) as [y|e'] eqn:Hfx; simpl.
    + destruct (py_map f xs) as [ys|e'] eqn:Hmap; simpl.
      * split; [discriminate|]. intros ([|k] & x' & Hk & Hx' & Hbefore); simpl in Hk.
        -- injection Hk as <-. congruence.
        -- assert (Returns ys = Raises e) as Habs; [|discriminate].
           apply IH. exists k, x'. split; [done|]. split; [done|].
           intros j x'' Hj Hx''. apply (Hbefore (S j) x''); [lia | done].
      * split.
        -- intros [= ->]. destruct (proj1 IH eq_refl) as (k & x' & Hk & Hx' & Hbefore).
           exists (S k), x'. split; [done|]. split; [done|].
           intros [|j] x'' Hj Hx''; simpl in Hx''.
           ++ injection Hx'' as <-. eauto.
           ++ apply (Hbefore j x''); [lia | done].
        -- intros ([|k] & x' & Hk & Hx' & Hbefore); simpl in Hk.
           ++ injection Hk as <-. congruence.
           ++ apply IH. exists k, x'. split; [done|]. split; [done|].
              intros j x'' Hj Hx''. apply (Hbefore (S j) x''); [lia | done].
    + split.
      * intros [= ->]. exists 0%nat, x. split; [done|]. split; [done|]. intros; lia.
      * intros ([|k] & x' & Hk & Hx' & Hbefore); simpl in Hk.
        -- injection Hk as <-. congruence.
        -- destruct (Hbefore 0%nat x ltac:(lia) eq_refl) as [y Hy]. congruence.
Qed.

Lemma nonzero_from_elem (i k : nat) (col : list Z) :
  k ∈ nonzero_from i col <->
  exists j x, k = (i + j)%nat /\ col !! j = Some x /\ x <> 0%Z.
Proof.
  revert i. induction col as [|x col IH]; intros i; simpl.
  - split; [intros H; by apply elem_of_nil in H|]. intros (j & y & _ & Hj & _).
    by rewrite lookup_nil in Hj.
  - destruct (Z.eqb_spec x 0) as [->|Hx].
    + rewrite IH. split.
      * intros (j & y & -> & Hj & Hy). exists (S j), y. split; [lia | done].
      * intros ([|j] & y & -> & Hj & Hy); simpl in Hj; [congruence|].
        exists j, y. split; [lia | done].
    + rewrite elem_of_cons, IH. split.
      * intros [->|(j & y & -> & Hj & Hy)].
        -- exists 0%nat, x. split; [lia | done].
        -- exists (S j), y. split; [lia | done].
      * intros ([|j] & y & -> & Hj & Hy); simpl in Hj.
        -- left. lia.
        -- right. exists j, y. split; [lia | done].
Qed.

Lemma nonzero_from_all_zero (i : nat) (col : list Z) :
  (forall j x, col !! j = Some x -> x = 0%Z) -> nonzero_from i col = [].
Proof.
  revert i. induction col as [|x col IH]; intros i H; simpl; [done|].
  rewrite (H 0%nat x eq_refl). simpl. apply IH. intros j y Hj. apply (H (S j) y Hj).
Qed.

Lemma nonzero_from_one (i t : nat) (col : list Z) (x : Z) :
  col !! t = Some x -> x <> 0%Z ->
  (forall j y, col !! j = Some y -> y <> 0%Z -> j = t) ->
  nonzero_from i col = [(i + t)%nat].
Proof.
  revert i t. induction col as [|c col IH]; intros i t Ht Hx Huniq; [done|].
  simpl. destruct t as [|t]; simpl in Ht.
  - injection Ht as ->. destruct (Z.eqb_spec x 0); [contradiction|].
    rewrite nonzero_from_all_zero, Nat.add_0_r; [done|].
    intros j y Hj. destruct (Z.eq_dec y 0%Z) as [|Hy]; [done|].
    specialize (Huniq (S j) y Hj Hy). lia.
  - destruct (Z.eqb_spec c 0) as [->|Hc].
    + rewrite (IH (S i) t Ht Hx).
      * f_equal. lia.
      * intros j y Hj Hy. specialize (Huniq (S j) y Hj Hy). lia.
    + specialize (Huniq 0%nat c eq_refl Hc). lia.
Qed.

Lemma column_lookup (env : Env) (e i : nat) :
  (i < length (d env))%nat ->
  map (fun row => nth e row 0%Z) (d env) !! i = Some (incidence env i e).
Proof.
  intros Hi. destruct (lookup_lt_is_Some_2 _ _ Hi) as [row Hrow].
  rewrite list_lookup_fmap, Hrow. simpl. unfold incidence.
  by rewrite (nth_lookup_Some _ _ _ _ Hrow).
Qed.

Lemma nonzero_column (env : Env) (e t : nat) :
  length (d env) = num_faces env ->
  nonzero (map (fun row => nth e row 0%Z) (d env)) = [t] <-> only_face env e t.
Proof.
  intros Hrows. set (col := map _ (d env)).
  assert (Hcol : forall i, (i < num_faces env)%nat -> col !! i = Some (incidence env i e)).
  { intros i Hi. apply column_lookup. lia. }
  assert (Hlen : length col = num_faces env) by (unfold col; by rewrite length_map).
  unfold nonzero, only_face. split.
  - intros Hnz.
    assert (Hin : forall k, k ∈ nonzero_from 0 col <-> k = t).
    { intros k. rewrite Hnz. apply list_elem_of_singleton. }
    destruct (proj1 (nonzero_from_elem 0 t col) (proj2 (Hin t) eq_refl))
      as (j & x & Hj & Hx & Hxnz).
    simpl in Hj. subst j. pose proof (lookup_lt_Some _ _ _ Hx) as Ht. rewrite Hlen in Ht.
    rewrite (Hcol t Ht) in Hx. injection Hx as <-.
    split; [done|]. split; [done|]. intros j Hj Hjnz. apply Hin.
    apply nonzero_from_elem. exists j, (incidence env j e). split; [done|].
    split; [by apply Hcol | done].
  - intros (Ht & Htnz & Huniq).
    apply (nonzero_from_one 0 t col (incidence env t e)); [by apply Hcol | done |].
    intros j y Hj Hy. pose proof (lookup_lt_Some _ _ _ Hj) as Hjl. rewrite Hlen in Hjl.
    rewrite (Hcol j Hjl) in Hj. injection Hj as <-. by apply Huniq.
Qed.

Lemma only_face_unique (env : Env) (e i j : nat) :
  only_face env e i -> only_face env e j -> i = j.
Proof. intros (Hi & Hinz & _) (_ & _ & Huniq). by apply Huniq. Qed.

(** The record of one edge, when there is one. *)
Lemma boundary_edge_info_Returns (env : Env) (e : nat) (info : BoundaryEdgeInfo.t) :
  wf_complex env -> (e < num_edges env)%nat ->
  boundary_edge_info env e = Returns info <->
  only_face env e (BoundaryEdgeInfo.dual_vert_idx info) /\
  BoundaryEdgeInfo.orientation info = incidence env (BoundaryEdgeInfo.dual_vert_idx info) e /\
  exists v0 v1 p0 p1,
    simplices env !! e = Some (v0, v1) /\
    vertices env !! v0 = Some p0 /\ vertices env !! v1 = Some p1 /\
    BoundaryEdgeInfo.length info = sqrt ((fst p1 - fst p0) ^ 2 + (snd p1 - snd p0) ^ 2).
Proof.
  intros Hwf He. unfold boundary_edge_info, d_column.
  destruct (Nat.ltb_spec e (num_edges env)); [|lia]. cbn [py_bind].
  set (col := map _ (d env)).
  pose proof (nonzero_column env e) as Hnz. fold col in Hnz.
  destruct (lookup_lt_is_Some_2 (simplices env) e) as [[v0 v1] Hv].
  { by rewrite (wfc_simplices _ Hwf). }
  destruct (Forall_lookup_1 _ _ _ _ (wfc_vertices _ Hwf) Hv) as [Hv0 Hv1]. simpl in *.
  destruct (lookup_lt_is_Some_2 _ _ Hv0) as [p0 Hp0].
  destruct (lookup_lt_is_Some_2 _ _ Hv1) as [p1 Hp1].
  destruct (nonzero col) as [|t [|t' rest]] eqn:Hcolnz; cbn [length Nat.eqb].
  - split; [discriminate|]. intros (Hface & _).
    apply Hnz in Hface; [discriminate | apply (wfc_d_rows _ Hwf)].
  - pose proof (proj1 (Hnz t (wfc_d_rows _ Hwf)) eq_refl) as Hface.
    destruct Hface as (Ht & Htnz & Huniq).
    assert (Hcolt : col !! t = Some (incidence env t e)).
    { apply column_lookup. rewrite (wfc_d_rows _ Hwf). done. }
    unfold py_getitem at 1. rewrite Hv. cbn [py_bind fst snd].
    unfold py_getitem at 1. rewrite Hp0. cbn [py_bind].
    unfold py_getitem at 1. rewrite Hp1. cbn [py_bind].
    unfold py_getitem at 1. cbn [lookup list_lookup py_bind].
    unfold py_getitem. rewrite Hcolt. cbn [py_bind]. split.
    + intros [= <-]. cbn. split; [done|]. split; [done|].
      exists v0, v1, p0, p1. done.
    + intros (Hface & Hor & (v0' & v1' & p0' & p1' & Hv' & Hp0' & Hp1' & Hlen)).
      destruct info as [tri len orient]. cbn [BoundaryEdgeInfo.dual_vert_idx BoundaryEdgeInfo.orientation BoundaryEdgeInfo.length] in *.
      assert (tri = t) as -> by (by apply (only_face_unique env e)).
      injection Hv' as <- <-.
      rewrite Hp0 in Hp0'. injection Hp0' as <-.
      rewrite Hp1 in Hp1'. injection Hp1' as <-.
      by rewrite Hor, Hlen.
  - split; [discriminate|]. intros (Hface & _).
    apply Hnz in Hface; [discriminate | apply (wfc_d_rows _ Hwf)].
Qed.

(** The only exception of the body is the failed [assert]. *)
Lemma boundary_edge_info_outcome (env : Env) (e : nat) :
  wf_complex env -> (e < num_edges env)%nat ->
  ((exists i, only_face env e i) /\ exists info, boundary_edge_info env e = Returns info) \/
  ((~ exists i, only_face env e i) /\ boundary_edge_info env e = Raises ExnAssertionError).
Proof.
  intros Hwf He.
  destruct (boundary_edge_info env e) as [info|ex] eqn:Hinfo.
  - left. apply (boundary_edge_info_Returns env e info Hwf He) in Hinfo as (Hface & _).
    split; eauto.
  - right. pose proof Hinfo as Hinfo0. revert Hinfo. unfold boundary_edge_info, d_column.
    destruct (Nat.ltb_spec e (num_edges env)); [|lia]. cbn [py_bind].
    set (col := map _ (d env)).
    pose proof (nonzero_column env e) as Hnz. fold col in Hnz.
    destruct (nonzero col) as [|t [|t' rest]] eqn:Hcolnz; cbn [length Nat.eqb].
    + intros [= <-]. split; [|done]. intros [i Hi].
      apply Hnz in Hi; [discriminate | apply (wfc_d_rows _ Hwf)].
    + intros Hinfo. exfalso.
      pose proof (proj1 (Hnz t (wfc_d_rows _ Hwf)) eq_refl) as Hface.
      destruct (lookup_lt_is_Some_2 (simplices env) e) as [[v0 v1] Hv].
      { by rewrite (wfc_simplices _ Hwf). }
      destruct (Forall_lookup_1 _ _ _ _ (wfc_vertices _ Hwf) Hv) as [Hv0 Hv1]. simpl in *.
      destruct (lookup_lt_is_Some_2 _ _ Hv0) as [p0 Hp0].
      destruct (lookup_lt_is_Some_2 _ _ Hv1) as [p1 Hp1].
      assert (Hret : boundary_edge_info env e
                     = Returns {| BoundaryEdgeInfo.dual_vert_idx := t;
                                  BoundaryEdgeInfo.orientation := incidence env t e;
                                  BoundaryEdgeInfo.length :=
                                    sqrt ((fst p1 - fst p0) ^ 2 + (snd p1 - snd p0) ^ 2) |}).
      { apply (boundary_edge_info_Returns env e _ Hwf He). cbn.
        split; [done|]. split; [done|]. exists v0, v1, p0, p1. done. }
      congruence.
    + intros [= <-]. split; [|done]. intros [i Hi].
      apply Hnz in Hi; [discriminate | apply (wfc_d_rows _ Hwf)].
Qed.

Lemma wf_complex_square_env : wf_complex square_env.
Proof. constructor; simpl; repeat constructor; simpl; lia. Qed.

Lemma wf_complex_of_wf_env (env : Env) : wf_env env -> wf_complex env.
Proof. intros []. by constructor. Qed.

Lemma square_env_infos :
  compute_outer_bound_infos square_env = Returns (outer_bound_infos square_env).
Proof.
  eval_reals.
  replace (sqrt ((1 - 0) * ((1 - 0) * 1) + (0 - 0) * ((0 - 0) * 1))) with 1
    by (rewrite <- sqrt_1 at 1; f_equal; lra).
  replace (sqrt ((0 - 0) * ((0 - 0) * 1) + (1 - 0) * ((1 - 0) * 1))) with 1
    by (rewrite <- sqrt_1 at 1; f_equal; lra).
  replace (sqrt ((1 - 1) * ((1 - 1) * 1) + (1 - 0) * ((1 - 0) * 1))) with 1
    by (rewrite <- sqrt_1 at 1; f_equal; lra).
  replace (sqrt ((0 - 1) * ((0 - 1) * 1) + (1 - 1) * ((1 - 1) * 1))) with 1
    by (rewrite <- sqrt_1 at 1; f_equal; lra).
  reflexivity.
Qed.

(** X1. When the loop over the outer boundary edges runs to its end on a
    well-formed complex, it has appended one record per edge, in the order of
    the edges; the record of an edge names the one face the edge is part of,
    its orientation is the non-zero incidence entry of that face and edge, and
    its length is the distance of the end points of the edge, never negative. *)
Theorem outer_bound_infos_extracted (env : Env) (infos : list BoundaryEdgeInfo.t) :
  wf_complex env ->
  compute_outer_bound_infos env = Returns infos ->
  length infos = length (outer_bound_edges env) /\
  forall k e, outer_bound_edges env !! k = Some e ->
    exists info v0 v1 p0 p1,
      infos !! k = Some info /\
      only_face env e (BoundaryEdgeInfo.dual_vert_idx info) /\
      BoundaryEdgeInfo.orientation info
        = incidence env (BoundaryEdgeInfo.dual_vert_idx info) e /\
      BoundaryEdgeInfo.orientation info <> 0%Z /\
      simplices env !! e = Some (v0, v1) /\
      vertices env !! v0 = Some p0 /\ vertices env !! v1 = Some p1 /\
      BoundaryEdgeInfo.length info
        = sqrt ((fst p1 - fst p0) ^ 2 + (snd p1 - snd p0) ^ 2) /\
      0 <= BoundaryEdgeInfo.length info.
Proof.
  intros Hwf Hrun. apply py_map_Returns in Hrun as [Hlen Hall].
  split; [done|]. intros k e Hk.
  destruct (Hall k e Hk) as (info & Hinfo & Hret).
  pose proof (Forall_lookup_1 _ _ _ _ (wfc_outer _ Hwf) Hk) as He.
  apply (boundary_edge_info_Returns env e info Hwf He) in Hret
    as (Hface & Hor & (v0 & v1 & p0 & p1 & Hv & Hp0 & Hp1 & Hl)).
  destruct Hface as (Ht & Hnz & Huniq).
  exists info, v0, v1, p0, p1.
  split; [done|]. split; [done|]. split; [done|].
  split; [by rewrite Hor|]. split; [done|]. split; [done|]. split; [done|].
  split; [done|]. rewrite Hl. apply sqrt_pos.
Qed.

Lemma outer_bound_infos_extracted_witness :
  length (outer_bound_infos square_env) = length (outer_bound_edges square_env) /\
  forall k e, outer_bound_edges square_env !! k = Some e ->
    exists info v0 v1 p0 p1,
      outer_bound_infos square_env !! k = Some info /\
      only_face square_env e (BoundaryEdgeInfo.dual_vert_idx info) /\
      BoundaryEdgeInfo.orientation info
        = incidence square_env (BoundaryEdgeInfo.dual_vert_idx info) e /\
      BoundaryEdgeInfo.orientation info <> 0%Z /\
      simplices square_env !! e = Some (v0, v1) /\
      vertices square_env !! v0 = Some p0 /\ vertices square_env !! v1 = Some p1 /\
      BoundaryEdgeInfo.length info
        = sqrt ((fst p1 - fst p0) ^ 2 + (snd p1 - snd p0) ^ 2) /\
      0 <= BoundaryEdgeInfo.length info.
Proof.
  exact (outer_bound_infos_extracted square_env (outer_bound_infos square_env)
           wf_complex_square_env square_env_infos).
Defined.

Lemma boundary_edge_info_raises (env : Env) (e : nat) (ex : exn) :
  wf_complex env -> (e < num_edges env)%nat ->
  boundary_edge_info env e = Raises ex ->
  ex = ExnAssertionError /\ ~ exists i, only_face env e i.
Proof.
  intros Hwf He Hex.
  destruct (boundary_edge_info_outcome env e Hwf He) as [(_ & info & Hret)|(Hno & Hraise)].
  - congruence.
  - split; [congruence | done].
Qed.

(** X2. On a well-formed complex the loop over the outer boundary edges can
    only stop with the failed [assert]; it does so exactly when one of the
    outer boundary edges is part of no face or of more than one. *)
Theorem outer_bound_infos_assertion (env : Env) :
  wf_complex env ->
  (forall ex, compute_outer_bound_infos env = Raises ex -> ex = ExnAssertionError) /\
  (compute_outer_bound_infos env = Raises ExnAssertionError <->
   exists k e, outer_bound_edges env !! k = Some e /\ ~ exists i, only_face env e i).
Proof.
  intros Hwf.
  assert (Hraise : forall ex, compute_outer_bound_infos env = Raises ex ->
            ex = ExnAssertionError /\
            exists k e, outer_bound_edges env !! k = Some e /\ ~ exists i, only_face env e i).
  { intros ex Hex. apply py_map_Raises in Hex as (k & e & Hk & Hbody & _).
    pose proof (Forall_lookup_1 _ _ _ _ (wfc_outer _ Hwf) Hk) as He.
    destruct (boundary_edge_info_raises env e ex Hwf He Hbody) as [-> Hno].
    split; [done|]. by exists k, e. }
  split; [intros ex Hex; by apply Hraise|]. split.
  - intros Hex. by destruct (Hraise _ Hex).
  - intros (k & e & Hk & Hno).
    destruct (compute_outer_bound_infos env) as [infos|ex] eqn:Hrun.
    + exfalso. apply py_map_Returns in Hrun as [_ Hall].
      destruct (Hall k e Hk) as (info & _ & Hret).
      pose proof (Forall_lookup_1 _ _ _ _ (wfc_outer _ Hwf) Hk) as He.
      apply (boundary_edge_info_Returns env e info Hwf He) in Hret as (Hface & _).
      apply Hno. eauto.
    + f_equal. by destruct (Hraise _ eq_refl).
Qed.

Lemma outer_bound_infos_assertion_witness :
  (forall ex, compute_outer_bound_infos square_env = Raises ex -> ex = ExnAssertionError) /\
  (compute_outer_bound_infos square_env = Raises ExnAssertionError <->
   exists k e, outer_bound_edges square_env !! k = Some e /\
               ~ exists i, only_face square_env e i).
Proof. exact (outer_bound_infos_assertion square_env wf_complex_square_env). Defined.

Lemma extracted_infos_wf (env : Env) :
  wf_complex env ->
  compute_outer_bound_infos env = Returns (outer_bound_infos env) ->
  wf_env env.
Proof.
  intros Hwf Hrun. destruct Hwf as [H1 H2 H3 H4 H5 H6 H7 H8].
  constructor; try done.
  apply Forall_lookup_2. intros k info Hk.
  apply py_map_Returns in Hrun as [Hlen Hall].
  destruct (lookup_lt_is_Some_2 (outer_bound_edges env) k) as [e He].
  { rewrite <- Hlen. by apply lookup_lt_Some in Hk. }
  destruct (Hall k e He) as (info' & Hinfo' & Hret).
  rewrite Hk in Hinfo'. injection Hinfo' as <-.
  assert (Hwf : wf_complex env) by by constructor.
  apply (boundary_edge_info_Returns env e info Hwf) in Hret as ((Ht & _) & _); [done|].
  apply (Forall_lookup_1 _ _ _ _ H8 He).
Qed.

(** On the records that the script extracts, the faces an outer edge is part
    of are the one face of its record: a state that is zero on the outer
    edges and on the faces of their records vanishes on the outer boundary. *)
Lemma vanishes_on_extracted (env : Env) (v : State) :
  wf_complex env ->
  compute_outer_bound_infos env = Returns (outer_bound_infos env) ->
  (forall k e info,
     outer_bound_edges env !! k = Some e -> outer_bound_infos env !! k = Some info ->
     nth e (flux v) 0 = 0 /\ nth (BoundaryEdgeInfo.dual_vert_idx info) (pressure v) 0 = 0) ->
  vanishes_on_outer env v.
Proof.
  intros Hwf Hrun Hzero k e info He Hinfo.
  destruct (Hzero k e info He Hinfo) as [Hq Hp]. split; [done|]. split; [done|].
  intros i Hi.
  apply py_map_Returns in Hrun as [_ Hall].
  destruct (Hall k e He) as (info' & Hinfo' & Hret).
  rewrite Hinfo in Hinfo'. injection Hinfo' as <-.
  pose proof (Forall_lookup_1 _ _ _ _ (wfc_outer _ Hwf) He) as Hlt.
  apply (boundary_edge_info_Returns env e info Hwf Hlt) in Hret as ((_ & _ & Huniq) & _).
  assert (Hlti : (i < num_faces env)%nat).
  { destruct (decide (i < num_faces env)%nat) as [|Hge]; [done|]. exfalso. apply Hi.
    unfold incidence. rewrite (nth_overflow (d env)) by (rewrite (wfc_d_rows _ Hwf); lia).
    by destruct e. }
  by rewrite (Huniq i Hlti Hi).
Qed.

(** Without outer boundary edges every state vanishes on the outer
    boundary. *)
Lemma vanishes_without_outer (env : Env) (v : State) :
  outer_bound_edges env = [] -> vanishes_on_outer env v.
Proof. intros Hout k e info He. by rewrite Hout in He. Qed.

(** X3. With the records the script extracts from a well-formed complex, a
    forward step and a backward step on arrays of the sizes of the mesh run
    through: no index of the boundary loops is out of range, and the arrays
    keep their sizes. *)
Theorem extracted_infos_steps_run (env : Env) (src : R -> R)
    (fwd : ForwardSolve.t) (bwd : BackwardSolve.t) :
  wf_complex env ->
  compute_outer_bound_infos env = Returns (outer_bound_infos env) ->
  wf_state env (ForwardSolve.state fwd) ->
  wf_state env (BackwardSolve.state bwd) ->
  (exists fwd', ForwardSolve.step env src fwd = Ok fwd' /\
                wf_state env (ForwardSolve.state fwd')) /\
  (exists bwd', BackwardSolve.step env bwd = Ok bwd' /\
                wf_state env (BackwardSolve.state bwd')).
Proof.
  intros Hwfc Hrun Hf Hb. pose proof (extracted_infos_wf env Hwfc Hrun) as Hwf. split.
  - exists (spec_forward_step env src fwd).
    split; [by apply forward_step_Ok | by apply spec_forward_step_wf].
  - exists (spec_backward_step env bwd).
    split; [by apply backward_step_Ok | by apply spec_backward_step_wf].
Qed.

Lemma extracted_infos_steps_run_witness :
  (exists fwd', ForwardSolve.step square_env (fun _ => 1)
                  {| ForwardSolve.state := unit_pressure_state; ForwardSolve.time := 0 |}
                = Ok fwd' /\
                wf_state square_env (ForwardSolve.state fwd')) /\
  (exists bwd', BackwardSolve.step square_env
                  {| BackwardSolve.state := unit_pressure_state |} = Ok bwd' /\
                wf_state square_env (BackwardSolve.state bwd')).
Proof.
  exact (extracted_infos_steps_run square_env (fun _ => 1)
           {| ForwardSolve.state := unit_pressure_state; ForwardSolve.time := 0 |}
           {| BackwardSolve.state := unit_pressure_state |}
           wf_complex_square_env square_env_infos
           wf_unit_pressure_state wf_unit_pressure_state).
Defined.

(** ** The operations on states *)

Lemma vdot_self_eq_zero (a : vec) : vdot a a = 0 <-> a = zeros (length a).
Proof.
  induction a as [|x a IH]; simpl; [done|].
  pose proof (vdot_self_nonneg a) as Hnn. split.
  - intros H. assert (Hx : x = 0) by nra. subst x.
    assert (Ha : vdot a a = 0) by lra. apply IH in Ha.
    unfold zeros in *. simpl. by rewrite <- Ha.
  - intros [= -> Ha]. apply IH in Ha. lra.
Qed.

Lemma vdot_vsub_l (a b c : vec) :
  length a = length b -> vdot (vsub a b) c = vdot a c - vdot b c.
Proof.
  revert b c. induction a as [|x a IH]; intros [|y b] [|z c]; simpl;
    intros H; try discriminate; try ring.
  rewrite IH by lia. ring.
Qed.

Lemma vdot_vsub_r (a b c : vec) :
  length b = length c -> vdot a (vsub b c) = vdot a b - vdot a c.
Proof. intros H. rewrite !(vdot_comm a). by apply vdot_vsub_l. Qed.

Lemma vdot_vscale_l (s : R) (a b : vec) : vdot (vscale s a) b = s * vdot a b.
Proof. rewrite vdot_comm, vdot_vscale_r, vdot_comm. done. Qed.

Lemma vadd_vsub_cancel (a b : vec) : length a = length b -> vadd (vsub a b) b = a.
Proof.
  revert b. induction a as [|x a IH]; intros [|y b] H; try discriminate; [done|].
  unfold vadd, vsub in *. simpl. rewrite IH by (simpl in H; lia). f_equal. ring.
Qed.

Lemma vsub_vadd_cancel (a b : vec) : length a = length b -> vsub (vadd a b) b = a.
Proof.
  revert b. induction a as [|x a IH]; intros [|y b] H; try discriminate; [done|].
  unfold vadd, vsub in *. simpl. rewrite IH by (simpl in H; lia). f_equal. ring.
Qed.

Lemma vadd_vneg (a b : vec) : vadd a (vneg b) = vsub a b.
Proof.
  revert b. induction a as [|x a IH]; intros [|y b]; try done.
  unfold vadd, vsub, vneg in *. simpl. rewrite IH. done.
Qed.

Lemma vneg_vneg (a : vec) : vneg (vneg a) = a.
Proof.
  induction a as [|x a IH]; [done|]. unfold vneg in *. simpl. rewrite IH. f_equal. ring.
Qed.

(** X4. The control energy of a state is never negative, and it is zero
    only for the state whose arrays are all zeros. *)
Theorem energy_definite (s : State) :
  0 <= energy s /\
  (energy s = 0 <->
   pressure s = zeros (length (pressure s)) /\ flux s = zeros (length (flux s))).
Proof.
  unfold energy, dot.
  pose proof (vdot_self_nonneg (pressure s)) as Hp.
  pose proof (vdot_self_nonneg (flux s)) as Hq.
  split; [lra|]. rewrite <- !vdot_self_eq_zero. split; [intros H; split; lra | intros []; lra].
Qed.

(** X5. [dot] is a symmetric bilinear form on states of the same shapes, and
    [energy] is its quadratic form: the energy of a sum or of a difference
    is the sum of the energies plus or minus the product, and scaling a state
    by [c] scales its energy by [c * c]. *)
Theorem dot_bilinear_energy_quadratic (a b c : State) (s : R) :
  same_shape a b ->
  dot a b = dot b a /\
  dot (add a b) c = dot a c + dot b c /\
  dot (sub a b) c = dot a c - dot b c /\
  dot (scaled a s) c = s * dot a c /\
  energy (add a b) = energy a + dot a b + energy b /\
  energy (sub a b) = energy a - dot a b + energy b /\
  energy (scaled a s) = s * s * energy a.
Proof.
  intros [Hp Hq]. unfold energy, dot, add, sub, scaled. cbn [pressure flux].
  rewrite !vdot_vadd_l, !vdot_vsub_l, !vdot_vscale_l by done.
  rewrite !vdot_vadd_r, !vdot_vsub_r, !vdot_vscale_r by done.
  rewrite (vdot_comm (pressure b) (pressure a)), (vdot_comm (flux b) (flux a)).
  repeat split; lra.
Qed.

Lemma dot_bilinear_energy_quadratic_witness :
  dot unit_pressure_state unit_pressure_state = dot unit_pressure_state unit_pressure_state /\
  dot (add unit_pressure_state unit_pressure_state) unit_pressure_state
    = dot unit_pressure_state unit_pressure_state
      + dot unit_pressure_state unit_pressure_state /\
  dot (sub unit_pressure_state unit_pressure_state) unit_pressure_state
    = dot unit_pressure_state unit_pressure_state
      - dot unit_pressure_state unit_pressure_state /\
  dot (scaled unit_pressure_state 3) unit_pressure_state
    = 3 * dot unit_pressure_state unit_pressure_state /\
  energy (add unit_pressure_state unit_pressure_state)
    = energy unit_pressure_state + dot unit_pressure_state unit_pressure_state
      + energy unit_pressure_state /\
  energy (sub unit_pressure_state unit_pressure_state)
    = energy unit_pressure_state - dot unit_pressure_state unit_pressure_state
      + energy unit_pressure_state /\
  energy (scaled unit_pressure_state 3) = 3 * 3 * energy unit_pressure_state.
Proof.
  apply (dot_bilinear_energy_quadratic unit_pressure_state unit_pressure_state
           unit_pressure_state 3).
  split; reflexivity.
Defined.

(** X6. On states of the same shapes, adding a state cancels subtracting it
    and the other way round, adding the negated state is subtracting it, and
    negating twice gives the state back. *)
Theorem add_sub_round_trip (a b : State) :
  same_shape a b ->
  add (sub a b) b = a /\ sub (add a b) b = a /\
  add a (neg b) = sub a b /\ neg (neg a) = a.
Proof.
  intros [Hp Hq]. destruct a as [pa qa], b as [pb qb]. cbn [pressure flux] in *.
  unfold add, sub, neg. cbn [pressure flux].
  rewrite !vadd_vsub_cancel, !vsub_vadd_cancel, !vadd_vneg, !vneg_vneg by done. done.
Qed.

Lemma add_sub_round_trip_witness :
  add (sub unit_pressure_state (zero_state square_env)) (zero_state square_env)
    = unit_pressure_state /\
  sub (add unit_pressure_state (zero_state square_env)) (zero_state square_env)
    = unit_pressure_state /\
  add unit_pressure_state (neg (zero_state square_env))
    = sub unit_pressure_state (zero_state square_env) /\
  neg (neg unit_pressure_state) = unit_pressure_state.
Proof.
  apply (add_sub_round_trip unit_pressure_state (zero_state square_env)).
  split; reflexivity.
Defined.

(** ** The easing of the source terms *)

Lemma transition_time_pos (env : Env) : 0 < inc_angular_vel env -> 0 < transition_time env.
Proof.
  intros H. unfold transition_time, wave_period.
  assert (0 < 2 * PI / inc_angular_vel env); [|lra].
  apply Rdiv_lt_0_compat; [pose proof PI_RGT_0; lra | done].
Qed.

Lemma easing_Returns (env : Env) (t : R) :
  0 < inc_angular_vel env ->
  easing env t
  = Returns ((2 - sin (t / transition_time env * (PI / 2)))
             * sin (t / transition_time env * (PI / 2))).
Proof.
  intros H. pose proof (transition_time_pos env H) as HT.
  unfold easing, py_div. destruct (Req_dec_T (transition_time env) 0); [lra|]. done.
Qed.

Lemma div_nonneg (t T : R) : 0 < T -> 0 <= t -> 0 <= t / T.
Proof.
  intros HT Ht. unfold Rdiv. apply Rmult_le_pos; [done|].
  apply Rlt_le, Rinv_0_lt_compat. done.
Qed.

Lemma easing_angle (T t : R) :
  0 < T -> 0 <= t <= T -> 0 <= t / T * (PI / 2) <= PI / 2.
Proof.
  intros HT [H0 H1]. pose proof PI_RGT_0 as Hpi.
  assert (0 <= t / T <= 1).
  { split; [apply div_nonneg; lra|].
    apply Rmult_le_reg_r with T; [done|]. unfold Rdiv.
    rewrite Rmult_assoc, Rinv_l by lra. lra. }
  split; nra.
Qed.

(** X7. With a positive angular velocity the easing function returns for
    every time; it is 0 at time 0 and 1 at the transition time, never above 1,
    never below 0 up to twice the transition time, and it does not decrease
    on the way from 0 to the transition time. *)
Theorem easing_shape (env : Env) :
  0 < inc_angular_vel env ->
  easing env 0 = Returns 0 /\
  easing env (transition_time env) = Returns 1 /\
  (forall t, exists y, easing env t = Returns y /\ y <= 1 /\
     (0 <= t <= 2 * transition_time env -> 0 <= y)) /\
  (forall t1 t2 y1 y2, 0 <= t1 -> t1 <= t2 -> t2 <= transition_time env ->
     easing env t1 = Returns y1 -> easing env t2 = Returns y2 -> y1 <= y2).
Proof.
  intros H. pose proof (transition_time_pos env H) as HT.
  pose proof PI_RGT_0 as Hpi. repeat split.
  - rewrite easing_Returns by done.
    replace (0 / transition_time env * (PI / 2)) with 0 by (unfold Rdiv; ring).
    rewrite sin_0. f_equal. ring.
  - rewrite easing_Returns by done.
    replace (transition_time env / transition_time env * (PI / 2)) with (PI / 2)
      by (field; lra).
    rewrite sin_PI2. f_equal. ring.
  - intros t. eexists. split; [by apply easing_Returns|].
    set (s := sin _). pose proof (SIN_bound (t / transition_time env * (PI / 2))) as Hs.
    fold s in Hs. split; [nra|]. intros [H0 H2].
    assert (0 <= s); [|nra]. apply sin_ge_0.
    + assert (0 <= t / transition_time env) by (apply div_nonneg; lra). nra.
    + assert (t / transition_time env <= 2); [|nra].
      apply Rmult_le_reg_r with (transition_time env); [done|]. unfold Rdiv.
      rewrite Rmult_assoc, Rinv_l by lra. lra.
  - intros t1 t2 y1 y2 H0 H12 H2T. rewrite !easing_Returns by done.
    intros [= <-] [= <-].
    set (a1 := t1 / transition_time env * (PI / 2)).
    set (a2 := t2 / transition_time env * (PI / 2)).
    pose proof (easing_angle (transition_time env) t1 HT ltac:(lra)) as Ha1.
    pose proof (easing_angle (transition_time env) t2 HT ltac:(lra)) as Ha2.
    fold a1 in Ha1. fold a2 in Ha2.
    assert (Ha : a1 <= a2).
    { unfold a1, a2. apply Rmult_le_compat_r; [lra|].
      unfold Rdiv. apply Rmult_le_compat_r; [|lra].
      apply Rlt_le, Rinv_0_lt_compat. done. }
    assert (Hsin : sin a1 <= sin a2) by (apply sin_incr_1; lra).
    pose proof (SIN_bound a1). pose proof (SIN_bound a2). nra.
Qed.

Lemma easing_shape_witness :
  easing square_env 0 = Returns 0 /\
  easing square_env (transition_time square_env) = Returns 1 /\
  (forall t, exists y, easing square_env t = Returns y /\ y <= 1 /\
     (0 <= t <= 2 * transition_time square_env -> 0 <= y)) /\
  (forall t1 t2 y1 y2, 0 <= t1 -> t1 <= t2 -> t2 <= transition_time square_env ->
     easing square_env t1 = Returns y1 -> easing square_env t2 = Returns y2 -> y1 <= y2).
Proof. apply (easing_shape square_env). simpl. lra. Defined.

(** X8. The easing function is not held at 1 after the transition time: it
    takes the same value at equal distances before and after the transition
    time, so it falls back to 0 at twice the transition time, and at three
    times the transition time it is -3. *)
Theorem easing_after_transition (env : Env) (x : R) :
  0 < inc_angular_vel env ->
  easing env (transition_time env + x) = easing env (transition_time env - x) /\
  easing env (2 * transition_time env) = Returns 0 /\
  easing env (3 * transition_time env) = Returns (-3).
Proof.
  intros H. pose proof (transition_time_pos env H) as HT.
  rewrite !easing_Returns by done. repeat split.
  - replace ((transition_time env + x) / transition_time env * (PI / 2))
      with (PI - (transition_time env - x) / transition_time env * (PI / 2))
      by (field; lra).
    by rewrite sin_PI_x.
  - replace (2 * transition_time env / transition_time env * (PI / 2)) with PI
      by (field; lra).
    rewrite sin_PI. f_equal. ring.
  - replace (3 * transition_time env / transition_time env * (PI / 2)) with (3 * (PI / 2))
      by (field; lra).
    rewrite sin_3PI2. f_equal. ring.
Qed.

Lemma easing_after_transition_witness :
  easing square_env (transition_time square_env + 1)
    = easing square_env (transition_time square_env - 1) /\
  easing square_env (2 * transition_time square_env) = Returns 0 /\
  easing square_env (3 * transition_time square_env) = Returns (-3).
Proof. apply (easing_after_transition square_env 1). simpl. lra. Defined.

(** ** The incoming wave *)

Lemma sin_shift_2PI (x : R) : sin (x + 2 * PI) = sin x.
Proof. rewrite sin_plus, sin_2PI, cos_2PI. ring. Qed.

Lemma cos_shift_2PI (x : R) : cos (x + 2 * PI) = cos x.
Proof. rewrite cos_plus, sin_2PI, cos_2PI. ring. Qed.

Lemma wave_angle_period (env : Env) (t : R) :
  inc_angular_vel env <> 0 ->
  inc_angular_vel env * (t + wave_period env) = inc_angular_vel env * t + 2 * PI.
Proof. intros H. unfold wave_period. field. done. Qed.

(** X9. The incoming wave has the period [wave_period]: its pressure at a
    point and its flux over an edge are the same one wave period later,
    whenever the angular velocity is not zero. *)
Theorem inc_wave_periodic (env : Env) (t : R) (position : R * R) (verts : nat * nat) :
  inc_angular_vel env <> 0 ->
  eval_inc_wave_pressure env (t + wave_period env) position
    = eval_inc_wave_pressure env t position /\
  eval_inc_wave_flux env (t + wave_period env) verts = eval_inc_wave_flux env t verts.
Proof.
  intros H. split.
  - unfold eval_inc_wave_pressure. rewrite wave_angle_period by done.
    replace (inc_angular_vel env * t + 2 * PI - dot2 (inc_wave_vector env) position)
      with (inc_angular_vel env * t - dot2 (inc_wave_vector env) position + 2 * PI) by ring.
    by rewrite sin_shift_2PI.
  - unfold eval_inc_wave_flux. rewrite wave_angle_period by done.
    destruct (getitem (vertices env) verts.1) as [p0| |]; cbn [bind]; try done.
    destruct (getitem (vertices env) verts.2) as [p1| |]; cbn [bind]; try done.
    set (kdotp := dot2 (inc_wave_vector env) p0).
    set (kdotl := dot2 (inc_wave_vector env) _).
    set (kdotn := dot2 (inc_wave_vector env) _).
    replace (inc_angular_vel env * t + 2 * PI - kdotp)
      with (inc_angular_vel env * t - kdotp + 2 * PI) by ring.
    replace (inc_angular_vel env * t - kdotp + 2 * PI - kdotl)
      with (inc_angular_vel env * t - kdotp - kdotl + 2 * PI) by ring.
    by rewrite sin_shift_2PI, !cos_shift_2PI.
Qed.

Lemma inc_wave_periodic_witness :
  eval_inc_wave_pressure square_env (0 + wave_period square_env) (0.5, 0.5)
    = eval_inc_wave_pressure square_env 0 (0.5, 0.5) /\
  eval_inc_wave_flux square_env (0 + wave_period square_env) (0, 2)%nat
    = eval_inc_wave_flux square_env 0 (0, 2)%nat.
Proof. apply (inc_wave_periodic square_env 0 (0.5, 0.5) (0, 2)%nat). simpl. lra. Defined.

(** X10. Where the wave vector is not nearly perpendicular to the edge, the
    flux of the incoming wave over the edge changes sign when the two ends
    of the edge are exchanged. *)
Theorem inc_wave_flux_reversed (env : Env) (t : R) (v0 v1 : nat) (p0 p1 : R * R) :
  vertices env !! v0 = Some p0 -> vertices env !! v1 = Some p1 ->
  1e-5 <= Rabs (dot2 (inc_wave_vector env) (fst p1 - fst p0, snd p1 - snd p0)) ->
  exists w, eval_inc_wave_flux env t (v0, v1) = Ok w /\
            eval_inc_wave_flux env t (v1, v0) = Ok (- w).
Proof.
  intros H0 H1 Hk. eexists. split; [by apply eval_inc_wave_flux_value|].
  rewrite (eval_inc_wave_flux_value env t v1 v0 p1 p0) by done. f_equal.
  unfold inc_wave_flux_formula. cbn [fst snd].
  set (k := inc_wave_vector env) in *. unfold dot2 in *. cbn [fst snd] in *.
  set (kl := k.1 * (p1.1 - p0.1) + k.2 * (p1.2 - p0.2)) in *.
  replace (k.1 * (p0.1 - p1.1) + k.2 * (p0.2 - p1.2)) with (- kl) by (unfold kl; ring).
  rewrite Rabs_Ropp.
  destruct (Rlt_dec (Rabs kl) 1e-5) as [Hlt|_]; [lra|].
  assert (Hnz : kl <> 0).
  { intros Hz. rewrite Hz, Rabs_R0 in Hk. lra. }
  replace (inc_angular_vel env * t - (k.1 * p1.1 + k.2 * p1.2) - - kl)
    with (inc_angular_vel env * t - (k.1 * p0.1 + k.2 * p0.2)) by (unfold kl; ring).
  replace (inc_angular_vel env * t - (k.1 * p1.1 + k.2 * p1.2))
    with (inc_angular_vel env * t - (k.1 * p0.1 + k.2 * p0.2) - kl) by (unfold kl; ring).
  field. done.
Qed.

Lemma inc_wave_flux_reversed_witness :
  exists w, eval_inc_wave_flux square_env 0 (0, 3)%nat = Ok w /\
            eval_inc_wave_flux square_env 0 (3, 0)%nat = Ok (- w).
Proof.
  apply (inc_wave_flux_reversed square_env 0 0 3 (0, 0) (0, 1)); [reflexivity..|].
  unfold dot2, inc_wave_vector, inc_wave_dir, inc_angle. simpl.
  replace (90 * 2 * PI / 360) with (PI / 2) by field.
  rewrite cos_PI2, sin_PI2.
  replace (1 * 0 * (0 - 0) + 1 * 1 * (1 - 0)) with 1 by ring.
  rewrite Rabs_R1. lra.
Defined.

(** ** Superposition: the steps and the gradient on linear combinations *)

(** [a + s * b] on arrays. *)
Lemma vdot_lin (row a b : vec) (s : R) :
  length a = length b ->
  vdot row (vadd a (vscale s b)) = vdot row a + s * vdot row b.
Proof.
  intros H. rewrite vdot_vadd_r by (by rewrite length_vscale). by rewrite vdot_vscale_r.
Qed.

Lemma length_lin (a b : vec) (s : R) :
  length a = length b -> length (vadd a (vscale s b)) = length a.
Proof. intros H. rewrite length_vadd, length_vscale. lia. Qed.

Lemma nth_lin (a b : vec) (s : R) (i : nat) :
  length a = length b -> nth i (vadd a (vscale s b)) 0 = nth i a 0 + s * nth i b 0.
Proof. intros H. rewrite nth_vadd by (by rewrite length_vscale). by rewrite nth_vscale. Qed.

(** [x += A * u] on a linear combination. *)
Lemma update_lin (A : matrix) (x y u v : vec) (s : R) :
  length x = length A -> length y = length A -> length u = length v ->
  vadd (vadd x (vscale s y)) (matvec A (vadd u (vscale s v)))
  = vadd (vadd x (matvec A u)) (vscale s (vadd y (matvec A v))).
Proof.
  intros Hx Hy Huv. apply vec_ext.
  - rewrite !length_vadd, !length_vscale, !length_vadd, !length_matvec. lia.
  - intros i _.
    rewrite nth_vadd by (rewrite length_lin, length_matvec; lia).
    rewrite nth_lin by lia.
    rewrite nth_lin by (rewrite !length_vadd, !length_matvec; lia).
    rewrite !nth_vadd by (rewrite length_matvec; lia).
    rewrite !nth_matvec, vdot_lin by done. ring.
Qed.

Lemma insert_lin (a b : vec) (s x y : R) (k : nat) :
  <[k := x + s * y]> (vadd a (vscale s b)) = vadd (<[k := x]> a) (vscale s (<[k := y]> b)).
Proof.
  unfold vadd, vscale. change (map (Rmult s)) with (fmap (M := list) (Rmult s)).
  rewrite list_fmap_insert. apply (insert_zip_with Rplus).
Qed.

Lemma overwrite_lin {X : Type} (key : X -> nat) (vh vf vg : X -> R) (s : R)
    (xs : list X) (a b : vec) :
  (forall x, x ∈ xs -> vh x = vf x + s * vg x) ->
  overwrite key vh xs (vadd a (vscale s b))
  = vadd (overwrite key vf xs a) (vscale s (overwrite key vg xs b)).
Proof.
  unfold overwrite. revert a b. induction xs as [|x xs IH]; intros a b H; simpl; [done|].
  rewrite (H x) by left. rewrite insert_lin. apply IH. intros y Hy. apply H. by right.
Qed.

Lemma absorbing_flux_lin (sign s : R) (p p' : vec) (item : nat * BoundaryEdgeInfo.t) :
  length p = length p' ->
  absorbing_flux sign (vadd p (vscale s p')) item
  = absorbing_flux sign p item + s * absorbing_flux sign p' item.
Proof. intros H. unfold absorbing_flux. rewrite nth_lin by done. ring. Qed.

(** [a + s * b] on states. *)
Lemma wf_state_lin (env : Env) (a b : State) (s : R) :
  wf_state env a -> wf_state env b -> wf_state env (add a (scaled b s)).
Proof.
  intros [Hpa Hqa] [Hpb Hqb]. unfold wf_state, add, scaled. cbn [pressure flux].
  rewrite !length_vadd, !length_vscale. lia.
Qed.

Lemma spec_forward_step_lin (env : Env) (f g h : R -> R) (s t : R) (a b : State) :
  wf_env env -> wf_state env a -> wf_state env b ->
  (forall x, h x = f x + s * g x) ->
  ForwardSolve.state
    (spec_forward_step env h
       {| ForwardSolve.state := add a (scaled b s); ForwardSolve.time := t |})
  = add (ForwardSolve.state
           (spec_forward_step env f {| ForwardSolve.state := a; ForwardSolve.time := t |}))
        (scaled (ForwardSolve.state
           (spec_forward_step env g {| ForwardSolve.state := b; ForwardSolve.time := t |})) s).
Proof.
  intros Hwf [Hpa Hqa] [Hpb Hqb] Hh.
  destruct (wf_p_step_mat env Hwf) as [HP _]. destruct (wf_q_step_mat env Hwf) as [HQ _].
  unfold spec_forward_step, add, scaled.
  cbn [ForwardSolve.state ForwardSolve.time pressure flux].
  assert (Hp1 : vadd (vadd (pressure a) (vscale s (pressure b)))
                  (matvec (p_step_mat env) (vadd (flux a) (vscale s (flux b))))
                = vadd (vadd (pressure a) (matvec (p_step_mat env) (flux a)))
                    (vscale s (vadd (pressure b) (matvec (p_step_mat env) (flux b))))).
  { apply update_lin; lia. }
  rewrite Hp1. f_equal.
  set (pa1 := vadd (pressure a) _). set (pb1 := vadd (pressure b) _).
  assert (Hla : length pa1 = num_faces env).
  { unfold pa1. rewrite length_vadd, length_matvec. lia. }
  assert (Hlb : length pb1 = num_faces env).
  { unfold pb1. rewrite length_vadd, length_matvec. lia. }
  rewrite (update_lin (q_step_mat env)) by lia.
  rewrite (overwrite_lin _ _
             (fun e => f (t + dt env + 0.5 * dt env)
                       * incoming_wave_flux env (t + dt env + 0.5 * dt env) e)
             (fun e => g (t + dt env + 0.5 * dt env)
                       * incoming_wave_flux env (t + dt env + 0.5 * dt env) e) s).
  2:{ intros e _. rewrite Hh. ring. }
  apply overwrite_lin. intros item _. apply absorbing_flux_lin. lia.
Qed.

Lemma spec_backward_step_lin (env : Env) (s : R) (a b : State) :
  wf_env env -> wf_state env a -> wf_state env b ->
  BackwardSolve.state
    (spec_backward_step env {| BackwardSolve.state := add a (scaled b s) |})
  = add (BackwardSolve.state (spec_backward_step env {| BackwardSolve.state := a |}))
        (scaled (BackwardSolve.state
                   (spec_backward_step env {| BackwardSolve.state := b |})) s).
Proof.
  intros Hwf [Hpa Hqa] [Hpb Hqb].
  pose proof (length_p_step_mat_T env Hwf) as HP.
  pose proof (length_q_step_mat_T env Hwf) as HQ.
  unfold spec_backward_step, add, scaled. cbn [BackwardSolve.state pressure flux].
  rewrite (update_lin (p_step_mat_T env)) by lia.
  rewrite (overwrite_lin _ _ (fun _ => 0) (fun _ => 0) s) by (intros; ring).
  rewrite (overwrite_lin _ _ (absorbing_flux 1 (pressure a)) (absorbing_flux 1 (pressure b)) s)
    by (intros; apply absorbing_flux_lin; lia).
  f_equal. apply update_lin; [lia..|].
  rewrite !length_overwrite, !length_vadd, !length_matvec. lia.
Qed.

Lemma forward_run_iter (env : Env) (f : R -> R) (n : nat) (x : ForwardSolve.t) :
  wf_env env -> wf_state env (ForwardSolve.state x) ->
  repeat_n n (ForwardSolve.step env f) x = Ok (Nat.iter n (spec_forward_step env f) x) /\
  wf_state env (ForwardSolve.state (Nat.iter n (spec_forward_step env f) x)).
Proof.
  intros Hwf Hx. induction n as [|n [IH1 IH2]]; [done|].
  rewrite repeat_n_snoc, IH1. cbn [bind Nat.iter nat_rect].
  split; [by apply forward_step_Ok | by apply spec_forward_step_wf].
Qed.

Lemma backward_run_iter (env : Env) (n : nat) (x : BackwardSolve.t) :
  wf_env env -> wf_state env (BackwardSolve.state x) ->
  repeat_n n (BackwardSolve.step env) x = Ok (Nat.iter n (spec_backward_step env) x) /\
  wf_state env (BackwardSolve.state (Nat.iter n (spec_backward_step env) x)).
Proof.
  intros Hwf Hx. induction n as [|n [IH1 IH2]]; [done|].
  rewrite repeat_n_snoc, IH1. cbn [bind Nat.iter nat_rect].
  split; [by apply backward_step_Ok | by apply spec_backward_step_wf].
Qed.

Lemma forward_iter_time (env : Env) (f : R -> R) (n : nat) (x : ForwardSolve.t) :
  ForwardSolve.time (Nat.iter n (spec_forward_step env f) x)
  = ForwardSolve.time x + INR n * dt env.
Proof.
  induction n as [|n IH]; [simpl; ring|].
  rewrite S_INR. cbn [Nat.iter nat_rect]. unfold spec_forward_step at 1.
  cbn [ForwardSolve.time]. unfold Nat.iter in IH. rewrite IH. ring.
Qed.

Lemma forward_iter_lin (env : Env) (f g h : R -> R) (s t : R) (a b : State) (n : nat) :
  wf_env env -> wf_state env a -> wf_state env b ->
  (forall x, h x = f x + s * g x) ->
  ForwardSolve.state
    (Nat.iter n (spec_forward_step env h)
       {| ForwardSolve.state := add a (scaled b s); ForwardSolve.time := t |})
  = add (ForwardSolve.state
           (Nat.iter n (spec_forward_step env f)
              {| ForwardSolve.state := a; ForwardSolve.time := t |}))
        (scaled (ForwardSolve.state
           (Nat.iter n (spec_forward_step env g)
              {| ForwardSolve.state := b; ForwardSolve.time := t |})) s).
Proof.
  intros Hwf Ha Hb Hh. induction n as [|n IH]; [done|].
  rewrite !Nat.iter_succ.
  pose proof (forward_iter_time env h n
    {| ForwardSolve.state := add a (scaled b s); ForwardSolve.time := t |}) as Th.
  pose proof (forward_iter_time env f n
    {| ForwardSolve.state := a; ForwardSolve.time := t |}) as Tf.
  pose proof (forward_iter_time env g n
    {| ForwardSolve.state := b; ForwardSolve.time := t |}) as Tg.
  pose proof (proj2 (forward_run_iter env f n
    {| ForwardSolve.state := a; ForwardSolve.time := t |} Hwf Ha)) as Wf.
  pose proof (proj2 (forward_run_iter env g n
    {| ForwardSolve.state := b; ForwardSolve.time := t |} Hwf Hb)) as Wg.
  destruct (Nat.iter n (spec_forward_step env h) _) as [sh th].
  destruct (Nat.iter n (spec_forward_step env f) _) as [sf tf].
  destruct (Nat.iter n (spec_forward_step env g) _) as [sg tg].
  cbn [ForwardSolve.state ForwardSolve.time] in *. subst sh th tf tg.
  by apply spec_forward_step_lin.
Qed.

Lemma backward_iter_lin (env : Env) (s : R) (a b : State) (n : nat) :
  wf_env env -> wf_state env a -> wf_state env b ->
  BackwardSolve.state
    (Nat.iter n (spec_backward_step env) {| BackwardSolve.state := add a (scaled b s) |})
  = add (BackwardSolve.state
           (Nat.iter n (spec_backward_step env) {| BackwardSolve.state := a |}))
        (scaled (BackwardSolve.state
           (Nat.iter n (spec_backward_step env) {| BackwardSolve.state := b |})) s).
Proof.
  intros Hwf Ha Hb. induction n as [|n IH]; [done|].
  rewrite !Nat.iter_succ.
  pose proof (proj2 (backward_run_iter env n {| BackwardSolve.state := a |} Hwf Ha)) as Wa.
  pose proof (proj2 (backward_run_iter env n {| BackwardSolve.state := b |} Hwf Hb)) as Wb.
  destruct (Nat.iter n (spec_backward_step env) {| BackwardSolve.state := add a _ |}) as [sh].
  destruct (Nat.iter n (spec_backward_step env) {| BackwardSolve.state := a |}) as [sa].
  destruct (Nat.iter n (spec_backward_step env) {| BackwardSolve.state := b |}) as [sb].
  cbn [BackwardSolve.state] in *. subst sh.
  by apply spec_backward_step_lin.
Qed.

Lemma compute_cost_gradient_closed (env : Env) (x : State) (b : bool) :
  wf_env env -> wf_state env x ->
  compute_cost_gradient env x b = Ok (gradient_closed env x b).
Proof.
  intros Hwf Hx. unfold compute_cost_gradient, gradient_closed, forward_period.
  rewrite copy_eq.
  change (if b then fun _ : R => 1 else fun _ : R => 0) with (source_scaling b).
  destruct (forward_run_iter env (source_scaling b) (steps_per_period env)
              {| ForwardSolve.state := x; ForwardSolve.time := 0 |} Hwf Hx) as [-> Hf].
  cbn [bind]. rewrite copy_eq.
  set (D := sub _ x).
  assert (HD : wf_state env D) by (by apply wf_state_sub).
  assert (HB : wf_state env (bwd_init_state env D)).
  { destruct HD as [HDp HDq]. unfold wf_state, bwd_init_state. cbn [pressure flux].
    rewrite length_vsub, length_matvec, length_vneg, (length_q_step_mat_T env Hwf). lia. }
  fold (bwd_init_state env D).
  destruct (backward_run_iter env (steps_per_period env - 1)
              {| BackwardSolve.state := bwd_init_state env D |} Hwf HB) as [-> _].
  done.
Qed.

Lemma vsub_lin (a b c e : vec) (s : R) :
  length a = length b -> length c = length a -> length e = length a ->
  vsub (vadd a (vscale s b)) (vadd c (vscale s e))
  = vadd (vsub a c) (vscale s (vsub b e)).
Proof.
  intros Hb Hc He. apply vec_ext.
  - rewrite !length_vsub, !length_vadd, !length_vscale, !length_vsub. lia.
  - intros i _.
    rewrite nth_vsub by (rewrite !length_lin; lia).
    rewrite !nth_lin by (rewrite ?length_vsub; lia).
    rewrite !nth_vsub by lia. ring.
Qed.

Lemma vneg_lin (a b : vec) (s : R) :
  length a = length b ->
  vneg (vadd a (vscale s b)) = vadd (vneg a) (vscale s (vneg b)).
Proof.
  intros Hb. apply vec_ext.
  - rewrite length_vneg, !length_vadd, !length_vscale, !length_vneg. lia.
  - intros i _. rewrite nth_vneg, !nth_lin by (rewrite ?length_vneg; lia).
    rewrite !nth_vneg. ring.
Qed.

Lemma matvec_lin (A : matrix) (u v : vec) (s : R) :
  length u = length v ->
  matvec A (vadd u (vscale s v)) = vadd (matvec A u) (vscale s (matvec A v)).
Proof.
  intros H. apply vec_ext.
  - rewrite length_vadd, length_vscale, !length_matvec. lia.
  - intros i _. rewrite nth_lin by (by rewrite !length_matvec).
    rewrite !nth_matvec. by apply vdot_lin.
Qed.

Lemma sub_lin (env : Env) (a b c e : State) (s : R) :
  wf_state env a -> wf_state env b -> wf_state env c -> wf_state env e ->
  sub (add a (scaled b s)) (add c (scaled e s)) = add (sub a c) (scaled (sub b e) s).
Proof.
  intros [] [] [] []. unfold sub, add, scaled. cbn [pressure flux].
  rewrite !vsub_lin by lia. done.
Qed.

Lemma wf_bwd_init_state (env : Env) (D : State) :
  wf_env env -> wf_state env D -> wf_state env (bwd_init_state env D).
Proof.
  intros Hwf [HDp HDq]. unfold wf_state, bwd_init_state. cbn [pressure flux].
  rewrite length_vsub, length_matvec, length_vneg, (length_q_step_mat_T env Hwf). lia.
Qed.

Lemma bwd_init_state_lin (env : Env) (a b : State) (s : R) :
  wf_env env -> wf_state env a -> wf_state env b ->
  bwd_init_state env (add a (scaled b s))
  = add (bwd_init_state env a) (scaled (bwd_init_state env b) s).
Proof.
  intros Hwf [] []. pose proof (length_q_step_mat_T env Hwf).
  unfold bwd_init_state, add, scaled. cbn [pressure flux].
  rewrite !vneg_lin by lia. f_equal.
  rewrite matvec_lin by (rewrite !length_vneg; lia).
  apply vsub_lin; rewrite !length_matvec; lia.
Qed.

Lemma final_bwd_state_lin (env : Env) (a b : State) (s : R) :
  wf_env env -> wf_state env a -> wf_state env b ->
  final_bwd_state env (add a (scaled b s))
  = add (final_bwd_state env a) (scaled (final_bwd_state env b) s).
Proof.
  intros Hwf [] []. pose proof (length_p_step_mat_T env Hwf).
  unfold final_bwd_state, add, scaled. cbn [pressure flux].
  rewrite !vneg_lin by lia. f_equal.
  rewrite matvec_lin by lia.
  apply vsub_lin; rewrite ?length_vneg, ?length_matvec; lia.
Qed.

Lemma wf_final_bwd_state (env : Env) (a : State) :
  wf_env env -> wf_state env a -> wf_state env (final_bwd_state env a).
Proof.
  intros Hwf []. pose proof (length_p_step_mat_T env Hwf).
  unfold wf_state, final_bwd_state. cbn [pressure flux].
  rewrite length_vsub, !length_vneg, length_matvec. lia.
Qed.

Lemma wf_forward_period (env : Env) (f : R -> R) (x : State) :
  wf_env env -> wf_state env x -> wf_state env (forward_period env f x).
Proof. intros Hwf Hx. by apply forward_run_iter. Qed.

Lemma forward_period_lin (env : Env) (b : bool) (x y : State) (s : R) :
  wf_env env -> wf_state env x -> wf_state env y ->
  forward_period env (source_scaling b) (add x (scaled y s))
  = add (forward_period env (source_scaling b) x)
        (scaled (forward_period env (source_scaling false) y) s).
Proof.
  intros Hwf Hx Hy. unfold forward_period. apply forward_iter_lin; try done.
  intros t. simpl. ring.
Qed.

Lemma gradient_closed_lin (env : Env) (x y : State) (s : R) (b : bool) :
  wf_env env -> wf_state env x -> wf_state env y ->
  gradient_closed env (add x (scaled y s)) b
  = {| gradient := add (gradient (gradient_closed env x b))
                       (scaled (gradient (gradient_closed env y false)) s);
       forward_diff := add (forward_diff (gradient_closed env x b))
                           (scaled (forward_diff (gradient_closed env y false)) s) |}.
Proof.
  intros Hwf Hx Hy. unfold gradient_closed. cbn [gradient forward_diff].
  rewrite forward_period_lin by done.
  pose proof (wf_forward_period env (source_scaling b) x Hwf Hx) as HFx.
  pose proof (wf_forward_period env (source_scaling false) y Hwf Hy) as HFy.
  rewrite (sub_lin env) by done.
  set (Dx := sub (forward_period env (source_scaling b) x) x).
  set (Dy := sub (forward_period env (source_scaling false) y) y).
  assert (HDx : wf_state env Dx) by (by apply wf_state_sub).
  assert (HDy : wf_state env Dy) by (by apply wf_state_sub).
  rewrite bwd_init_state_lin by done.
  pose proof (wf_bwd_init_state env Dx Hwf HDx) as HBx.
  pose proof (wf_bwd_init_state env Dy Hwf HDy) as HBy.
  rewrite backward_iter_lin by done.
  pose proof (proj2 (backward_run_iter env (steps_per_period env - 1)
                {| BackwardSolve.state := bwd_init_state env Dx |} Hwf HBx)) as HRx.
  pose proof (proj2 (backward_run_iter env (steps_per_period env - 1)
                {| BackwardSolve.state := bwd_init_state env Dy |} Hwf HBy)) as HRy.
  rewrite final_bwd_state_lin by done.
  rewrite (sub_lin env) by (done || by apply wf_final_bwd_state).
  done.
Qed.

Lemma wf_gradient_closed (env : Env) (x : State) (b : bool) :
  wf_env env -> wf_state env x ->
  wf_state env (gradient (gradient_closed env x b)) /\
  wf_state env (forward_diff (gradient_closed env x b)).
Proof.
  intros Hwf Hx.
  destruct (compute_cost_gradient_total env x b Hwf Hx) as (r & Hr & Hg & Hd).
  rewrite compute_cost_gradient_closed in Hr by done. by injection Hr as <-.
Qed.

(** X11. The gradient evaluation is a superposition: on states of the sizes
    of the mesh, the evaluation at [x + s * y] is the evaluation at [x] plus
    [s] times the evaluation at [y] without source terms, for the gradient
    and for the forward difference.  With source terms it is an affine map
    ([Ax - b]), without them a linear one ([Ax]). *)
Theorem cost_gradient_superposition (env : Env) (x y : State) (s : R) (b : bool) :
  wf_env env -> wf_state env x -> wf_state env y ->
  exists gx gy gxy,
    compute_cost_gradient env x b = Ok gx /\
    compute_cost_gradient env y false = Ok gy /\
    compute_cost_gradient env (add x (scaled y s)) b = Ok gxy /\
    gradient gxy = add (gradient gx) (scaled (gradient gy) s) /\
    forward_diff gxy = add (forward_diff gx) (scaled (forward_diff gy) s).
Proof.
  intros Hwf Hx Hy.
  exists (gradient_closed env x b), (gradient_closed env y false),
         (gradient_closed env (add x (scaled y s)) b).
  rewrite !compute_cost_gradient_closed by (done || by apply wf_state_lin).
  rewrite gradient_closed_lin by done. done.
Qed.

Lemma cost_gradient_superposition_witness :
  exists gx gy gxy,
    compute_cost_gradient square_env unit_pressure_state true = Ok gx /\
    compute_cost_gradient square_env unit_pressure_state false = Ok gy /\
    compute_cost_gradient square_env
      (add unit_pressure_state (scaled unit_pressure_state 2)) true = Ok gxy /\
    gradient gxy = add (gradient gx) (scaled (gradient gy) 2) /\
    forward_diff gxy = add (forward_diff gx) (scaled (forward_diff gy) 2).
Proof.
  exact (cost_gradient_superposition square_env unit_pressure_state unit_pressure_state 2 true
           wf_square_env wf_unit_pressure_state wf_unit_pressure_state).
Defined.

(** ** Invariants of the optimisation loop *)

Lemma vneg_lin_sub (a b : vec) (s : R) :
  length a = length b ->
  vneg (vadd a (vscale s b)) = vsub (vneg a) (vscale s b).
Proof.
  intros H. apply vec_ext.
  - rewrite length_vneg, length_vadd, length_vsub, length_vneg, !length_vscale. lia.
  - intros i _. rewrite nth_vneg, nth_lin by done.
    rewrite nth_vsub by (rewrite length_vneg, length_vscale; lia).
    rewrite nth_vneg, nth_vscale. ring.
Qed.

Lemma neg_lin_sub (env : Env) (a b : State) (s : R) :
  wf_state env a -> wf_state env b ->
  neg (add a (scaled b s)) = sub (neg a) (scaled b s).
Proof.
  intros [] []. unfold neg, add, sub, scaled. cbn [pressure flux].
  rewrite !vneg_lin_sub by lia. done.
Qed.

Lemma wf_state_neg (env : Env) (a : State) : wf_state env a -> wf_state env (neg a).
Proof. intros []. unfold wf_state, neg. cbn [pressure flux]. by rewrite !length_vneg. Qed.

Lemma wf_state_scaled (env : Env) (a : State) (s : R) :
  wf_state env a -> wf_state env (scaled a s).
Proof. intros []. unfold wf_state, scaled. cbn [pressure flux]. by rewrite !length_vscale. Qed.

Lemma wf_state_add (env : Env) (a b : State) :
  wf_state env a -> wf_state env b -> wf_state env (add a b).
Proof.
  intros [] []. unfold wf_state, add. cbn [pressure flux]. rewrite !length_vadd. lia.
Qed.

Lemma cg_init_invariant (env : Env) (x : State) (st0 : CG) :
  wf_env env -> wf_state env x -> cg_init env x = Ok st0 -> cg_invariant env st0.
Proof.
  intros Hwf Hx. unfold cg_init. rewrite copy_eq.
  rewrite compute_cost_gradient_closed by done. cbn [bind].
  rewrite bind_Ok. intros (e & _ & [= <-]). unfold cg_invariant.
  cbn [approx_solution residual search_dir]. rewrite copy_eq.
  destruct (wf_gradient_closed env x true Hwf Hx) as [Hg _].
  pose proof (wf_state_neg env _ Hg). done.
Qed.

Lemma cg_body_invariant (env : Env) (st st' : CG) :
  wf_env env -> cg_invariant env st -> cg_body env st = Ok st' -> cg_invariant env st'.
Proof.
  intros Hwf (Hx & Hr & Hw & Hres). unfold cg_body.
  rewrite compute_cost_gradient_closed by done. cbn [bind].
  rewrite bind_Ok. intros (alpha & _ & H). cbv zeta in H.
  apply bind_Ok in H as (beta & _ & H). apply bind_Ok in H as (e & _ & [= <-]).
  unfold cg_invariant. cbn [approx_solution residual search_dir].
  destruct (wf_gradient_closed env (search_dir st) false Hwf Hw) as [HAw _].
  destruct (wf_gradient_closed env (approx_solution st) true Hwf Hx) as [Hgx _].
  assert (Hr' : wf_state env (sub (residual st)
                 (scaled (gradient (gradient_closed env (search_dir st) false)) alpha))).
  { apply wf_state_sub; [done | by apply wf_state_scaled]. }
  split; [by apply wf_state_lin|]. split; [done|]. split; [by apply wf_state_lin|].
  rewrite gradient_closed_lin by done. cbn [gradient].
  rewrite (neg_lin_sub env) by done. by rewrite <- Hres.
Qed.

Lemma cg_iterates_invariant (env : Env) (k : nat) (st0 st : CG) :
  wf_env env -> cg_invariant env st0 -> repeat_n k (cg_body env) st0 = Ok st ->
  cg_invariant env st.
Proof.
  intros Hwf. revert st0. induction k as [|k IH]; intros st0 H0; simpl.
  - by intros [= <-].
  - rewrite bind_Ok. intros (st1 & H1 & H2).
    apply (IH st1); [|done]. by apply (cg_body_invariant env st0).
Qed.

(** X12. In every state the optimisation reaches from an initial state of
    the sizes of the mesh, the residual that the loop updates in steps is the
    negated gradient, with source terms, at the current approximate
    solution. *)
Theorem cg_residual_is_gradient (env : Env) (initial_state : State) (st0 st : CG) (k : nat) :
  wf_env env -> wf_state env initial_state ->
  cg_init env initial_state = Ok st0 ->
  repeat_n k (cg_body env) st0 = Ok st ->
  exists g, compute_cost_gradient env (approx_solution st) true = Ok g /\
            residual st = neg (gradient g).
Proof.
  intros Hwf Hx Hinit Hrun.
  pose proof (cg_init_invariant env initial_state st0 Hwf Hx Hinit) as H0.
  destruct (cg_iterates_invariant env k st0 st Hwf H0 Hrun) as (Hs & _ & _ & Hres).
  exists (gradient_closed env (approx_solution st) true).
  split; [by apply compute_cost_gradient_closed | done].
Qed.

Lemma wf_triangle_env : wf_env triangle_env.
Proof. constructor; simpl; repeat constructor; simpl; lia. Qed.

Lemma wf_triangle_state : wf_state triangle_env triangle_state.
Proof. split; reflexivity. Qed.

Lemma triangle_first_iterate : repeat_n 1 (cg_body triangle_env) triangle_cg0 = Ok triangle_cg1.
Proof. cbn [repeat_n]. by rewrite triangle_cg_body. Qed.

Lemma cg_residual_is_gradient_witness :
  exists g, compute_cost_gradient triangle_env (approx_solution triangle_cg1) true = Ok g /\
            residual triangle_cg1 = neg (gradient g).
Proof.
  exact (cg_residual_is_gradient triangle_env triangle_state triangle_cg0 triangle_cg1 1
           wf_triangle_env wf_triangle_state triangle_cg_init triangle_first_iterate).
Defined.

Lemma compute_control_energy_nonneg (env : Env) (s : State) (e : R) :
  compute_control_energy env s = Ok e -> 0 <= e.
Proof.
  unfold compute_control_energy. rewrite bind_Ok. intros (fwd & _ & [= <-]).
  unfold energy, dot.
  pose proof (vdot_self_nonneg (pressure (sub (ForwardSolve.state fwd) s))).
  pose proof (vdot_self_nonneg (flux (sub (ForwardSolve.state fwd) s))). lra.
Qed.

Lemma cg_init_measured (env : Env) (x : State) (st0 : CG) :
  cg_init env x = Ok st0 -> cg_measured env st0.
Proof.
  unfold cg_init. rewrite bind_Ok. intros (g & _ & H). cbv zeta in H.
  apply bind_Ok in H as (e & He & [= <-]). unfold cg_measured.
  cbn [control_energies resid_norms a_inner_prods step_count approx_solution resid_norm_sq].
  split; [done|]. split; [done|]. split; [done|].
  split; [apply Forall_singleton; by apply (compute_control_energy_nonneg env (copy x))|].
  split; [apply Forall_singleton, sqrt_pos|]. split; [|done]. by exists e.
Qed.

Lemma cg_body_measured (env : Env) (st st' : CG) :
  cg_measured env st -> cg_body env st = Ok st' -> cg_measured env st'.
Proof.
  intros (H1 & H2 & H3 & H4 & H5 & _ & _). unfold cg_body.
  rewrite bind_Ok. intros (g & _ & H). cbv zeta in H.
  apply bind_Ok in H as (alpha & _ & H). apply bind_Ok in H as (beta & _ & H).
  apply bind_Ok in H as (e & He & [= <-]). unfold cg_measured.
  cbn [control_energies resid_norms a_inner_prods step_count approx_solution resid_norm_sq].
  rewrite !length_app, !last_snoc. cbn [length].
  split; [lia|]. split; [lia|]. split; [lia|].
  split. { apply Forall_app. split; [done|]. apply Forall_singleton.
           by apply (compute_control_energy_nonneg env _ e He). }
  split. { apply Forall_app. split; [done|]. apply Forall_singleton, sqrt_pos. }
  split; [|done]. by exists e.
Qed.

Lemma cg_iterates_measured (env : Env) (k : nat) (st0 st : CG) :
  cg_measured env st0 -> repeat_n k (cg_body env) st0 = Ok st -> cg_measured env st.
Proof.
  revert st0. induction k as [|k IH]; intros st0 H0; simpl.
  - by intros [= <-].
  - rewrite bind_Ok. intros (st1 & H1 & H2).
    apply (IH st1); [|done]. by apply (cg_body_measured env st0).
Qed.

(** X13. In every state the optimisation reaches, each of the three lists
    of measurements has one entry more than [step_count], so that they can
    be plotted over [range(step_count + 1)]; no recorded control energy and no
    recorded residual norm is negative; the last control energy is that of
    the current approximate solution, and the last residual norm is the
    square root of the current [resid_norm_sq]. *)
Theorem cg_measurements (env : Env) (initial_state : State) (st0 st : CG) (k : nat) :
  cg_init env initial_state = Ok st0 ->
  repeat_n k (cg_body env) st0 = Ok st ->
  length (control_energies st) = S (step_count st) /\
  length (resid_norms st) = S (step_count st) /\
  length (a_inner_prods st) = S (step_count st) /\
  Forall (Rle 0) (control_energies st) /\
  Forall (Rle 0) (resid_norms st) /\
  (exists e, compute_control_energy env (approx_solution st) = Ok e /\
             last (control_energies st) = Some e) /\
  last (resid_norms st) = Some (sqrt (resid_norm_sq st)).
Proof.
  intros Hinit Hrun.
  apply (cg_iterates_measured env k st0 st); [|done].
  by apply (cg_init_measured env initial_state).
Qed.

Lemma cg_measurements_witness :
  length (control_energies triangle_cg1) = S (step_count triangle_cg1) /\
  length (resid_norms triangle_cg1) = S (step_count triangle_cg1) /\
  length (a_inner_prods triangle_cg1) = S (step_count triangle_cg1) /\
  Forall (Rle 0) (control_energies triangle_cg1) /\
  Forall (Rle 0) (resid_norms triangle_cg1) /\
  (exists e, compute_control_energy triangle_env (approx_solution triangle_cg1) = Ok e /\
             last (control_energies triangle_cg1) = Some e) /\
  last (resid_norms triangle_cg1) = Some (sqrt (resid_norm_sq triangle_cg1)).
Proof.
  exact (cg_measurements triangle_env triangle_state triangle_cg0 triangle_cg1 1
           triangle_cg_init triangle_first_iterate).
Defined.

(** ** Time-periodic states *)

Lemma vsub_self (a : vec) : vsub a a = zeros (length a).
Proof.
  induction a as [|x a IH]; [done|]. unfold vsub, zeros in *. simpl. rewrite IH.
  f_equal. ring.
Qed.

Lemma vsub_eq_zeros (a b : vec) :
  length a = length b -> vsub a b = zeros (length a) -> a = b.
Proof.
  intros Hlen H. apply vec_ext; [done|]. intros i _.
  assert (Hi : nth i (vsub a b) 0 = 0) by (rewrite H; apply nth_zeros).
  rewrite nth_vsub in Hi by done. lra.
Qed.

Lemma energy_zero_wf (env : Env) (s : State) :
  wf_state env s -> energy s = 0 <-> s = zero_state env.
Proof.
  intros [Hp Hq]. unfold energy, dot.
  pose proof (vdot_self_nonneg (pressure s)) as Hpn.
  pose proof (vdot_self_nonneg (flux s)) as Hqn. split.
  - intros H. assert (Hp0 : vdot (pressure s) (pressure s) = 0) by lra.
    assert (Hq0 : vdot (flux s) (flux s) = 0) by lra.
    apply vdot_self_eq_zero in Hp0, Hq0. destruct s as [p q]. cbn [pressure flux] in *.
    unfold zero_state. by rewrite Hp0, Hq0, Hp, Hq.
  - intros ->. unfold zero_state. cbn [pressure flux]. rewrite !vdot_zeros_r. ring.
Qed.

Lemma sub_eq_zero_state (env : Env) (a b : State) :
  wf_state env a -> wf_state env b -> sub a b = zero_state env <-> a = b.
Proof.
  intros [Hpa Hqa] [Hpb Hqb]. destruct a as [pa qa], b as [pb qb].
  unfold sub, zero_state. cbn [pressure flux] in *. split.
  - intros [= Hp Hq]. rewrite <- Hpa in Hp. rewrite <- Hqa in Hq.
    apply vsub_eq_zeros in Hp, Hq; [|lia..]. by subst.
  - intros [= -> ->]. by rewrite !vsub_self, Hpb, Hqb.
Qed.

Lemma bwd_init_state_zero (env : Env) :
  wf_env env -> bwd_init_state env (zero_state env) = zero_state env.
Proof.
  intros Hwf. unfold bwd_init_state, zero_state. cbn [pressure flux].
  by rewrite vneg_zeros, matvec_zeros, (length_q_step_mat_T env Hwf), vsub_zeros.
Qed.

Lemma final_bwd_state_zero (env : Env) :
  wf_env env -> final_bwd_state env (zero_state env) = zero_state env.
Proof.
  intros Hwf. unfold final_bwd_state, zero_state. cbn [pressure flux].
  by rewrite vneg_zeros, matvec_zeros, (length_p_step_mat_T env Hwf), vneg_zeros, vsub_zeros.
Qed.

Lemma backward_iter_zero (env : Env) (n : nat) :
  wf_env env ->
  Nat.iter n (spec_backward_step env) {| BackwardSolve.state := zero_state env |}
  = {| BackwardSolve.state := zero_state env |}.
Proof.
  intros Hwf. induction n as [|n IH]; [done|].
  rewrite Nat.iter_succ, IH. by apply spec_backward_step_zero.
Qed.

Lemma compute_control_energy_closed (env : Env) (s : State) :
  wf_env env -> wf_state env s ->
  compute_control_energy env s
  = Ok (energy (sub (forward_period env (source_scaling true) s) s)).
Proof.
  intros Hwf Hs. unfold compute_control_energy, forward_period. rewrite copy_eq.
  change (fun _ : R => 1) with (source_scaling true).
  destruct (forward_run_iter env (source_scaling true) (steps_per_period env)
              {| ForwardSolve.state := s; ForwardSolve.time := 0 |} Hwf Hs) as [-> _].
  done.
Qed.

(** X14. On a state of the sizes of the mesh the control energy is zero
    exactly when one period of forward steps, with the source terms, leads
    back to the state itself; the gradient with source terms is then the zero
    state. *)
Theorem periodic_state_is_optimal (env : Env) (s : State) :
  wf_env env -> wf_state env s ->
  (compute_control_energy env s = Ok 0 <->
   exists fwd,
     repeat_n (steps_per_period env) (ForwardSolve.step env (fun _ => 1))
       {| ForwardSolve.state := copy s; ForwardSolve.time := 0 |} = Ok fwd /\
     ForwardSolve.state fwd = s) /\
  (compute_control_energy env s = Ok 0 ->
   compute_cost_gradient env s true
   = Ok {| gradient := zero_state env; forward_diff := zero_state env |}).
Proof.
  intros Hwf Hs.
  pose proof (wf_forward_period env (source_scaling true) s Hwf Hs) as HF.
  assert (Hzero : compute_control_energy env s = Ok 0 <->
                  forward_period env (source_scaling true) s = s).
  { rewrite compute_control_energy_closed by done. split.
    - intros [= He]. apply (energy_zero_wf env) in He; [|by apply wf_state_sub].
      exact (proj1 (sub_eq_zero_state env _ _ HF Hs) He).
    - intros Hp. f_equal. apply (energy_zero_wf env); [by apply wf_state_sub|].
      exact (proj2 (sub_eq_zero_state env _ _ HF Hs) Hp). }
  split.
  - rewrite Hzero, copy_eq. unfold forward_period.
    destruct (forward_run_iter env (source_scaling true) (steps_per_period env)
                {| ForwardSolve.state := s; ForwardSolve.time := 0 |} Hwf Hs) as [Hrun _].
    change (fun _ : R => 1) with (source_scaling true). rewrite Hrun. split.
    + intros H. eexists. split; [done|]. done.
    + by intros (fwd & [= <-] & H).
  - intros H. apply Hzero in H.
    rewrite compute_cost_gradient_closed by done. f_equal.
    unfold gradient_closed. rewrite H.
    assert (Hsub : sub s s = zero_state env) by (by apply sub_eq_zero_state).
    rewrite Hsub, bwd_init_state_zero, backward_iter_zero by done.
    cbn [BackwardSolve.state]. rewrite final_bwd_state_zero by done.
    by rewrite sub_zero_state.
Qed.

Lemma periodic_state_is_optimal_witness :
  (compute_control_energy no_scatterer_env (zero_state no_scatterer_env) = Ok 0 <->
   exists fwd,
     repeat_n (steps_per_period no_scatterer_env)
       (ForwardSolve.step no_scatterer_env (fun _ => 1))
       {| ForwardSolve.state := copy (zero_state no_scatterer_env);
          ForwardSolve.time := 0 |} = Ok fwd /\
     ForwardSolve.state fwd = zero_state no_scatterer_env) /\
  (compute_control_energy no_scatterer_env (zero_state no_scatterer_env) = Ok 0 ->
   compute_cost_gradient no_scatterer_env (zero_state no_scatterer_env) true
   = Ok {| gradient := zero_state no_scatterer_env;
           forward_diff := zero_state no_scatterer_env |}).
Proof.
  exact (periodic_state_is_optimal no_scatterer_env (zero_state no_scatterer_env)
           wf_no_scatterer_env (wf_zero_state no_scatterer_env)).
Defined.

(** ** The reference forward solution *)

Lemma reference_body_Ok (env : Env) (acc acc' : list R * State) :
  reference_body env acc = Ok acc' <->
  exists fwd e,
    repeat_n (steps_per_period env) (ForwardSolve.step env (fun _ => 1))
      {| ForwardSolve.state := copy (snd acc); ForwardSolve.time := 0 |} = Ok fwd /\
    compute_control_energy env (snd acc) = Ok e /\
    acc' = (fst acc ++ [e], ForwardSolve.state fwd).
Proof.
  unfold reference_body, compute_control_energy. rewrite bind_Ok. split.
  - intros (fwd & Hrun & [= <-]). exists fwd. eexists. rewrite Hrun. cbn [bind]. done.
  - intros (fwd & e & Hrun & He & ->). exists fwd. split; [done|].
    rewrite Hrun in He. cbn [bind] in He. by injection He as <-.
Qed.

Lemma reference_run (env : Env) (x : State) (i : nat) (acc : list R * State) :
  repeat_n i (reference_body env) ([], x) = Ok acc ->
  length (fst acc) = i /\
  forall j, (j < i)%nat ->
    exists accj e,
      repeat_n j (reference_body env) ([], x) = Ok accj /\
      compute_control_energy env (snd accj) = Ok e /\
      fst acc !! j = Some e.
Proof.
  revert acc. induction i as [|i IH]; intros acc.
  - intros [= <-]. split; [done|]. intros j Hj. lia.
  - rewrite repeat_n_snoc, bind_Ok. intros (acci & Hi & Hbody).
    destruct (IH acci Hi) as [Hlen Hprev].
    apply reference_body_Ok in Hbody as (fwd & e & _ & He & ->). cbn [fst snd].
    split; [rewrite length_app; simpl; lia|].
    intros j Hj. destruct (decide (j = i)) as [->|Hne].
    + exists acci, e. split; [done|]. split; [done|].
      rewrite lookup_app_r by lia. by rewrite Hlen, Nat.sub_diag.
    + destruct (Hprev j ltac:(lia)) as (accj & ej & Hj1 & Hj2 & Hj3).
      exists accj, ej. split; [done|]. split; [done|]. by apply lookup_app_l_Some.
Qed.

Lemma reference_run_total (env : Env) (x : State) (i : nat) :
  wf_env env -> wf_state env x ->
  exists acc, repeat_n i (reference_body env) ([], x) = Ok acc /\ wf_state env (snd acc).
Proof.
  intros Hwf Hx.
  apply (repeat_n_total (reference_body env) (fun acc => wf_state env (snd acc))); [|done].
  intros acc Hacc. unfold reference_body. rewrite copy_eq.
  destruct (forward_run_total env (fun _ => 1) (steps_per_period env)
              {| ForwardSolve.state := snd acc; ForwardSolve.time := 0 |} Hwf Hacc)
    as (fwd & -> & Hfwd).
  cbn [bind]. eexists. split; [done|]. done.
Qed.

Lemma cg_body_first_energy (env : Env) (st st' : CG) :
  (0 < length (control_energies st))%nat -> cg_body env st = Ok st' ->
  control_energies st' !! 0%nat = control_energies st !! 0%nat.
Proof.
  intros Hlen. unfold cg_body.
  rewrite bind_Ok. intros (g & _ & H). cbv zeta in H.
  apply bind_Ok in H as (alpha & _ & H). apply bind_Ok in H as (beta & _ & H).
  apply bind_Ok in H as (e & He & [= <-]). cbn [control_energies].
  by rewrite lookup_app_l.
Qed.

Lemma cg_iterates_first_energy (env : Env) (x : State) (k : nat) (st0 st : CG) :
  cg_init env x = Ok st0 -> repeat_n k (cg_body env) st0 = Ok st ->
  control_energies st !! 0%nat = control_energies st0 !! 0%nat.
Proof.
  intros Hinit. induction k as [|k IH] in st |- *.
  - by intros [= <-].
  - rewrite repeat_n_snoc, bind_Ok. intros (prev & Hprev & Hbody).
    rewrite <- (IH prev Hprev). apply (cg_body_first_energy env prev); [|done].
    destruct (cg_iterates_measured env k st0 prev) as (Hlen & _); [|done|lia].
    by apply (cg_init_measured env x).
Qed.

(** X15. On a mesh and an initial state of matching sizes the reference
    loop runs through and records [step_count + 1] energies; entry [i] is
    the control energy of the state with which iteration [i] starts, so
    none is negative.  After an optimisation from the same initial state the
    list is as long as [control_energies] and starts with the same value:
    the two curves of the first plot have the same points on the x axis and
    the same start. *)
Theorem forward_reference_energies (env : Env) (initial_state : State) (n : nat) :
  wf_env env -> wf_state env initial_state ->
  exists es,
    forward_reference env initial_state n = Ok es /\
    length es = S n /\
    (forall i, (i <= n)%nat ->
       exists acc e,
         repeat_n i (reference_body env) ([], copy initial_state) = Ok acc /\
         compute_control_energy env (snd acc) = Ok e /\
         es !! i = Some e /\ 0 <= e) /\
    (forall st0 st k,
       cg_init env initial_state = Ok st0 -> repeat_n k (cg_body env) st0 = Ok st ->
       n = step_count st ->
       length es = length (control_energies st) /\
       es !! 0%nat = control_energies st !! 0%nat).
Proof.
  intros Hwf Hx. unfold forward_reference. rewrite copy_eq.
  destruct (reference_run_total env initial_state (n + 1) Hwf Hx) as (acc & Hrun & _).
  rewrite Hrun. cbn [bind]. exists (fst acc).
  destruct (reference_run env initial_state (n + 1) acc Hrun) as [Hlen Hall].
  split; [done|]. split; [lia|]. split.
  - intros i Hi. destruct (Hall i ltac:(lia)) as (acci & e & H1 & H2 & H3).
    exists acci, e. repeat split; try done. by apply (compute_control_energy_nonneg env _ e H2).
  - intros st0 st k Hinit Hiter ->.
    destruct (cg_iterates_measured env k st0 st) as (Hl & _); [|done|].
    { by apply (cg_init_measured env initial_state). }
    split; [lia|].
    rewrite (cg_iterates_first_energy env initial_state k st0 st Hinit Hiter).
    destruct (Hall 0%nat ltac:(lia)) as (acc0 & e & H1 & H2 & H3).
    injection H1 as <-. cbn [snd] in H2. rewrite H3.
    revert Hinit. unfold cg_init. rewrite bind_Ok. intros (g & _ & H). cbv zeta in H.
    apply bind_Ok in H as (e' & He' & [= <-]). cbn [control_energies].
    rewrite copy_eq in He'. simpl. congruence.
Qed.

Lemma forward_reference_energies_witness :
  exists es,
    forward_reference triangle_env triangle_state 1 = Ok es /\
    length es = 2%nat /\
    (forall i, (i <= 1)%nat ->
       exists acc e,
         repeat_n i (reference_body triangle_env) ([], copy triangle_state) = Ok acc /\
         compute_control_energy triangle_env (snd acc) = Ok e /\
         es !! i = Some e /\ 0 <= e) /\
    (forall st0 st k,
       cg_init triangle_env triangle_state = Ok st0 ->
       repeat_n k (cg_body triangle_env) st0 = Ok st ->
       1%nat = step_count st ->
       length es = length (control_energies st) /\
       es !! 0%nat = control_energies st !! 0%nat).
Proof.
  exact (forward_reference_energies triangle_env triangle_state 1
           wf_triangle_env wf_triangle_state).
Defined.

(** ** The store layer: in-place steps and fresh results *)

Lemma forward_step_time (env : Env) (src : R -> R) (self self' : ForwardSolve.t) :
  ForwardSolve.step env src self = Ok self' ->
  ForwardSolve.time self' = ForwardSolve.time self + dt env.
Proof.
  unfold ForwardSolve.step. rewrite bind_Ok. intros (f2 & _ & H).
  apply bind_Ok in H as (f3 & _ & [= <-]). done.
Qed.

Lemma lookup_insert_two (h : list (list R)) (i j l : nat) (a b : list R) :
  l <> i -> l <> j -> <[j := b]> (<[i := a]> h) !! l = h !! l.
Proof. intros Hi Hj. by rewrite !list_lookup_insert_ne. Qed.

Lemma value_of_insert_two (h : list (list R)) (s : Store.State) (p q : list R) :
  (Store.pressure_ref s < length h)%nat -> (Store.flux_ref s < length h)%nat ->
  Store.pressure_ref s <> Store.flux_ref s ->
  value_of (<[Store.flux_ref s := q]> (<[Store.pressure_ref s := p]> h)) s
  = Some {| pressure := p; flux := q |}.
Proof.
  intros Hp Hq Hne. unfold value_of.
  rewrite list_lookup_insert_ne by done.
  rewrite list_lookup_insert_eq by done.
  rewrite list_lookup_insert_eq by (by rewrite length_insert). done.
Qed.

(** X16. A step of either solver works in place.  On a state whose two
    fields refer to two different arrays of the store, a step that returns
    has allocated nothing and has changed no array but these two; the solver
    still holds the same state object, and the two arrays hold what the step
    computes from their old contents. *)
Theorem steps_work_in_place (env : Env) (sr : Store.State) (h : list (list R))
    (pv qv : list R) :
  h !! Store.pressure_ref sr = Some pv -> h !! Store.flux_ref sr = Some qv ->
  Store.pressure_ref sr <> Store.flux_ref sr ->
  (forall src t self' h',
     Store.ForwardSolve_step env src {| Store.fwd_state := sr; Store.fwd_time := t |} h
       = Ok (self', h') ->
     Store.fwd_state self' = sr /\ Store.fwd_time self' = t + dt env /\
     length h' = length h /\
     (forall l, l <> Store.pressure_ref sr -> l <> Store.flux_ref sr -> h' !! l = h !! l) /\
     exists v',
       ForwardSolve.step env src
         {| ForwardSolve.state := {| pressure := pv; flux := qv |}; ForwardSolve.time := t |}
         = Ok v' /\
       value_of h' sr = Some (ForwardSolve.state v')) /\
  (forall self' h',
     Store.BackwardSolve_step env {| Store.bwd_state := sr |} h = Ok (self', h') ->
     Store.bwd_state self' = sr /\
     length h' = length h /\
     (forall l, l <> Store.pressure_ref sr -> l <> Store.flux_ref sr -> h' !! l = h !! l) /\
     exists v',
       BackwardSolve.step env {| BackwardSolve.state := {| pressure := pv; flux := qv |} |}
         = Ok v' /\
       value_of h' sr = Some (BackwardSolve.state v')).
Proof.
  intros Hp Hq Hne.
  pose proof (lookup_lt_Some _ _ _ Hp) as Hpl. pose proof (lookup_lt_Some _ _ _ Hq) as Hql.
  split.
  - intros src t self' h'. rewrite (store_forward_step env src sr t h pv qv Hp Hq Hne).
    destruct (ForwardSolve.step env src _) as [v'| |] eqn:Hstep; cbn [result_map]; [|done..].
    intros [= <- <-]. cbn [Store.fwd_state Store.fwd_time].
    split; [done|]. split; [by rewrite (forward_step_time _ _ _ _ Hstep)|].
    split; [by rewrite !length_insert|].
    split; [intros l Hl1 Hl2; by apply lookup_insert_two|].
    exists v'. split; [done|]. destruct v' as [[p' q'] t'].
    by apply value_of_insert_two.
  - intros self' h'. rewrite (store_backward_step env sr h pv qv Hp Hq Hne).
    destruct (BackwardSolve.step env _) as [v'| |] eqn:Hstep; cbn [result_map]; [|done..].
    intros [= <- <-]. cbn [Store.bwd_state].
    split; [done|]. split; [by rewrite !length_insert|].
    split; [intros l Hl1 Hl2; by apply lookup_insert_two|].
    exists v'. split; [done|]. destruct v' as [[p' q']].
    by apply value_of_insert_two.
Qed.

Lemma steps_work_in_place_witness :
  (forall src t self' h',
     Store.ForwardSolve_step square_env src
       {| Store.fwd_state := square_state_ref; Store.fwd_time := t |} square_store
       = Ok (self', h') ->
     Store.fwd_state self' = square_state_ref /\ Store.fwd_time self' = t + dt square_env /\
     length h' = length square_store /\
     (forall l, l <> Store.pressure_ref square_state_ref ->
                l <> Store.flux_ref square_state_ref -> h' !! l = square_store !! l) /\
     exists v',
       ForwardSolve.step square_env src
         {| ForwardSolve.state := {| pressure := pressure unit_pressure_state;
                                     flux := flux unit_pressure_state |};
            ForwardSolve.time := t |}
         = Ok v' /\
       value_of h' square_state_ref = Some (ForwardSolve.state v')) /\
  (forall self' h',
     Store.BackwardSolve_step square_env {| Store.bwd_state := square_state_ref |} square_store
       = Ok (self', h') ->
     Store.bwd_state self' = square_state_ref /\
     length h' = length square_store /\
     (forall l, l <> Store.pressure_ref square_state_ref ->
                l <> Store.flux_ref square_state_ref -> h' !! l = square_store !! l) /\
     exists v',
       BackwardSolve.step square_env
         {| BackwardSolve.state := {| pressure := pressure unit_pressure_state;
                                      flux := flux unit_pressure_state |} |}
         = Ok v' /\
       value_of h' square_state_ref = Some (BackwardSolve.state v')).
Proof.
  apply (steps_work_in_place square_env square_state_ref square_store
           (pressure unit_pressure_state) (flux unit_pressure_state));
    [reflexivity | reflexivity | simpl; lia].
Defined.

Lemma store_scaled (h : list (list R)) (a : Store.State) (s : R) (pa qa : list R) :
  h !! Store.pressure_ref a = Some pa -> h !! Store.flux_ref a = Some qa ->
  Store.scaled a s h
  = Ok ({| Store.pressure_ref := length h; Store.flux_ref := S (length h) |},
        h ++ [vscale s pa; vscale s qa]).
Proof.
  intros Hp Hq. unfold Store.scaled, Store.bind.
  rewrite (store_load h _ pa Hp). unfold Store.alloc at 1.
  rewrite (store_load (h ++ _) _ qa) by (by apply lookup_app_l_Some).
  unfold Store.alloc, Store.ret. rewrite length_app, <- app_assoc. simpl.
  repeat f_equal. lia.
Qed.

Lemma store_neg (h : list (list R)) (a : Store.State) (pa qa : list R) :
  h !! Store.pressure_ref a = Some pa -> h !! Store.flux_ref a = Some qa ->
  Store.neg a h
  = Ok ({| Store.pressure_ref := length h; Store.flux_ref := S (length h) |},
        h ++ [vneg pa; vneg qa]).
Proof.
  intros Hp Hq. unfold Store.neg, Store.bind.
  rewrite (store_load h _ pa Hp). unfold Store.alloc at 1.
  rewrite (store_load (h ++ _) _ qa) by (by apply lookup_app_l_Some).
  unfold Store.alloc, Store.ret. rewrite length_app, <- app_assoc. simpl.
  repeat f_equal. lia.
Qed.

Lemma store_combine (f : vec -> vec -> vec) (h : list (list R)) (a b : Store.State)
    (pa qa pb qb : list R) :
  h !! Store.pressure_ref a = Some pa -> h !! Store.flux_ref a = Some qa ->
  h !! Store.pressure_ref b = Some pb -> h !! Store.flux_ref b = Some qb ->
  Store.combine f a b h
  = Ok ({| Store.pressure_ref := length h; Store.flux_ref := S (length h) |},
        h ++ [f pa pb; f qa qb]).
Proof.
  intros Hpa Hqa Hpb Hqb.
  rewrite <- (app_nil_r h) at 1.
  rewrite (store_combine_ext f h [] a b pa qa pb qb) by (by rewrite app_nil_r).
  simpl. repeat f_equal; lia.
Qed.

Lemma store_copy (h : list (list R)) (a : Store.State) (pa qa : list R) :
  h !! Store.pressure_ref a = Some pa -> h !! Store.flux_ref a = Some qa ->
  Store.copy a h
  = Ok ({| Store.pressure_ref := length h; Store.flux_ref := S (length h) |},
        h ++ [pa; qa]).
Proof.
  intros Hpa Hqa.
  rewrite <- (app_nil_r h) at 1.
  rewrite (store_copy_ext h [] a pa qa) by (by rewrite app_nil_r).
  simpl. repeat f_equal; lia.
Qed.

Lemma store_dot (h : list (list R)) (a b : Store.State) (pa qa pb qb : list R) :
  h !! Store.pressure_ref a = Some pa -> h !! Store.flux_ref a = Some qa ->
  h !! Store.pressure_ref b = Some pb -> h !! Store.flux_ref b = Some qb ->
  Store.dot a b h
  = Ok (dot {| pressure := pa; flux := qa |} {| pressure := pb; flux := qb |}, h).
Proof.
  intros Hpa Hqa Hpb Hqb. unfold Store.dot, Store.bind.
  by rewrite (store_load h _ pa Hpa), (store_load h _ pb Hpb),
             (store_load h _ qa Hqa), (store_load h _ qb Hqb).
Qed.

Lemma value_of_fresh (h : list (list R)) (p q : list R) :
  value_of (h ++ [p; q]) {| Store.pressure_ref := length h; Store.flux_ref := S (length h) |}
  = Some {| pressure := p; flux := q |}.
Proof.
  unfold value_of. cbn [Store.pressure_ref Store.flux_ref].
  rewrite !lookup_app_r by lia. rewrite Nat.sub_diag.
  replace (S (length h) - length h)%nat with 1%nat by lia. done.
Qed.

Lemma value_of_app (h ext : list (list R)) (s : Store.State) (v : State) :
  value_of h s = Some v -> value_of (h ++ ext) s = Some v.
Proof.
  unfold value_of.
  destruct (h !! Store.pressure_ref s) as [p|] eqn:Hp; [|done].
  destruct (h !! Store.flux_ref s) as [q|] eqn:Hq; [|done].
  by rewrite (lookup_app_l_Some _ _ _ _ Hp), (lookup_app_l_Some _ _ _ _ Hq).
Qed.

Lemma value_of_Some (h : list (list R)) (s : Store.State) (v : State) :
  value_of h s = Some v <->
  h !! Store.pressure_ref s = Some (pressure v) /\ h !! Store.flux_ref s = Some (flux v).
Proof.
  unfold value_of. destruct v as [p q]. cbn [pressure flux].
  destruct (h !! Store.pressure_ref s) as [p'|]; [|split; [done | by intros []]].
  destruct (h !! Store.flux_ref s) as [q'|]; [|split; [done | by intros []]].
  split; [by intros [= -> ->] | by intros [[= ->] [= ->]]].
Qed.

Lemma allocates_fresh (h : list (list R)) (m : Store.M Store.State) (p q : list R) :
  m h = Ok ({| Store.pressure_ref := length h; Store.flux_ref := S (length h) |},
            h ++ [p; q]) ->
  allocates h m {| pressure := p; flux := q |}.
Proof.
  intros Hm. eexists _, _. split; [exact Hm|]. split; [apply value_of_fresh|].
  cbn [Store.pressure_ref Store.flux_ref]. split; [lia|]. split; [lia|]. split; [lia|].
  intros l x. apply lookup_app_l_Some.
Qed.

(** X17. The arithmetic of states builds new objects: on states whose
    fields refer to arrays of the store, [+], [-], [scaled], unary [-] and
    [copy] each return a state of two newly allocated arrays that hold the
    result, and leave every array that existed, so both operands, as it was;
    [dot] and [energy] return their number and change nothing. *)
Theorem state_arithmetic_allocates (h : list (list R)) (a b : Store.State)
    (va vb : State) (s : R) :
  value_of h a = Some va -> value_of h b = Some vb ->
  allocates h (Store.add a b) (add va vb) /\
  allocates h (Store.sub a b) (sub va vb) /\
  allocates h (Store.scaled a s) (scaled va s) /\
  allocates h (Store.neg a) (neg va) /\
  allocates h (Store.copy a) (copy va) /\
  Store.dot a b h = Ok (dot va vb, h) /\
  Store.energy a h = Ok (energy va, h).
Proof.
  intros Ha Hb. apply value_of_Some in Ha as [Hpa Hqa]. apply value_of_Some in Hb as [Hpb Hqb].
  split; [apply allocates_fresh, store_combine; done|].
  split; [apply allocates_fresh, store_combine; done|].
  split; [apply allocates_fresh, store_scaled; done|].
  split; [apply allocates_fresh, store_neg; done|].
  split; [apply allocates_fresh, store_copy; done|].
  destruct va as [pa qa], vb as [pb qb]. cbn [pressure flux] in *.
  split; [by apply store_dot|].
  unfold Store.energy, Store.bind.
  by rewrite (store_dot h a a pa qa pa qa).
Qed.

Lemma state_arithmetic_allocates_witness :
  allocates square_store (Store.add square_state_ref square_state_ref)
    (add unit_pressure_state unit_pressure_state) /\
  allocates square_store (Store.sub square_state_ref square_state_ref)
    (sub unit_pressure_state unit_pressure_state) /\
  allocates square_store (Store.scaled square_state_ref 2) (scaled unit_pressure_state 2) /\
  allocates square_store (Store.neg square_state_ref) (neg unit_pressure_state) /\
  allocates square_store (Store.copy square_state_ref) (copy unit_pressure_state) /\
  Store.dot square_state_ref square_state_ref square_store
    = Ok (dot unit_pressure_state unit_pressure_state, square_store) /\
  Store.energy square_state_ref square_store = Ok (energy unit_pressure_state, square_store).
Proof.
  apply (state_arithmetic_allocates square_store square_state_ref square_state_ref
           unit_pressure_state unit_pressure_state 2); reflexivity.
Defined.

(** X18. A solver built on a copy does not disturb the original: after
    [c = s.copy()], any number of forward steps on [c] that return leave the
    arrays of [s] as they were, while [c] holds what the steps compute from
    the contents of [s]. *)
Theorem steps_on_copy_leave_original (env : Env) (src : R -> R) (n : nat)
    (h h1 h2 : list (list R)) (s c : Store.State) (v : State) (self' : Store.ForwardSolve) :
  value_of h s = Some v ->
  Store.copy s h = Ok (c, h1) ->
  Store.repeat_n n (Store.ForwardSolve_step env src)
    {| Store.fwd_state := c; Store.fwd_time := 0 |} h1 = Ok (self', h2) ->
  value_of h2 s = Some v /\
  (forall l x, h !! l = Some x -> h2 !! l = Some x) /\
  Store.fwd_state self' = c /\
  exists v',
    repeat_n n (ForwardSolve.step env src)
      {| ForwardSolve.state := copy v; ForwardSolve.time := 0 |} = Ok v' /\
    value_of h2 c = Some (ForwardSolve.state v').
Proof.
  intros Hv Hcopy Hrun. pose proof Hv as Hv0. apply value_of_Some in Hv as [Hp Hq].
  rewrite (store_copy h s _ _ Hp Hq) in Hcopy. injection Hcopy as <- <-.
  rewrite (store_forward_run env src _ n 0 _ (pressure v) (flux v)) in Hrun.
  2:{ cbn [Store.pressure_ref]. rewrite lookup_app_r by lia. by rewrite Nat.sub_diag. }
  2:{ cbn [Store.flux_ref]. rewrite lookup_app_r by lia.
      by replace (S (length h) - length h)%nat with 1%nat by lia. }
  2:{ cbn [Store.pressure_ref Store.flux_ref]. lia. }
  rewrite copy_eq. destruct v as [p q]. cbn [pressure flux] in *.
  destruct (repeat_n n _ _) as [v'| |]; cbn [result_map] in Hrun; [|done..].
  injection Hrun as <- <-. cbn [Store.fwd_state Store.pressure_ref Store.flux_ref].
  assert (Hframe : forall l x, h !! l = Some x ->
            <[S (length h) := flux (ForwardSolve.state v')]>
              (<[length h := pressure (ForwardSolve.state v')]> (h ++ [p; q])) !! l = Some x).
  { intros l x Hl. pose proof (lookup_lt_Some _ _ _ Hl).
    rewrite !list_lookup_insert_ne by lia. by apply lookup_app_l_Some. }
  split. { apply value_of_Some. cbn [pressure flux]. split; by apply Hframe. }
  split; [done|]. split; [done|]. exists v'. split; [done|].
  destruct v' as [[p' q'] t']. cbn [ForwardSolve.state pressure flux].
  apply (value_of_insert_two (h ++ [p; q])
           {| Store.pressure_ref := length h; Store.flux_ref := S (length h) |});
    cbn [Store.pressure_ref Store.flux_ref]; rewrite ?length_app; simpl; lia.
Qed.

Lemma steps_on_copy_leave_original_witness :
  let h := [pressure triangle_state; flux triangle_state] in
  let s := {| Store.pressure_ref := 0; Store.flux_ref := 1 |} in
  let c := {| Store.pressure_ref := 2; Store.flux_ref := 3 |} in
  let h1 := h ++ [pressure triangle_state; flux triangle_state] in
  exists self' h2,
    value_of h s = Some triangle_state /\
    Store.copy s h = Ok (c, h1) /\
    Store.repeat_n 1 (Store.ForwardSolve_step triangle_env (fun _ => 1))
      {| Store.fwd_state := c; Store.fwd_time := 0 |} h1 = Ok (self', h2) /\
    value_of h2 s = Some triangle_state /\
    exists v',
      repeat_n 1 (ForwardSolve.step triangle_env (fun _ => 1))
        {| ForwardSolve.state := copy triangle_state; ForwardSolve.time := 0 |} = Ok v' /\
      value_of h2 c = Some (ForwardSolve.state v').
Proof.
  intros h s c h1.
  assert (Hrun : exists self' h2,
            Store.repeat_n 1 (Store.ForwardSolve_step triangle_env (fun _ => 1))
              {| Store.fwd_state := c; Store.fwd_time := 0 |} h1 = Ok (self', h2)).
  { eexists _, _. eval_reals. reflexivity. }
  destruct Hrun as (self' & h2 & Hrun). exists self', h2.
  split; [reflexivity|]. split; [reflexivity|]. split; [exact Hrun|].
  destruct (steps_on_copy_leave_original triangle_env (fun _ => 1) 1 h h1 h2 s c
              triangle_state self' eq_refl eq_refl Hrun) as (H1 & _ & _ & H2).
  split; [exact H1 | exact H2].
Defined.

(** ** The incoming wave on every feature of the mesh *)

Lemma for_each_seq (vbody : nat -> vec -> result vec) (keep : nat -> bool) (val : nat -> R)
    (n : nat) :
  (forall x a, (x < n)%nat -> length a = n ->
               vbody x a = Ok (if keep x then a else <[x := val x]> a)) ->
  forall k i a, (i + k <= n)%nat -> length a = n ->
  exists a',
    for_each (seq i k) vbody a = Ok a' /\ length a' = n /\
    forall j, a' !! j = if (i <=? j)%nat && (j <? i + k)%nat && negb (keep j)
                        then Some (val j) else a !! j.
Proof.
  intros Hbody. induction k as [|k IH]; intros i a Hik Ha.
  - exists a. split; [done|]. split; [done|]. intros j.
    destruct (Nat.leb_spec i j), (Nat.ltb_spec j (i + 0)); simpl; try done. lia.
  - cbn [seq for_each]. rewrite (Hbody i a) by lia. cbn [bind].
    set (a1 := if keep i then a else <[i := val i]> a).
    assert (Ha1 : length a1 = n).
    { unfold a1. destruct (keep i); [done | by rewrite length_insert]. }
    destruct (IH (S i) a1 ltac:(lia) Ha1) as (a' & Hrun & Hlen & Hlook).
    exists a'. split; [done|]. split; [done|]. intros j. rewrite Hlook.
    destruct (decide (j = i)) as [->|Hne].
    + destruct (Nat.leb_spec (S i) i); [lia|]. cbn [andb].
      destruct (Nat.leb_spec i i); [|lia]. destruct (Nat.ltb_spec i (i + S k)); [|lia].
      cbn [andb]. unfold a1. destruct (keep i); cbn [negb]; [done|].
      apply list_lookup_insert_eq. lia.
    + assert (Ha1j : a1 !! j = a !! j).
      { unfold a1. destruct (keep i); [done|]. by apply list_lookup_insert_ne. }
      rewrite Ha1j.
      destruct (Nat.leb_spec (S i) j), (Nat.leb_spec i j); try lia;
        destruct (Nat.ltb_spec j (S i + k)), (Nat.ltb_spec j (i + S k)); try lia; done.
Qed.

Lemma store_pressure_body (env : Env) (t : R) (h : list (list R)) (r x : nat) (a : vec) :
  (r < length h)%nat ->
  Store.bind (Store.lift (getitem (circumcenter env) x))
    (fun c => Store.setitem_at r x (eval_inc_wave_pressure env t c)) (<[r := a]> h)
  = result_map (fun a' => (tt, <[r := a']> h))
      (bind (getitem (circumcenter env) x)
         (fun c => setitem a x (eval_inc_wave_pressure env t c))).
Proof.
  intros Hr. unfold Store.bind, Store.lift.
  destruct (getitem (circumcenter env) x) as [c| |]; cbn [bind result_map]; [|done..].
  rewrite (store_setitem_at _ r x _ a) by (by apply list_lookup_insert_eq).
  destruct (setitem a x _) as [a'| |]; cbn [result_map]; [|done..].
  by rewrite list_insert_insert_eq.
Qed.

Lemma store_flux_body (env : Env) (t : R) (h : list (list R)) (r x : nat) (a : vec) :
  (r < length h)%nat ->
  (if bool_decide (x ∈ inner_bound_edges env) then Store.ret tt
   else Store.bind (Store.lift (getitem (simplices env) x))
          (fun verts => Store.bind (Store.lift (eval_inc_wave_flux env t verts))
             (fun w => Store.setitem_at r x w))) (<[r := a]> h)
  = result_map (fun a' => (tt, <[r := a']> h))
      (if bool_decide (x ∈ inner_bound_edges env) then Ok a
       else bind (getitem (simplices env) x)
              (fun verts => bind (eval_inc_wave_flux env t verts)
                 (fun w => setitem a x w))).
Proof.
  intros Hr. destruct (bool_decide (x ∈ inner_bound_edges env)); [done|].
  unfold Store.bind, Store.lift.
  destruct (getitem (simplices env) x) as [verts| |]; cbn [bind result_map]; [|done..].
  destruct (eval_inc_wave_flux env t verts) as [w| |]; cbn [bind result_map]; [|done..].
  rewrite (store_setitem_at _ r x _ a) by (by apply list_lookup_insert_eq).
  destruct (setitem a x _) as [a'| |]; cbn [result_map]; [|done..].
  by rewrite list_insert_insert_eq.
Qed.

Lemma store_bind_step {A B : Type} (m : Store.M A) (k : A -> Store.M B)
    (h h' : list (list R)) (a : A) :
  m h = Ok (a, h') -> Store.bind m k h = k a h'.
Proof. intros H. unfold Store.bind. by rewrite H. Qed.

Lemma pressure_loop (env : Env) (t : R) (h : list (list R)) (r : nat) (p : vec) :
  length (circumcenter env) = length p -> h !! r = Some p ->
  Store.for_each (seq 0 (length p))
    (fun vert_idx =>
       Store.bind (Store.lift (getitem (circumcenter env) vert_idx))
         (fun c => Store.setitem_at r vert_idx (eval_inc_wave_pressure env t c))) h
  = Ok (tt, <[r := map (eval_inc_wave_pressure env t) (circumcenter env)]> h).
Proof.
  intros Hcc Hp. pose proof (lookup_lt_Some _ _ _ Hp) as Hr.
  match goal with |- ?f h = ?rhs =>
    enough (Hgoal : f (<[r := p]> h) = rhs) by (by rewrite (list_insert_id h r p Hp) in Hgoal)
  end.
  rewrite (store_for_each_cell _ _
             (fun x a => bind (getitem (circumcenter env) x)
                           (fun c => setitem a x (eval_inc_wave_pressure env t c))) r h p Hr).
  2:{ intros x a. by apply store_pressure_body. }
  destruct (for_each_seq
              (fun x a => bind (getitem (circumcenter env) x)
                            (fun c => setitem a x (eval_inc_wave_pressure env t c)))
              (fun _ => false)
              (fun x => eval_inc_wave_pressure env t (nth x (circumcenter env) (0, 0)))
              (length p)) with (k := length p) (i := 0%nat) (a := p)
    as (p' & -> & Hlen & Hlook); [|lia|done|].
  { intros x a Hx Ha.
    destruct (lookup_lt_is_Some_2 (circumcenter env) x) as [c Hc]; [lia|].
    rewrite (proj2 (getitem_Ok _ _ _) Hc). cbn [bind].
    rewrite setitem_lt by lia. by rewrite (nth_lookup_Some _ _ _ _ Hc). }
  cbn [result_map]. do 3 f_equal. apply list_eq. intros j. rewrite Hlook.
  rewrite list_lookup_fmap.
  destruct (Nat.leb_spec 0 j); [|lia]. cbn [andb negb].
  destruct (Nat.ltb_spec j (0 + length p)) as [Hj|Hj]; cbn [andb].
  - destruct (lookup_lt_is_Some_2 (circumcenter env) j) as [c Hc]; [lia|].
    rewrite Hc. cbn. by rewrite (nth_lookup_Some _ _ _ _ Hc).
  - rewrite !lookup_ge_None_2 by lia. done.
Qed.

Lemma flux_loop (env : Env) (t : R) (h : list (list R)) (r : nat) (q : vec) :
  wf_env env -> length q = num_edges env -> h !! r = Some q ->
  exists q',
    Store.for_each (seq 0 (length q))
      (fun edge_idx =>
         if bool_decide (edge_idx ∈ inner_bound_edges env) then Store.ret tt
         else Store.bind (Store.lift (getitem (simplices env) edge_idx))
                (fun verts => Store.bind (Store.lift (eval_inc_wave_flux env t verts))
                   (fun w => Store.setitem_at r edge_idx w))) h
    = Ok (tt, <[r := q']> h) /\
    length q' = num_edges env /\
    forall e, (e < num_edges env)%nat ->
      if bool_decide (e ∈ inner_bound_edges env) then q' !! e = q !! e
      else exists verts w,
             simplices env !! e = Some verts /\
             eval_inc_wave_flux env t verts = Ok w /\ q' !! e = Some w.
Proof.
  intros Hwf Hq Hh. pose proof (lookup_lt_Some _ _ _ Hh) as Hr.
  set (loop := Store.for_each _ _).
  enough (Hgoal : exists q',
            loop (<[r := q]> h) = Ok (tt, <[r := q']> h) /\
            length q' = num_edges env /\
            forall e, (e < num_edges env)%nat ->
              if bool_decide (e ∈ inner_bound_edges env) then q' !! e = q !! e
              else exists verts w,
                     simplices env !! e = Some verts /\
                     eval_inc_wave_flux env t verts = Ok w /\ q' !! e = Some w)
    by (by rewrite (list_insert_id h r q Hh) in Hgoal).
  unfold loop.
  rewrite (store_for_each_cell _ _
             (fun x a => if bool_decide (x ∈ inner_bound_edges env) then Ok a
                         else bind (getitem (simplices env) x)
                                (fun verts => bind (eval_inc_wave_flux env t verts)
                                   (fun w => setitem a x w))) r h q Hr).
  2:{ intros x a. by apply store_flux_body. }
  destruct (for_each_seq
              (fun x a => if bool_decide (x ∈ inner_bound_edges env) then Ok a
                          else bind (getitem (simplices env) x)
                                 (fun verts => bind (eval_inc_wave_flux env t verts)
                                    (fun w => setitem a x w)))
              (fun x => bool_decide (x ∈ inner_bound_edges env))
              (incoming_wave_flux env t)
              (num_edges env)) with (k := length q) (i := 0%nat) (a := q)
    as (q' & -> & Hlen & Hlook); [|lia|done|].
  { intros x a Hx Ha. destruct (bool_decide (x ∈ inner_bound_edges env)); [done|].
    destruct (eval_inc_wave_flux_edge env t x Hwf Hx) as (verts & Hv & Hw).
    rewrite (proj2 (getitem_Ok _ _ _) Hv). cbn [bind]. rewrite Hw. cbn [bind].
    apply setitem_lt. lia. }
  exists q'. split; [done|]. split; [done|]. intros e He. rewrite Hlook.
  destruct (Nat.leb_spec 0 e); [|lia]. destruct (Nat.ltb_spec e (0 + length q)); [|lia].
  cbn [andb]. destruct (bool_decide (e ∈ inner_bound_edges env)); cbn [negb]; [done|].
  destruct (eval_inc_wave_flux_edge env t e Hwf He) as (verts & Hv & Hw).
  by exists verts, (incoming_wave_flux env t e).
Qed.

(** X19. Every call of [eval_inc_wave_everywhere] returns the state object
    of the class defaults and works in its two arrays.  When these have the
    sizes of the mesh, the call returns; afterwards the pressure array holds
    the pressure of the incoming wave at the circumcenter of every face, and
    the flux array holds the flux of the wave at time [t + 0.5 * dt] over
    every edge that is not on the inner boundary; at the edges of the inner
    boundary it holds what it held before the call.  No other array
    changes. *)
Theorem inc_wave_everywhere_overwrites (env : Env) (t : R) (h : list (list R)) (p q : vec) :
  wf_env env -> length (circumcenter env) = num_faces env ->
  h !! Store.default_pressure = Some p -> h !! Store.default_flux = Some q ->
  length p = num_faces env -> length q = num_edges env ->
  exists q',
    Store.eval_inc_wave_everywhere env t h
    = Ok ({| Store.pressure_ref := Store.default_pressure;
             Store.flux_ref := Store.default_flux |},
          <[Store.default_flux := q']>
            (<[Store.default_pressure :=
                 map (eval_inc_wave_pressure env t) (circumcenter env)]> h)) /\
    length q' = num_edges env /\
    forall e, (e < num_edges env)%nat ->
      if bool_decide (e ∈ inner_bound_edges env) then q' !! e = q !! e
      else exists verts w,
             simplices env !! e = Some verts /\
             eval_inc_wave_flux env (t + 0.5 * dt env) verts = Ok w /\ q' !! e = Some w.
Proof.
  intros Hwf Hcc Hp Hq Hlp Hlq.
  set (h1 := <[Store.default_pressure :=
                map (eval_inc_wave_pressure env t) (circumcenter env)]> h).
  assert (Hq1 : h1 !! Store.default_flux = Some q).
  { unfold h1. by rewrite list_lookup_insert_ne. }
  destruct (flux_loop env (t + 0.5 * dt env) h1 Store.default_flux q Hwf Hlq Hq1)
    as (q' & Hloop2 & Hlen & Hlook).
  exists q'. split; [|done].
  unfold Store.eval_inc_wave_everywhere, Store.State_default.
  rewrite (store_bind_step _ _ h h _ eq_refl). cbn [Store.pressure_ref Store.flux_ref].
  rewrite (store_bind_step _ _ h h p (store_load h _ p Hp)).
  rewrite (store_bind_step _ _ h h1 tt
             (pressure_loop env t h Store.default_pressure p ltac:(lia) Hp)).
  rewrite (store_bind_step _ _ h1 h1 q (store_load h1 _ q Hq1)).
  rewrite (store_bind_step _ _ h1 _ tt Hloop2). done.
Qed.

Lemma inc_wave_everywhere_overwrites_witness :
  exists q',
    Store.eval_inc_wave_everywhere square_env 0 (Store.initial_store square_env)
    = Ok ({| Store.pressure_ref := Store.default_pressure;
             Store.flux_ref := Store.default_flux |},
          <[Store.default_flux := q']>
            (<[Store.default_pressure :=
                 map (eval_inc_wave_pressure square_env 0) (circumcenter square_env)]>
               (Store.initial_store square_env))) /\
    length q' = num_edges square_env /\
    forall e, (e < num_edges square_env)%nat ->
      if bool_decide (e ∈ inner_bound_edges square_env)
      then q' !! e = zeros (num_edges square_env) !! e
      else exists verts w,
             simplices square_env !! e = Some verts /\
             eval_inc_wave_flux square_env (0 + 0.5 * dt square_env) verts = Ok w /\
             q' !! e = Some w.
Proof.
  apply (inc_wave_everywhere_overwrites square_env 0 (Store.initial_store square_env)
           (zeros (num_faces square_env)) (zeros (num_edges square_env)) wf_square_env);
    reflexivity.
Defined.

(** ** Restarting the clock every period *)

Lemma inc_wave_flux_formula_period (env : Env) (t : R) (p0 p1 : R * R) :
  inc_angular_vel env <> 0 ->
  inc_wave_flux_formula env (t + wave_period env) p0 p1 = inc_wave_flux_formula env t p0 p1.
Proof.
  intros H. unfold inc_wave_flux_formula. rewrite wave_angle_period by done.
  set (kdotp := dot2 (inc_wave_vector env) p0).
  set (kdotl := dot2 (inc_wave_vector env) _).
  set (kdotn := dot2 (inc_wave_vector env) _).
  replace (inc_angular_vel env * t + 2 * PI - kdotp)
    with (inc_angular_vel env * t - kdotp + 2 * PI) by ring.
  replace (inc_angular_vel env * t - kdotp + 2 * PI - kdotl)
    with (inc_angular_vel env * t - kdotp - kdotl + 2 * PI) by ring.
  by rewrite sin_shift_2PI, !cos_shift_2PI.
Qed.

Lemma incoming_wave_flux_periods (env : Env) (t : R) (e k : nat) :
  inc_angular_vel env <> 0 ->
  incoming_wave_flux env (t + INR k * wave_period env) e = incoming_wave_flux env t e.
Proof.
  intros H. induction k as [|k IH].
  - simpl. f_equal. ring.
  - rewrite S_INR.
    replace (t + (INR k + 1) * wave_period env)
      with (t + INR k * wave_period env + wave_period env) by ring.
    rewrite <- IH. unfold incoming_wave_flux.
    destruct (simplices env !! e) as [[v0 v1]|]; [|done].
    destruct (vertices env !! v0) as [p0|]; [|done].
    destruct (vertices env !! v1) as [p1|]; [|done].
    by apply inc_wave_flux_formula_period.
Qed.

Lemma spec_forward_step_shift (env : Env) (c : R) (s : State) (t : R) (k : nat) :
  inc_angular_vel env <> 0 ->
  ForwardSolve.state
    (spec_forward_step env (fun _ => c)
       {| ForwardSolve.state := s; ForwardSolve.time := t + INR k * wave_period env |})
  = ForwardSolve.state
      (spec_forward_step env (fun _ => c)
         {| ForwardSolve.state := s; ForwardSolve.time := t |}).
Proof.
  intros H. unfold spec_forward_step. cbn [ForwardSolve.state ForwardSolve.time].
  f_equal. f_equal. apply overwrite_ext. intros e.
  replace (t + INR k * wave_period env + dt env + 0.5 * dt env)
    with (t + dt env + 0.5 * dt env + INR k * wave_period env) by ring.
  by rewrite incoming_wave_flux_periods.
Qed.

Lemma forward_iter_shift (env : Env) (c : R) (s : State) (t : R) (k n : nat) :
  inc_angular_vel env <> 0 ->
  ForwardSolve.state
    (Nat.iter n (spec_forward_step env (fun _ => c))
       {| ForwardSolve.state := s; ForwardSolve.time := t + INR k * wave_period env |})
  = ForwardSolve.state
      (Nat.iter n (spec_forward_step env (fun _ => c))
         {| ForwardSolve.state := s; ForwardSolve.time := t |}).
Proof.
  intros H. induction n as [|n IH]; [done|]. rewrite !Nat.iter_succ.
  pose proof (forward_iter_time env (fun _ => c) n
    {| ForwardSolve.state := s; ForwardSolve.time := t + INR k * wave_period env |}) as T1.
  pose proof (forward_iter_time env (fun _ => c) n
    {| ForwardSolve.state := s; ForwardSolve.time := t |}) as T2.
  destruct (Nat.iter n _ {| ForwardSolve.time := t + _ |}) as [s1 t1].
  destruct (Nat.iter n _ {| ForwardSolve.time := t |}) as [s2 t2].
  cbn [ForwardSolve.state ForwardSolve.time] in *. subst s1 t1 t2.
  replace (t + INR k * wave_period env + INR n * dt env)
    with (t + INR n * dt env + INR k * wave_period env) by ring.
  by apply spec_forward_step_shift.
Qed.

Lemma forward_iter_periods (env : Env) (s : State) (k : nat) :
  inc_angular_vel env <> 0 ->
  INR (steps_per_period env) * dt env = wave_period env ->
  Nat.iter (k * steps_per_period env) (spec_forward_step env (source_scaling true))
    {| ForwardSolve.state := s; ForwardSolve.time := 0 |}
  = {| ForwardSolve.state := Nat.iter k (forward_period env (source_scaling true)) s;
       ForwardSolve.time := INR k * wave_period env |}.
Proof.
  intros H HP. induction k as [|k IH].
  - simpl. f_equal. ring.
  - replace (S k * steps_per_period env)%nat
      with (steps_per_period env + k * steps_per_period env)%nat by lia.
    rewrite Nat.iter_add, IH.
    pose proof (forward_iter_time env (source_scaling true) (steps_per_period env)
      {| ForwardSolve.state := Nat.iter k (forward_period env (source_scaling true)) s;
         ForwardSolve.time := INR k * wave_period env |}) as T.
    pose proof (forward_iter_shift env 1
      (Nat.iter k (forward_period env (source_scaling true)) s) 0 k
      (steps_per_period env) H) as St.
    rewrite Rplus_0_l in St. change (fun _ : R => 1) with (source_scaling true) in St.
    destruct (Nat.iter (steps_per_period env) _ {| ForwardSolve.time := INR k * _ |})
      as [s1 t1].
    cbn [ForwardSolve.state ForwardSolve.time] in *. subst s1 t1.
    rewrite Nat.iter_succ. f_equal. rewrite S_INR, HP. ring.
Qed.

Lemma reference_run_states (env : Env) (s : State) (k : nat) (acc : list R * State) :
  wf_env env -> wf_state env s ->
  repeat_n k (reference_body env) ([], s) = Ok acc ->
  snd acc = Nat.iter k (forward_period env (source_scaling true)) s /\
  wf_state env (snd acc).
Proof.
  intros Hwf Hs. revert acc. induction k as [|k IH]; intros acc.
  - by intros [= <-].
  - rewrite repeat_n_snoc, bind_Ok. intros (acck & Hk & Hbody).
    destruct (IH acck Hk) as [Hstate Hwfk].
    apply reference_body_Ok in Hbody as (fwd & e & Hrun & _ & ->). cbn [snd].
    rewrite copy_eq in Hrun.
    destruct (forward_run_iter env (fun _ => 1) (steps_per_period env)
                {| ForwardSolve.state := snd acck; ForwardSolve.time := 0 |} Hwf Hwfk)
      as [Hrun' Hwf'].
    rewrite Hrun' in Hrun. injection Hrun as <-.
    split; [|done]. rewrite Nat.iter_succ, <- Hstate. done.
Qed.

(** X20. When [steps_per_period] steps take exactly one wave period, the
    reference loop, which starts a new solver at time 0 for every period,
    goes through the states of one uninterrupted forward simulation: the
    state with which it leaves period [k] is the state after
    [k * steps_per_period] steps from time 0, which is then at the time of
    [k] wave periods. *)
Theorem reference_loop_is_one_simulation (env : Env) (initial_state : State) :
  wf_env env -> wf_state env initial_state ->
  inc_angular_vel env <> 0 ->
  INR (steps_per_period env) * dt env = wave_period env ->
  forall k acc,
    repeat_n k (reference_body env) ([], copy initial_state) = Ok acc ->
    exists fwd,
      repeat_n (k * steps_per_period env) (ForwardSolve.step env (fun _ => 1))
        {| ForwardSolve.state := copy initial_state; ForwardSolve.time := 0 |} = Ok fwd /\
      ForwardSolve.state fwd = snd acc /\
      ForwardSolve.time fwd = INR k * wave_period env.
Proof.
  intros Hwf Hs Hw HP k acc. rewrite copy_eq. intros Hrun.
  destruct (reference_run_states env initial_state k acc Hwf Hs Hrun) as [-> _].
  destruct (forward_run_iter env (fun _ => 1) (k * steps_per_period env)
              {| ForwardSolve.state := initial_state; ForwardSolve.time := 0 |} Hwf Hs)
    as [Hfwd _].
  eexists. split; [exact Hfwd|].
  change (fun _ : R => 1) with (source_scaling true).
  by rewrite forward_iter_periods.
Qed.

Lemma reference_loop_is_one_simulation_witness :
  INR (steps_per_period square_env) * dt square_env = wave_period square_env /\
  forall k acc,
    repeat_n k (reference_body square_env) ([], copy unit_pressure_state) = Ok acc ->
    exists fwd,
      repeat_n (k * steps_per_period square_env) (ForwardSolve.step square_env (fun _ => 1))
        {| ForwardSolve.state := copy unit_pressure_state; ForwardSolve.time := 0 |}
        = Ok fwd /\
      ForwardSolve.state fwd = snd acc /\
      ForwardSolve.time fwd = INR k * wave_period square_env.
Proof.
  assert (HP : INR (steps_per_period square_env) * dt square_env = wave_period square_env).
  { unfold wave_period. cbn [steps_per_period dt inc_angular_vel square_env].
    rewrite INR_IZR_INZ. cbn [Z.of_nat Pos.of_succ_nat Pos.succ]. field. }
  split; [exact HP|].
  apply (reference_loop_is_one_simulation square_env unit_pressure_state
           wf_square_env wf_unit_pressure_state); [simpl; lra | exact HP].
Defined.
